(** * rep4rep-bot: account store, session handling and comment dispatch

    A shallow embedding of the bot's two entry scripts and of its API client:

    - [src/index.js]   : the script with the per-task retry loop ([SrcIndex]);
    - the second script (same functions, coloured logging, envelope
      detection for the profile list, no retry loop) ([RootIndex]);
    - [src/api.js]     : the rep4rep client ([api]).

    Both scripts share [loadAccounts], [saveAccounts], [getAccount],
    [updateAccount], [processAccount] and [startWork] word for word (up to
    the logging helpers); they differ in [autoComment], in the [catch]
    block of [addAccount] and in the colours of what [viewAccounts] and
    [main] print.

    Modelling conventions.
    - JSON data is [JVal]; a JavaScript value that may be [undefined] is an
      [option JVal] ([None] is [undefined]).  Numbers are integers.
    - An account record is a finite map from field names to JSON values,
      and [accounts.json] holds an array of such records.
    - Everything outside the scripts (the Steam client, the community
      client, [fetch], the clock, [Date]) is an [Env]: a table of answers
      indexed by the number of awaited external calls made so far.
    - Every event handler runs to completion before the next event is
      delivered: the awaits inside a handler are answered by the [Env] in
      program order.  Console output is not modelled, except for the lines
      of [viewAccounts], and [fs] calls succeed.
    - [addAccount] and the menu loop of [main] take what is typed at the
      prompt and the events of the client as arguments; the events of a
      client are delivered during the call that created it. *)

From stdpp Require Import base gmap strings list pretty.
From Stdlib Require Import ZArith Lia Ascii.

Set Warnings "-register-all".

(** ** JavaScript values *)

Inductive JVal : Type :=
| JNull
| JBool (b : bool)
| JNum (z : Z)
| JStr (s : string)
| JArr (items : list JVal)
| JObj (fields : list (string * JVal)).

(** The outcome of evaluating a piece of code that may throw. *)
Inductive Res (A : Type) : Type :=
| Ok (a : A)
| Throw (message : string).
Arguments Ok {A} a.
Arguments Throw {A} message.

Module JS.

(** [if (v)], [v && ...], [!v] *)
Definition truthy (v : option JVal) : bool :=
  match v with
  | None | Some JNull => false
  | Some (JBool b) => b
  | Some (JNum z) => negb (z =? 0)%Z
  | Some (JStr s) => negb (String.eqb s "")
  | Some (JArr _) | Some (JObj _) => true
  end.

(** [Array.isArray(v)] *)
Definition isArray (v : option JVal) : bool :=
  match v with Some (JArr _) => true | _ => false end.

(** [typeof v === 'object'] (true of [null] as well) *)
Definition typeof_object (v : option JVal) : bool :=
  match v with
  | Some JNull | Some (JArr _) | Some (JObj _) => true
  | _ => false
  end.

Fixpoint assoc (k : string) (fields : list (string * JVal)) : option JVal :=
  match fields with
  | [] => None
  | (k', v) :: rest => if String.eqb k k' then Some v else assoc k rest
  end.

Definition TypeError : string := "TypeError".

(** [v.k] for the property names the scripts read ([data], [profiles],
    [steamProfiles], [steamId], [id], [taskId], [targetSteamProfileId],
    [requiredCommentText], [requiredCommentId]): reading a property of
    [null] or [undefined] throws, a primitive or an array has none of
    them. *)
Definition getProp (v : option JVal) (k : string) : Res (option JVal) :=
  match v with
  | None | Some JNull => Throw TypeError
  | Some (JObj fields) => Ok (assoc k fields)
  | Some _ => Ok None
  end.

(** [a === b] on primitives.  An array or an object is [===] to itself
    only; references are not modelled, and two arrays or objects (which
    come from different [JSON.parse] calls wherever the scripts compare
    values read from the file) compare as different. *)
Definition strict_eq (a b : option JVal) : bool :=
  match a, b with
  | None, None => true
  | Some JNull, Some JNull => true
  | Some (JBool x), Some (JBool y) => Bool.eqb x y
  | Some (JNum x), Some (JNum y) => (x =? y)%Z
  | Some (JStr x), Some (JStr y) => String.eqb x y
  | _, _ => false
  end.

Fixpoint join (sep : string) (l : list string) : string :=
  match l with
  | [] => ""
  | [x] => x
  | x :: rest => x +:+ sep +:+ join sep rest
  end.

(** [String(v)] *)
Fixpoint ToString (v : JVal) : string :=
  match v with
  | JNull => "null"
  | JBool true => "true"
  | JBool false => "false"
  | JNum z => pretty z
  | JStr s => s
  | JArr items =>
      join ","
        ((fix each (l : list JVal) : list string :=
            match l with
            | [] => []
            | JNull :: rest => "" :: each rest
            | x :: rest => ToString x :: each rest
            end) items)
  | JObj _ => "[object Object]"
  end.

(** The key used by [obj[v]]. *)
Definition ToPropertyKey (v : option JVal) : string :=
  match v with
  | None => "undefined"
  | Some x => ToString x
  end.

(** [s.includes(needle)] *)
Fixpoint includes (s needle : string) : bool :=
  String.prefix needle s
  || match s with
     | EmptyString => false
     | String _ rest => includes rest needle
     end.

(** The values a [for (const x of v)] loop visits; anything but an array
    or a string is not iterable. *)
Fixpoint characters (s : string) : list JVal :=
  match s with
  | EmptyString => []
  | String c rest => JStr (String c EmptyString) :: characters rest
  end.

Definition iterate (v : JVal) : Res (list JVal) :=
  match v with
  | JArr items => Ok items
  | JStr s => Ok (characters s)
  | _ => Throw TypeError
  end.

End JS.

(** ** The accounts store ([accounts.json]) *)

(** An account record: [login], [password], [refreshToken],
    [commentCounter], [lastComment], [steamID], and whatever else the file
    holds. *)
Abbreviation Account := (gmap string JVal).

(** The file [accounts.json]: absent, or holding a list of records. *)
Abbreviation Disk := (option (list Account)).

Definition loadAccounts (fs : Disk) : list Account * Disk :=
  match fs with
  | None => ([], Some [])
  | Some stored => (stored, Some stored)
  end.

Definition saveAccounts (accounts : list Account) (fs : Disk) : Disk :=
  Some accounts.

(** [accounts.find((acc) => acc.login === login)]: the first match; its
    position stands for the reference [find] returns. *)
Fixpoint getAccount (accounts : list Account) (login : option JVal)
  : option (nat * Account) :=
  match accounts with
  | [] => None
  | acc :: rest =>
      if JS.strict_eq (acc !! "login") login then Some (0, acc)
      else match getAccount rest login with
           | Some (i, found) => Some (S i, found)
           | None => None
           end
  end.

(** [{ login, ...updates }] *)
Definition newRecord (login : option JVal) (updates : Account) : Account :=
  updates ∪ match login with
            | Some l => {[ "login" := l ]}
            | None => ∅
            end.

(** [updateAccount(accounts, login, updates)]: returns the array as it is
    after the call, and the file as [saveAccounts] leaves it. *)
Definition updateAccount (accounts : list Account) (login : option JVal)
    (updates : Account) (fs : Disk) : list Account * Disk :=
  let accounts' :=
    match getAccount accounts login with
    | Some (i, account) => <[ i := updates ∪ account ]> accounts
    | None => accounts ++ [newRecord login updates]
    end in
  (accounts', saveAccounts accounts' fs).

(** ** The world outside the scripts *)

(** An error object handed over by the Steam client ([e.eresult],
    [e.message]). *)
Record SteamError : Type := { eresult : Z; message : string }.

(** What the scripts do to the outside world, in program order. *)
Inductive Effect : Type :=
| ELogOn (logOnOptions : Account)
| ESetPersona (state : Z)
| ESetCookies
| ELogOff
| EGetSteamProfiles
| EAddSteamProfile (steamProfile : string)
| EGetTasks (steamProfile : option JVal)
| EPostUserComment (userID text : option JVal) (outcome : Res (option string))
| ECompleteTask (taskId commentId authorSteamProfileId : option JVal)
| ESleep (millis : Z).

(** The answers of the outside world.  The [nat] is the number of awaited
    external calls made before the call being answered.  [fetch_*] is the
    [fetch(...).then(response => response.json())] of the client: a JSON
    value, or a rejection.  [postUserComment] gives what the callback
    receives: [Ok None] for no error, [Ok (Some message)] for an error with
    that message, [Throw] if the call itself throws.  [Date_parse] is
    [new Date(string).getTime()] with [None] for [NaN]. *)
Record Env : Type := {
  Date_parse : string → option Z;
  toISOString : Z → string;
  fetch_steamprofiles : nat → Res JVal;
  fetch_steamprofiles_add : nat → string → Res JVal;
  fetch_tasks : nat → option JVal → Res JVal;
  fetch_tasks_complete : nat → option JVal → option JVal → option JVal → Res JVal;
  postUserComment : nat → option JVal → option JVal → Res (option string);
  elapsed : nat → Z
}.

(** The state the handlers of one [processAccount] call work on.
    [accounts] is the array loaded by that call and shared by its
    handlers; [successfulComments] is the counter of the [autoComment]
    activation in progress, kept here so that it stays observable when the
    activation is left through its [catch]. *)
Record State : Type := {
  accounts : list Account;
  disk : Disk;
  now : Z;
  trace : list Effect;
  calls : nat;
  successfulComments : nat
}.

Definition set_store (a : list Account) (d : Disk) (st : State) : State :=
  {| accounts := a; disk := d; now := now st; trace := trace st;
     calls := calls st; successfulComments := successfulComments st |}.

Definition emit (e : Effect) (st : State) : State :=
  {| accounts := accounts st; disk := disk st; now := now st;
     trace := trace st ++ [e];
     calls := calls st; successfulComments := successfulComments st |}.

(** An awaited external call has been answered: time has passed. *)
Definition answered (env : Env) (st : State) : State :=
  {| accounts := accounts st; disk := disk st;
     now := (now st + elapsed env (calls st))%Z; trace := trace st;
     calls := S (calls st); successfulComments := successfulComments st |}.

Definition advance (millis : Z) (st : State) : State :=
  {| accounts := accounts st; disk := disk st; now := (now st + millis)%Z;
     trace := trace st; calls := calls st;
     successfulComments := successfulComments st |}.

Definition set_successfulComments (n : nat) (st : State) : State :=
  {| accounts := accounts st; disk := disk st; now := now st;
     trace := trace st; calls := calls st; successfulComments := n |}.

(** ** Code that reads and writes the state and may throw *)

Definition M (A : Type) : Type := State → Res A * State.

Definition ret {A} (a : A) : M A := fun st => (Ok a, st).

Definition throw {A} (message : string) : M A := fun st => (Throw message, st).

Definition bind {A B} (m : M A) (k : A → M B) : M B :=
  fun st =>
    match m st with
    | (Ok a, st') => k a st'
    | (Throw e, st') => (Throw e, st')
    end.

Notation "x ←! m ; k" := (bind m (fun x => k))
  (at level 100, m at next level, k at level 200, right associativity,
   format "x  ←!  m ;  '/' k").
Notation "m ;! k" := (bind m (fun _ => k))
  (at level 100, k at level 200, right associativity,
   format "m ;!  '/' k").

(** [try { body } catch (error) { handler }] *)
Definition try_catch {A} (body : M A) (handler : string → M A) : M A :=
  fun st =>
    match body st with
    | (Ok a, st') => (Ok a, st')
    | (Throw e, st') => handler e st'
    end.

Definition lift {A} (r : Res A) : M A := fun st => (r, st).

(** [await sleep(millis)] *)
Definition sleep (millis : Z) : M unit :=
  fun st => (Ok tt, advance millis (emit (ESleep millis) st)).

(** [updateAccount(accounts, login, updates)] on the shared array. *)
Definition do_updateAccount (login : option JVal) (updates : Account) : M unit :=
  fun st =>
    let '(a, d) := updateAccount (accounts st) login updates (disk st) in
    (Ok tt, set_store a d st).

(** [new Date().toISOString()] *)
Definition stamp (env : Env) (st : State) : JVal := JStr (toISOString env (now st)).

(** ** The rep4rep client ([src/api.js]) *)

Module api.

(** The [.then(json => ...)] of [getSteamProfiles]. *)
Definition unwrap_data (json : JVal) : Res JVal :=
  if JS.truthy (Some json) then
    match JS.getProp (Some json) "data" with
    | Ok data =>
        if JS.truthy data && JS.isArray data
        then match data with Some d => Ok d | None => Ok json end
        else Ok json
    | Throw e => Throw e
    end
  else Ok json.

Definition getSteamProfiles (env : Env) : M JVal :=
  fun st =>
    let st1 := emit EGetSteamProfiles st in
    match fetch_steamprofiles env (calls st1) with
    | Ok json => (unwrap_data json, answered env st1)
    | Throw e => (Throw e, answered env st1)
    end.

Definition addSteamProfile (env : Env) (steamId : string) : M JVal :=
  fun st =>
    let st1 := emit (EAddSteamProfile steamId) st in
    (fetch_steamprofiles_add env (calls st1) steamId, answered env st1).

Definition getTasks (env : Env) (r4rSteamId : option JVal) : M JVal :=
  fun st =>
    let st1 := emit (EGetTasks r4rSteamId) st in
    (fetch_tasks env (calls st1) r4rSteamId, answered env st1).

Definition completeTask (env : Env) (taskId commentId authorSteamProfileId : option JVal)
  : M JVal :=
  fun st =>
    let st1 := emit (ECompleteTask taskId commentId authorSteamProfileId) st in
    (fetch_tasks_complete env (calls st1) taskId commentId authorSteamProfileId,
     answered env st1).

End api.

(** [community.postUserComment(userID, text, callback)] awaited through the
    promise the scripts wrap it in: what the callback got. *)
Definition do_postUserComment (env : Env) (userID text : option JVal)
  : M (option string) :=
  fun st =>
    let outcome := postUserComment env (calls st) userID text in
    (outcome, answered env (emit (EPostUserComment userID text outcome) st)).

(** ** What the two dispatchers share *)

(** [new Date(v).getTime()], [None] for [NaN]. *)
Definition Date_getTime (env : Env) (v : option JVal) : option Z :=
  match v with
  | None => None
  | Some (JStr s) => Date_parse env s
  | Some (JNum z) => if (Z.abs z <=? 8640000000000000)%Z then Some z else None
  | Some (JBool b) => Some (if b then 1 else 0)%Z
  | Some JNull => Some 0%Z
  | Some x => Date_parse env (JS.ToString x)
  end.

Definition twentyFourHours : Z := 24 * 60 * 60 * 1000.

(** The guard of [autoComment] and of [startWork]:
    [account.lastComment] is truthy and
    [currentTime - lastCommentTime < twentyFourHours]
    (a comparison with [NaN] is false). *)
Definition coolingDown (env : Env) (account : Account) (currentTime : Z) : bool :=
  JS.truthy (account !! "lastComment")
  && match Date_getTime env (account !! "lastComment") with
     | Some lastCommentTime => (currentTime - lastCommentTime <? twentyFourHours)%Z
     | None => false
     end.

Definition settings_message : string :=
  "The settings on this account do not allow you to add comments".

Definition frequency_message : string := "You've been posting too frequently".

Definition maxComments : nat := 10.

(** [repSteamProfiles] and [repSteamProfilesObj]. *)
Record Mapping : Type := {
  repSteamProfiles : list (option JVal);
  repSteamProfilesObj : gmap string JVal
}.

Definition no_profiles : Mapping :=
  {| repSteamProfiles := []; repSteamProfilesObj := ∅ |}.

(** [obj[k] = v]; storing [undefined] reads back as [undefined]. *)
Definition assign_key (k : string) (v : option JVal) (obj : gmap string JVal)
  : gmap string JVal :=
  match v with
  | Some x => <[ k := x ]> obj
  | None => delete k obj
  end.

(** The body of the two [forEach] callbacks, over the elements of the
    array. *)
Fixpoint collect (steamProfiles : list JVal) (m : Mapping) : Res Mapping :=
  match steamProfiles with
  | [] => Ok m
  | steamProfile :: rest =>
      match JS.getProp (Some steamProfile) "steamId",
            JS.getProp (Some steamProfile) "id" with
      | Ok steamId, Ok id =>
          collect rest
            {| repSteamProfiles := repSteamProfiles m ++ [steamId];
               repSteamProfilesObj :=
                 assign_key (JS.ToPropertyKey steamId) id (repSteamProfilesObj m) |}
      | Throw e, _ => Throw e
      | _, Throw e => Throw e
      end
  end.

(** [repSteamProfiles.includes(steamID)] *)
Definition registered (m : Mapping) (steamID : string) : bool :=
  existsb (fun v => JS.strict_eq v (Some (JStr steamID))) (repSteamProfiles m).

(** [{ commentCounter: 0, lastComment: new Date().toISOString() }] *)
Definition cooldown_update (env : Env) (st : State) : Account :=
  {[ "commentCounter" := JNum 0; "lastComment" := stamp env st ]}.

Definition stamp_lastComment (env : Env) (login : option JVal) : M unit :=
  fun st => do_updateAccount login {[ "lastComment" := stamp env st ]} st.

Definition stop_account (env : Env) (login : option JVal) : M unit :=
  fun st => do_updateAccount login (cooldown_update env st) st.

(** How a loop body or a loop was left. *)
Inductive Ctl : Type :=
| Next      (* fell through, or [break] *)
| Return.   (* [return] from the function *)

(** ** [autoComment] of [src/index.js] *)

Module SrcIndex.

Definition maxAttempts : nat := 3.

(** What the promise around [postUserComment] resolves with. *)
Inductive Result : Type := result_true | result_false | result_null.

(** [steamProfiles.forEach(...)]: only an array has [forEach]. *)
Definition forEach (steamProfiles : JVal) (m : Mapping) : M Mapping :=
  match steamProfiles with
  | JArr items => lift (collect items m)
  | _ => throw JS.TypeError
  end.

(** One turn of the [while] loop up to the promise's value: the log line
    reads the two task fields, then the comment is posted and the
    callback classifies the error. *)
Definition post (env : Env) (account : Account) (task : JVal) : M Result :=
  userID ←! lift (JS.getProp (Some task) "targetSteamProfileId");
  text ←! lift (JS.getProp (Some task) "requiredCommentText");
  err ←! do_postUserComment env userID text;
  match err with
  | Some msg =>
      if JS.includes msg settings_message then ret result_null
      else if JS.includes msg frequency_message then
        (stop_account env (account !! "login") ;! ret result_false)
      else ret result_null
  | None => ret result_true
  end.

Definition complete (env : Env) (task : JVal) (profile : option JVal) : M unit :=
  taskId ←! lift (JS.getProp (Some task) "taskId");
  commentId ←! lift (JS.getProp (Some task) "requiredCommentId");
  _ ←! api.completeTask env taskId commentId profile;
  fun st => (Ok tt, set_successfulComments (S (successfulComments st)) st).

(** [while (attemptCount < maxAttempts) { ... }] with
    [remaining = maxAttempts - attemptCount]. *)
Fixpoint attempts (env : Env) (account : Account) (profile : option JVal)
    (task : JVal) (remaining : nat) : M Ctl :=
  match remaining with
  | O => ret Next
  | S remaining' =>
      result ←! post env account task;
      match result with
      | result_false => ret Return
      | result_true => (complete env task profile ;! ret Next)
      | result_null => (sleep 5000 ;! attempts env account profile task remaining')
      end
  end.

(** [for (const task of tasks) { ... }] *)
Fixpoint forTasks (env : Env) (account : Account) (profile : option JVal)
    (tasks : list JVal) : M Ctl :=
  match tasks with
  | [] => ret Next
  | task :: rest =>
      fun st =>
        if (maxComments <=? successfulComments st)%nat then (Ok Next, st)
        else
          (left ←! attempts env account profile task maxAttempts;
           match left with
           | Return => ret Return
           | Next => (sleep 15000 ;! forTasks env account profile rest)
           end) st
  end.

Definition body (env : Env) (steamID : string) (account : Account) : M unit :=
  fun st =>
    if coolingDown env account (now st) then (Ok tt, st)
    else
      (do_updateAccount (account !! "login") {[ "commentCounter" := JNum 0 ]} ;!
       steamProfiles ←! api.getSteamProfiles env;
       m ←! forEach steamProfiles no_profiles;
       m ←! (if registered m steamID then ret m
             else (_ ←! api.addSteamProfile env steamID;
                   updatedSteamProfiles ←! api.getSteamProfiles env;
                   forEach updatedSteamProfiles m));
       tasks ←! api.getTasks env (repSteamProfilesObj m !! steamID);
       (fun st => (Ok tt, set_successfulComments 0 st)) ;!
       items ←! lift (JS.iterate tasks);
       left ←! forTasks env account (repSteamProfilesObj m !! steamID) items;
       match left with
       | Return => ret tt
       | Next => stamp_lastComment env (account !! "login")
       end) st.

Definition autoComment (env : Env) (steamID : string) (account : Account) : M unit :=
  try_catch (body env steamID account) (fun _ => ret tt).

End SrcIndex.

(** ** [autoComment] of the second script *)

Module RootIndex.

Inductive Result : Type := result_true | result_false | result_stop.

(** The envelope detection, written twice in the script (for the first
    listing and for the listing after registration): [Ok None] is the
    logged [return], [Throw] is [null.data]. *)
Definition extract (response : JVal) : Res (option (list JVal)) :=
  if JS.typeof_object (Some response) then
    match response with
    | JArr items => Ok (Some items)
    | _ =>
        match JS.getProp (Some response) "data" with
        | Throw e => Throw e
        | Ok (Some (JArr items)) => Ok (Some items)
        | Ok _ =>
            match JS.getProp (Some response) "profiles" with
            | Throw e => Throw e
            | Ok (Some (JArr items)) => Ok (Some items)
            | Ok _ =>
                match JS.getProp (Some response) "steamProfiles" with
                | Throw e => Throw e
                | Ok (Some (JArr items)) => Ok (Some items)
                | Ok _ => Ok None
                end
            end
        end
    end
  else Ok None.

Definition post (env : Env) (account : Account) (task : JVal) : M Result :=
  userID ←! lift (JS.getProp (Some task) "targetSteamProfileId");
  text ←! lift (JS.getProp (Some task) "requiredCommentText");
  err ←! do_postUserComment env userID text;
  match err with
  | Some msg =>
      if JS.includes msg settings_message then ret result_false
      else if JS.includes msg frequency_message then
        (stop_account env (account !! "login") ;! ret result_stop)
      else ret result_false
  | None => ret result_true
  end.

Definition complete (env : Env) (task : JVal) (profile : option JVal) : M unit :=
  taskId ←! lift (JS.getProp (Some task) "taskId");
  commentId ←! lift (JS.getProp (Some task) "requiredCommentId");
  _ ←! api.completeTask env taskId commentId profile;
  fun st => (Ok tt, set_successfulComments (S (successfulComments st)) st).

(** [for (const task of tasks) { ... }]; both ways out are [break]s. *)
Fixpoint forTasks (env : Env) (account : Account) (profile : option JVal)
    (tasks : list JVal) : M unit :=
  match tasks with
  | [] => ret tt
  | task :: rest =>
      fun st =>
        if (maxComments <=? successfulComments st)%nat then (Ok tt, st)
        else
          (result ←! post env account task;
           match result with
           | result_stop => ret tt
           | result_false => (sleep 15000 ;! forTasks env account profile rest)
           | result_true =>
               (complete env task profile ;!
                sleep 15000 ;!
                forTasks env account profile rest)
           end) st
  end.

(** The rest of [autoComment] once a profile list is in hand. *)
Definition dispatch (env : Env) (steamID : string) (account : Account)
    (m : Mapping) : M unit :=
  tasks ←! api.getTasks env (repSteamProfilesObj m !! steamID);
  (fun st => (Ok tt, set_successfulComments 0 st)) ;!
  items ←! lift (JS.iterate tasks);
  forTasks env account (repSteamProfilesObj m !! steamID) items ;!
  stamp_lastComment env (account !! "login").

Definition body (env : Env) (steamID : string) (account : Account) : M unit :=
  fun st =>
    if coolingDown env account (now st) then (Ok tt, st)
    else
      (do_updateAccount (account !! "login") {[ "commentCounter" := JNum 0 ]} ;!
       steamProfilesResponse ←! api.getSteamProfiles env;
       steamProfiles ←! lift (extract steamProfilesResponse);
       match steamProfiles with
       | None => ret tt
       | Some items =>
           m ←! lift (collect items no_profiles);
           if registered m steamID then dispatch env steamID account m
           else
             (_ ←! api.addSteamProfile env steamID;
              updatedSteamProfilesResponse ←! api.getSteamProfiles env;
              updatedSteamProfiles ←! lift (extract updatedSteamProfilesResponse);
              match updatedSteamProfiles with
              | None => ret tt
              | Some items' =>
                  m' ←! lift (collect items' m);
                  dispatch env steamID account m'
              end)
       end) st.

Definition autoComment (env : Env) (steamID : string) (account : Account) : M unit :=
  try_catch (body env steamID account) (fun _ => ret tt).

End RootIndex.

(** ** [processAccount] and [startWork] (the same in both scripts) *)

(** The promise [processAccount] awaits. *)
Inductive Promise : Type :=
| Pending
| Resolved
| Rejected (e : SteamError).

(** [resolve()] and [reject(e)] settle a pending promise and do nothing to
    a settled one. *)
Definition resolve (p : Promise) : Promise :=
  match p with Pending => Resolved | _ => p end.

Definition reject (e : SteamError) (p : Promise) : Promise :=
  match p with Pending => Rejected e | _ => p end.

(** The variables and listeners of one [processAccount] call.
    [webSessionListeners] counts the [user.on('webSession', ...)]
    registrations (one per [loggedOn] event), [disconnectedListeners] the
    pending [user.once('disconnected', ...)] ones.  [unhandled] is set when
    the async [webSession] listener rejects: nothing handles that
    rejection. *)
Record Session : Type := {
  isLoggedOn : bool;
  isTokenRefreshed : bool;
  steamID : option string;
  webSessionListeners : nat;
  disconnectedListeners : nat;
  promise : Promise;
  unhandled : option string
}.

(** What the Steam client emits; [timePasses] lets the clock run between
    two events. *)
Inductive Event : Type :=
| loggedOn (steamID64 : string)
| webSession
| refreshToken (newToken : string)
| error (e : SteamError)
| disconnected
| timePasses (millis : Z).

Definition optional_field (k : string) (v : option JVal) : Account :=
  match v with Some x => {[ k := x ]} | None => ∅ end.

Definition logOnOptions (account : Account) : Account :=
  if JS.truthy (account !! "refreshToken")
  then optional_field "refreshToken" (account !! "refreshToken")
  else optional_field "accountName" (account !! "login")
       ∪ optional_field "password" (account !! "password").

(** How [await processAccount(account)] ends for the caller. *)
Inductive Outcome : Type :=
| returned
| waiting                     (* the promise never settles *)
| crashed (message : string). (* an exception nobody catches *)

Section Runner.

Variable env : Env.

(** The script's [autoComment]. *)
Variable autoComment : Env → string → Account → M unit.

(** [processAccount] up to the end of the promise executor. *)
Definition open (account : Account) (st : State) : Session * State :=
  let '(a, d) := loadAccounts (disk st) in
  ({| isLoggedOn := false;
      isTokenRefreshed := JS.truthy (account !! "refreshToken");
      steamID := None;
      webSessionListeners := 0;
      disconnectedListeners := 0;
      promise := Pending;
      unhandled := None |},
   emit (ELogOn (logOnOptions account)) (set_store a d st)).

Definition on_loggedOn (steamID64 : string) (s : Session) (st : State)
  : Session * State :=
  ({| isLoggedOn := true;
      isTokenRefreshed := isTokenRefreshed s;
      steamID := Some steamID64;
      webSessionListeners := S (webSessionListeners s);
      disconnectedListeners := disconnectedListeners s;
      promise := promise s;
      unhandled := unhandled s |},
   emit (ESetPersona 7) st).

(** One [webSession] listener. *)
Definition webSession_listener (account : Account) (ss : Session * State)
  : Session * State :=
  let '(s, st) := ss in
  match steamID s with
  | None => (s, st)
  | Some steamID64 =>
      match autoComment env steamID64 account (emit ESetCookies st) with
      | (Ok _, st') =>
          ({| isLoggedOn := isLoggedOn s;
              isTokenRefreshed := isTokenRefreshed s;
              steamID := steamID s;
              webSessionListeners := webSessionListeners s;
              disconnectedListeners := S (disconnectedListeners s);
              promise := promise s;
              unhandled := unhandled s |},
           emit ELogOff st')
      | (Throw e, st') =>
          ({| isLoggedOn := isLoggedOn s;
              isTokenRefreshed := isTokenRefreshed s;
              steamID := steamID s;
              webSessionListeners := webSessionListeners s;
              disconnectedListeners := disconnectedListeners s;
              promise := promise s;
              unhandled := Some e |},
           st')
      end
  end.

Definition on_webSession (account : Account) (s : Session) (st : State)
  : Session * State :=
  Nat.iter (webSessionListeners s) (webSession_listener account) (s, st).

Definition on_refreshToken (account : Account) (newToken : string)
    (s : Session) (st : State) : Session * State :=
  let '(_, st') :=
    do_updateAccount (account !! "login") {[ "refreshToken" := JStr newToken ]} st in
  ({| isLoggedOn := isLoggedOn s;
      isTokenRefreshed := true;
      steamID := steamID s;
      webSessionListeners := webSessionListeners s;
      disconnectedListeners := disconnectedListeners s;
      promise := if isLoggedOn s then resolve (promise s) else promise s;
      unhandled := unhandled s |},
   st').

Definition on_error (account : Account) (e : SteamError)
    (s : Session) (st : State) : Session * State :=
  let st' :=
    if (eresult e =? 5)%Z then st
    else if (eresult e =? 63)%Z then st
    else if JS.includes (message e) frequency_message
         then snd (stop_account env (account !! "login") st)
         else st in
  ({| isLoggedOn := isLoggedOn s;
      isTokenRefreshed := isTokenRefreshed s;
      steamID := steamID s;
      webSessionListeners := webSessionListeners s;
      disconnectedListeners := disconnectedListeners s;
      promise := reject e (promise s);
      unhandled := unhandled s |},
   st').

Definition on_disconnected (s : Session) (st : State) : Session * State :=
  ({| isLoggedOn := isLoggedOn s;
      isTokenRefreshed := isTokenRefreshed s;
      steamID := steamID s;
      webSessionListeners := webSessionListeners s;
      disconnectedListeners := 0;
      promise := match disconnectedListeners s with
                 | O => promise s
                 | S _ => resolve (promise s)
                 end;
      unhandled := unhandled s |},
   st).

(** The process is gone after an unhandled rejection. *)
Definition deliver (account : Account) (ss : Session * State) (ev : Event)
  : Session * State :=
  let '(s, st) := ss in
  match unhandled s with
  | Some _ => (s, st)
  | None =>
      match ev with
      | loggedOn steamID64 => on_loggedOn steamID64 s st
      | webSession => on_webSession account s st
      | refreshToken newToken => on_refreshToken account newToken s st
      | error e => on_error account e s st
      | disconnected => on_disconnected s st
      | timePasses millis => (s, advance millis st)
      end
  end.

(** The session after the client has emitted [events]. *)
Definition session (account : Account) (events : list Event) (st : State)
  : Session * State :=
  fold_left (deliver account) events (open account st).

(** [await new Promise(...)]: [None] while the promise is pending. *)
Definition await (p : Promise) : option (Res unit) :=
  match p with
  | Pending => None
  | Resolved => Some (Ok tt)
  | Rejected e => Some (Throw (message e))
  end.

(** [processAccount(account)] when the client emits [events] during the
    call: the [try]/[catch] around the awaited promise. *)
Definition processAccount (account : Account) (events : list Event)
    (st : State) : Outcome * State :=
  let '(s, st') := session account events st in
  match unhandled s with
  | Some e => (crashed e, st')
  | None =>
      match await (promise s) with
      | None => (waiting, st')
      | Some (Ok _) => (returned, st')
      | Some (Throw _) => (returned, st')
      end
  end.

(** The [for (const account of accounts)] loop of [startWork];
    [events i] is what the client emits for the account at position
    [i]. *)
Fixpoint forAccounts (events : nat → list Event) (i : nat)
    (batch : list Account) (st : State) : Outcome * State :=
  match batch with
  | [] => (returned, st)
  | account :: rest =>
      if negb (JS.truthy (account !! "steamID")) then
        forAccounts events (S i) rest st
      else if coolingDown env account (now st) then
        forAccounts events (S i) rest st
      else
        match processAccount account (events i) st with
        | (returned, st') => forAccounts events (S i) rest st'
        | (waiting, st') => (waiting, st')
        | (crashed e, st') => (crashed e, st')
        end
  end.

Definition startWork (events : nat → list Event) (st : State)
  : Outcome * State :=
  let '(batch, d) := loadAccounts (disk st) in
  forAccounts events 0 batch (set_store (accounts st) d st).

End Runner.

(** ** [addAccount], [viewAccounts] and [main] *)

(** The two scripts: [src/index.js] and the second one. *)
Inductive Script : Type := src_index | second_script.

Definition autoComment_of (script : Script) : Env → string → Account → M unit :=
  match script with
  | src_index => SrcIndex.autoComment
  | second_script => RootIndex.autoComment
  end.

Module Str.

(** [s.split(sep)] for a separator of one character. *)
Fixpoint split (sep : Ascii.ascii) (s : string) : list string :=
  match s with
  | EmptyString => [EmptyString]
  | String c rest =>
      if Ascii.eqb c sep then EmptyString :: split sep rest
      else match split sep rest with
           | first :: others => String c first :: others
           | [] => [String c EmptyString]
           end
  end.

(** A value inside a template literal. *)
Definition template (v : option JVal) : string :=
  match v with
  | None => "undefined"
  | Some x => JS.ToString x
  end.

Definition ReferenceError : string := "ReferenceError".

End Str.

(** [const [username, password] = credentials.split(':')] and the test
    [!username || !password] of [addAccount]; [None] is the logged
    [return]. *)
Definition parse_credentials (credentials : string) : option (string * string) :=
  let parts := Str.split ":"%char credentials in
  let username := parts !! 0 in
  let password := parts !! 1 in
  if negb (JS.truthy (JStr <$> username)) || negb (JS.truthy (JStr <$> password))
  then None
  else match username, password with
       | Some u, Some p => Some (u, p)
       | _, _ => None
       end.

(** The variables of one [addAccount] call: [steamID] and [refreshToken]
    ([None] is [null]) and the promise it awaits. *)
Record Adding : Type := {
  add_steamID : option string;
  add_refreshToken : option string;
  add_promise : Promise
}.

Definition nullable (v : option string) : JVal :=
  match v with
  | Some s => JStr s
  | None => JNull
  end.

(** [{ login: username, password, refreshToken, commentCounter: 0,
       lastComment: null, steamID }] *)
Definition accountData (username password : string) (s : Adding) : Account :=
  {[ "login" := JStr username; "password" := JStr password;
     "refreshToken" := nullable (add_refreshToken s);
     "commentCounter" := JNum 0; "lastComment" := JNull;
     "steamID" := nullable (add_steamID s) ]}.

(** The [catch] block of [addAccount].  [src/index.js] logs the message.
    The log line of the second script reads [username], which is declared
    inside the [try] block and is not in scope in the [catch] block:
    evaluating the template literal throws a [ReferenceError]. *)
Definition addAccount_catch (script : Script) (error_message : string) : Res unit :=
  match script with
  | src_index => Ok tt
  | second_script => Throw Str.ReferenceError
  end.

Section Adding.

Variable env : Env.
Variables username password : string.

(** The update of the account, followed by [resolve()]. *)
Definition add_account (s : Adding) (st : State) : Adding * State :=
  ({| add_steamID := add_steamID s;
      add_refreshToken := add_refreshToken s;
      add_promise := resolve (add_promise s) |},
   (do_updateAccount (Some (JStr username)) (accountData username password s) st).2).

Definition add_loggedOn (steamID64 : string) (s : Adding) (st : State)
  : Adding * State :=
  let s' := {| add_steamID := Some steamID64;
               add_refreshToken := add_refreshToken s;
               add_promise := add_promise s |} in
  if JS.truthy (Some (nullable (add_refreshToken s'))) then add_account s' st
  else (s', st).

Definition add_refreshToken_event (newToken : string) (s : Adding) (st : State)
  : Adding * State :=
  let s' := {| add_steamID := add_steamID s;
               add_refreshToken := Some newToken;
               add_promise := add_promise s |} in
  if JS.truthy (Some (nullable (add_steamID s'))) then add_account s' st
  else (s', st).

Definition add_error (e : SteamError) (s : Adding) (st : State) : Adding * State :=
  let st' :=
    if (eresult e =? 5)%Z then st
    else if (eresult e =? 63)%Z then st
    else if JS.includes (message e) frequency_message
         then (stop_account env (Some (JStr username)) st).2
         else st in
  ({| add_steamID := add_steamID s;
      add_refreshToken := add_refreshToken s;
      add_promise := reject e (add_promise s) |},
   st').

(** [addAccount] listens to [loggedOn], [refreshToken], [error] and
    [disconnected] (which it only logs). *)
Definition add_deliver (ss : Adding * State) (ev : Event) : Adding * State :=
  let '(s, st) := ss in
  match ev with
  | loggedOn steamID64 => add_loggedOn steamID64 s st
  | refreshToken newToken => add_refreshToken_event newToken s st
  | error e => add_error e s st
  | disconnected => (s, st)
  | webSession => (s, st)
  | timePasses millis => (s, advance millis st)
  end.

(** The promise executor of [addAccount]. *)
Definition add_open (st : State) : Adding * State :=
  ({| add_steamID := None; add_refreshToken := None; add_promise := Pending |},
   emit (ELogOn {[ "accountName" := JStr username; "password" := JStr password ]}) st).

Definition adding (events : list Event) (st : State) : Adding * State :=
  fold_left add_deliver events (add_open st).

End Adding.

(** [addAccount()] when [credentials] is typed at the prompt and the
    client emits [events] during the call. *)
Definition addAccount (env : Env) (script : Script) (credentials : string)
    (events : list Event) (st : State) : Outcome * State :=
  match parse_credentials credentials with
  | None => (returned, st)
  | Some (username, password) =>
      let '(a, d) := loadAccounts (disk st) in
      let st1 := set_store a d st in
      match getAccount a (Some (JStr username)) with
      | Some _ => (returned, st1)
      | None =>
          let '(s, st2) := adding env username password events st1 in
          match await (add_promise s) with
          | None => (waiting, st2)
          | Some (Ok _) => (returned, st2)
          | Some (Throw e) =>
              match addAccount_catch script e with
              | Ok _ => (returned, st2)
              | Throw e' => (crashed e', st2)
              end
          end
      end
  end.

(** The colours of the second script's log functions. *)
Definition escape (code : string) : string :=
  String (Ascii.ascii_of_nat 27) code.

Definition logInfo (message : string) : string :=
  escape "[37m" +:+ message +:+ escape "[0m".

Definition logSuccess (message : string) : string :=
  escape "[32m" +:+ message +:+ escape "[0m".

Section Menu.

Variable env : Env.

(** [new Date(v).toLocaleString()], given the time value ([None] for
    [NaN]); it depends on the locale of the machine. *)
Variable toLocaleString : option Z → string.

(** [canPostComments] of [viewAccounts]. *)
Definition canPostComments (account : Account) (currentTime : Z) : bool :=
  if JS.truthy (account !! "lastComment") then
    match Date_getTime env (account !! "lastComment") with
    | Some lastCommentTime => (twentyFourHours <? currentTime - lastCommentTime)%Z
    | None => false
    end
  else true.

(** The line [viewAccounts] prints for one account. *)
Definition account_line (script : Script) (account : Account) (currentTime : Z)
  : string :=
  let lastComment :=
    if JS.truthy (account !! "lastComment")
    then toLocaleString (Date_getTime env (account !! "lastComment"))
    else "Not set" in
  let head :=
    "Login: " +:+ Str.template (account !! "login") +:+ ", SteamID: "
    +:+ (if JS.truthy (account !! "steamID")
         then Str.template (account !! "steamID") else "Not set")
    +:+ ", Allowed to post comments: " in
  let yes := head +:+ "Yes" in
  let no := head +:+ "No (last comment: " +:+ lastComment +:+ ")" in
  match script with
  | src_index => if canPostComments account currentTime then yes else no
  | second_script =>
      if canPostComments account currentTime then logSuccess yes else logInfo no
  end.

(** [viewAccounts()]: what it prints, and the file as [loadAccounts]
    leaves it. *)
Definition viewAccounts (script : Script) (st : State) : list string * State :=
  let '(a, d) := loadAccounts (disk st) in
  let title :=
    match script with
    | src_index => "List of accounts:"
    | second_script => logInfo "List of accounts:"
    end in
  (title :: ((λ account, account_line script account (now st)) <$> a),
   set_store (accounts st) d st).

(** What is typed and what the clients emit during one turn of the menu
    loop: the choice, the answer to [Enter login:pass: ], the events of
    the accounts of a batch and the events of the account being added. *)
Record Turn : Type := {
  choice : string;
  credentials : string;
  batch_events : nat → list Event;
  add_events : list Event
}.

(** How [main] stands after the turns given. *)
Inductive Ending : Type :=
| exited                       (* [process.exit(0)] *)
| prompting                    (* at the prompt, waiting for a choice *)
| blocked                      (* awaiting a promise that never settles *)
| uncaught (message : string). (* left by an exception *)

Definition after (outcome : Outcome) (st : State) (next : State → Ending * State)
  : Ending * State :=
  match outcome with
  | returned => next st
  | waiting => (blocked, st)
  | crashed e => (uncaught e, st)
  end.

(** [while (true) { ... switch (choice) ... }] *)
Fixpoint main (script : Script) (turns : list Turn) (st : State) : Ending * State :=
  match turns with
  | [] => (prompting, st)
  | turn :: rest =>
      if String.eqb (choice turn) "1" then
        let '(outcome, st') :=
          startWork env (autoComment_of script) (batch_events turn) st in
        after outcome st' (main script rest)
      else if String.eqb (choice turn) "2" then
        let '(outcome, st') :=
          addAccount env script (credentials turn) (add_events turn) st in
        after outcome st' (main script rest)
      else if String.eqb (choice turn) "3" then
        main script rest (viewAccounts script st).2
      else if String.eqb (choice turn) "0" then (exited, st)
      else main script rest st
  end.

End Menu.

(** ** A concrete world, for running the scripts *)

Module Demo.

Definition noon : Z := 1704110400000.

Definition noon_iso : string := "2024-01-01T12:00:00.000Z".

Definition task (n : Z) : JVal :=
  JObj [("taskId", JNum n);
        ("targetSteamProfileId", JStr ("7656119800000" +:+ pretty n));
        ("requiredCommentText", JStr "+rep");
        ("requiredCommentId", JNum (100 + n))].

Definition listing : JVal :=
  JObj [("data", JArr [JObj [("steamId", JStr "76561198000000001"); ("id", JNum 41)]])].

(** Every comment is accepted; the clock stands still during calls. *)
Definition env : Env :=
  {| Date_parse := fun s => if String.eqb s noon_iso then Some noon else None;
     toISOString := fun t => if (t =? noon)%Z then noon_iso else pretty t;
     fetch_steamprofiles := fun _ => Ok listing;
     fetch_steamprofiles_add := fun _ _ => Ok JNull;
     fetch_tasks := fun _ _ => Ok (JArr [task 1; task 2]);
     fetch_tasks_complete := fun _ _ _ _ => Ok JNull;
     postUserComment := fun _ _ _ => Ok None;
     elapsed := fun _ => 0%Z |}.

(** The same world with the answers of [postUserComment] replaced. *)
Definition env_posting (answers : nat → Res (option string)) : Env :=
  {| Date_parse := Date_parse env;
     toISOString := toISOString env;
     fetch_steamprofiles := fetch_steamprofiles env;
     fetch_steamprofiles_add := fetch_steamprofiles_add env;
     fetch_tasks := fetch_tasks env;
     fetch_tasks_complete := fetch_tasks_complete env;
     postUserComment := fun n _ _ => answers n;
     elapsed := elapsed env |}.

(** The same world with the answer of the profile listing replaced. *)
Definition env_listing (answer : Res JVal) : Env :=
  {| Date_parse := Date_parse env;
     toISOString := toISOString env;
     fetch_steamprofiles := fun _ => answer;
     fetch_steamprofiles_add := fetch_steamprofiles_add env;
     fetch_tasks := fetch_tasks env;
     fetch_tasks_complete := fetch_tasks_complete env;
     postUserComment := postUserComment env;
     elapsed := elapsed env |}.

(** The same world with the answer of the task listing replaced. *)
Definition env_tasks (answer : Res JVal) : Env :=
  {| Date_parse := Date_parse env;
     toISOString := toISOString env;
     fetch_steamprofiles := fetch_steamprofiles env;
     fetch_steamprofiles_add := fetch_steamprofiles_add env;
     fetch_tasks := fun _ _ => answer;
     fetch_tasks_complete := fetch_tasks_complete env;
     postUserComment := postUserComment env;
     elapsed := elapsed env |}.


Definition alice : Account :=
  {[ "login" := JStr "alice"; "password" := JStr "hunter2";
     "steamID" := JStr "76561198000000001"; "commentCounter" := JNum 4 ]}.

Definition bob : Account :=
  {[ "login" := JStr "bob"; "refreshToken" := JStr "eyJ.old";
     "steamID" := JStr "76561198000000001"; "commentCounter" := JNum 0 ]}.

Definition start (stored : list Account) : State :=
  {| accounts := []; disk := Some stored; now := (noon + 1000)%Z; trace := [];
     calls := 0; successfulComments := 0 |}.

(** The state in which [processAccount] has loaded the file. *)
Definition loaded (stored : list Account) : State :=
  set_store stored (Some stored) (start stored).

(** [alice] with another value of the stored counter. *)
Definition alice' : Account := <[ "commentCounter" := JNum 9 ]> alice.

(** An account that commented a second before [start]. *)
Definition carol : Account :=
  {[ "login" := JStr "carol"; "refreshToken" := JStr "eyJ.carol";
     "steamID" := JStr "76561198000000003"; "commentCounter" := JNum 0;
     "lastComment" := JStr noon_iso ]}.

Definition both_messages : string :=
  "The settings on this account do not allow you to add comments. You've been posting too frequently".

Definition wrong_password : SteamError :=
  {| eresult := 5; message := "InvalidPassword" |}.

Definition steamID64 : string := "76561198000000001".

End Demo.

(** * Vocabulary of the statements *)

(** ** Pre- and postconditions *)

(** Run from a state in [P], [m] ends with a result and a state in [Q]. *)
Definition hoare {A} (P : State → Prop) (m : M A) (Q : Res A → State → Prop) : Prop :=
  ∀ st, P st → Q (m st).1 (m st).2.

(** An invariant that every outcome keeps. *)
Definition keeps {A} (I : State → Prop) (m : M A) : Prop := hoare I m (λ _, I).

(** [I] survives the emission of the effects [ok] admits, the passing of
    time and the answering of calls. *)
Record stable (I : State → Prop) (ok : Effect → bool) : Prop := {
  stable_emit : ∀ e st, ok e = true → I st → I (emit e st);
  stable_answered : ∀ env st, I st → I (answered env st);
  stable_advance : ∀ millis st, I st → I (advance millis st)
}.

Definition ignores_store (I : State → Prop) : Prop :=
  ∀ a d st, I st → I (set_store a d st).

Definition ignores_count (I : State → Prop) : Prop :=
  ∀ n st, I st → I (set_successfulComments n st).

(** The effects [autoComment] can have. *)
Definition dispatch_effect (e : Effect) : bool :=
  match e with
  | EGetSteamProfiles | EAddSteamProfile _ | EGetTasks _
  | EPostUserComment _ _ _ | ECompleteTask _ _ _ | ESleep _ => true
  | _ => false
  end.

(** How a cycle ends for an invariant [I] that the reset of the counter
    establishes from [I0]: nothing happened because the account is cooling
    down, or [I] holds. *)
Definition cycle_end (env : Env) (account : Account) (I0 I : State → Prop)
    (st : State) : Prop :=
  (I0 st ∧ coolingDown env account (now st) = true) ∨ I st.

(** ** The record of an account on disk *)

(** A login that [===] compares by value.  (An array or an object is
    [===] to itself only, which [JS.strict_eq] does not model: what is
    said below about the record found for a login is said for primitive
    logins, which is what [addAccount] stores.) *)
Definition primitive (v : option JVal) : bool :=
  match v with
  | Some (JArr _) | Some (JObj _) => false
  | _ => true
  end.

(** A field of the record that [getAccount] finds on disk for [login]. *)
Definition stored (st : State) (login : option JVal) (field : string) : option JVal :=
  match disk st with
  | Some records =>
      match getAccount records login with
      | Some (_, record) => record !! field
      | None => None
      end
  | None => None
  end.

(** The file holds the array of the running [processAccount] call. *)
Definition synced (st : State) : Prop := disk st = Some (accounts st).

(** The account is cooling down on disk from the current time on. *)
Definition cooled (env : Env) (login : option JVal) (st : State) : Prop :=
  synced st
  ∧ (primitive login = true →
     stored st login "commentCounter" = Some (JNum 0)
     ∧ stored st login "lastComment" = Some (stamp env st)).

(** The comment counter of the account is zero on disk. *)
Definition counter_reset (login : option JVal) (st : State) : Prop :=
  synced st
  ∧ (primitive login = true → stored st login "commentCounter" = Some (JNum 0)).

(** ** Errors of a post *)

(** The messages both callbacks answer by stopping the account: the
    comment-settings test comes first. *)
Definition rate_limited (msg : string) : bool :=
  negb (JS.includes msg settings_message) && JS.includes msg frequency_message.

(** The messages both callbacks let pass: the comment settings of the
    target, or a message they do not recognise. *)
Definition transient (msg : string) : bool :=
  JS.includes msg settings_message || negb (JS.includes msg frequency_message).

Definition is_post (e : Effect) : bool :=
  match e with
  | EPostUserComment _ _ _ => true
  | _ => false
  end.

(** A post that was answered by a rate-limit message. *)
Definition is_stop (e : Effect) : bool :=
  match e with
  | EPostUserComment _ _ (Ok (Some msg)) => rate_limited msg
  | _ => false
  end.

(** No rate-limit answer from position [base] of the trace on. *)
Definition clean (base : nat) (st : State) : Prop :=
  ∀ i e, base ≤ i → trace st !! i = Some e → is_stop e = false.

(** The trace ends with the first rate-limit answer since [base]. *)
Definition halted (base : nat) (st : State) : Prop :=
  ∃ tr e, trace st = tr ++ [e] ∧ is_stop e = true
          ∧ ∀ i e', base ≤ i → tr !! i = Some e' → is_stop e' = false.

(** How the loops of [src/index.js] end: a [return] is a rate-limit
    answer just received. *)
Definition src_stop (env : Env) (account : Account) (base : nat)
    (r : Res Ctl) (st : State) : Prop :=
  match r with
  | Ok Return => halted base st ∧ cooled env (account !! "login") st
  | _ => clean base st
  end.

(** How a cycle ends: without a rate-limit answer, or right after one
    with the account cooled. *)
Definition stop_end (env : Env) (account : Account) (base : nat) (st : State) : Prop :=
  clean base st ∨ (halted base st ∧ cooled env (account !! "login") st).

(** The state after a post that failed with [msg]. *)
Definition failed_post (env : Env) (userID text : option JVal) (msg : string)
    (st : State) : State :=
  answered env (emit (EPostUserComment userID text (Ok (Some msg))) st).

(** The state after [await sleep(millis)]. *)
Definition slept (millis : Z) (st : State) : State :=
  advance millis (emit (ESleep millis) st).

(** ** Posted comments, reports and the success count *)

(** A comment that was posted: the callback got no error. *)
Definition accepted (e : Effect) : bool :=
  match e with
  | EPostUserComment _ _ (Ok None) => true
  | _ => false
  end.

Definition is_report (e : Effect) : bool :=
  match e with
  | ECompleteTask _ _ _ => true
  | _ => false
  end.


Definition count (p : Effect → bool) (tr : list Effect) : nat :=
  length (filter (λ e, p e = true) tr).










(** ** The profile listing *)

(** The client's unwrapping followed by the second script's envelope
    detection. *)
Definition normalize (json : JVal) : Res (option (list JVal)) :=
  match api.unwrap_data json with
  | Ok response => RootIndex.extract response
  | Throw e => Throw e
  end.

(** ** Sessions and batches *)

(** What a [webSession] listener leaves alone. *)
Definition same_flags (s s' : Session) : Prop :=
  isLoggedOn s' = isLoggedOn s
  ∧ isTokenRefreshed s' = isTokenRefreshed s
  ∧ promise s' = promise s
  ∧ webSessionListeners s' = webSessionListeners s.

(** The invariant of the event loop of [processAccount]. *)
Definition session_inv (account : Account) (events : list Event) (s : Session) : Prop :=
  (isLoggedOn s = true → ∃ steamID64, loggedOn steamID64 ∈ events)
  ∧ (0 < webSessionListeners s → isLoggedOn s = true)
  ∧ (0 < disconnectedListeners s → isLoggedOn s = true)
  ∧ (promise s = Resolved → isLoggedOn s = true)
  ∧ (promise s = Resolved → (∃ t, refreshToken t ∈ events) ∨ disconnected ∈ events)
  ∧ (isTokenRefreshed s = true →
     JS.truthy (account !! "refreshToken") = true ∨ ∃ t, refreshToken t ∈ events)
  ∧ (JS.truthy (account !! "refreshToken") = true → isTokenRefreshed s = true).

(** The [logOn] calls of a trace, in order. *)
Definition logons (tr : list Effect) : list Account :=
  omap (λ e, match e with ELogOn options => Some options | _ => None end) tr.

(** The [logOn] calls made so far are [made]. *)
Definition logged (made : list Account) (st : State) : Prop :=
  logons (trace st) = made.

(** ** Two runs *)

(** Two records that differ at most in [commentCounter]. *)
Definition same_but_counter (a b : Account) : Prop :=
  delete "commentCounter" a = delete "commentCounter" b.

(** Two states that differ at most in the comment counters of the
    records, in memory and on disk. *)
Definition sim (st1 st2 : State) : Prop :=
  now st1 = now st2
  ∧ trace st1 = trace st2
  ∧ calls st1 = calls st2
  ∧ successfulComments st1 = successfulComments st2
  ∧ Forall2 same_but_counter (accounts st1) (accounts st2)
  ∧ option_Forall2 (Forall2 same_but_counter) (disk st1) (disk st2).

(** Two pieces of code that answer alike and keep [sim]. *)
Definition agree {A} (m1 m2 : M A) : Prop :=
  ∀ st1 st2, sim st1 st2 →
    (m1 st1).1 = (m2 st2).1 ∧ sim (m1 st1).2 (m2 st2).2.

(** ** The store as a keyed collection *)

(** No two records have logins that [===] finds equal. *)
Fixpoint unique_logins (accounts : list Account) : bool :=
  match accounts with
  | [] => true
  | a :: rest =>
      forallb (λ b, negb (JS.strict_eq (a !! "login") (b !! "login"))) rest
      && unique_logins rest
  end.

(** An update that does not give the record another login. *)
Definition keeps_login (login : option JVal) (updates : Account) : Prop :=
  updates !! "login" = None ∨ JS.strict_eq (updates !! "login") login = true.

(** The records of the file, as [loadAccounts] returns them. *)
Definition file (st : State) : list Account := (loadAccounts (disk st)).1.

(** ** The profile mapping *)

(** [p.k] of an element of the listing that is not [null]. *)
Definition field (p : JVal) (k : string) : option JVal :=
  match JS.getProp (Some p) k with
  | Ok v => v
  | Throw _ => None
  end.


(** ** Pacing of the posts *)

(** Reading a trace for its pacing, [hot] saying whether a comment was
    posted and no delay of five seconds or more has followed yet: [None]
    when a second comment is posted in that situation, and otherwise the
    situation in which the trace ends. *)
Fixpoint heat (hot : bool) (tr : list Effect) : option bool :=
  match tr with
  | [] => Some hot
  | EPostUserComment _ _ _ :: rest => if hot then None else heat true rest
  | ESleep millis :: rest => heat (hot && (millis <? 5000)%Z) rest
  | _ :: rest => heat hot rest
  end.

(** The cycle that started with the trace [tr0] is well paced so far. *)
Definition warm (tr0 : list Effect) (st : State) : Prop :=
  ∃ new, trace st = tr0 ++ new ∧ is_Some (heat false new).

(** ... and a comment may be posted now. *)
Definition cold (tr0 : list Effect) (st : State) : Prop :=
  ∃ new, trace st = tr0 ++ new ∧ heat false new = Some false.

(** ** What a cycle changes in the store *)

(** [b] is [a] up to the fields listed. *)
Definition same_but (fields : list string) (a b : Account) : Prop :=
  ∀ k, k ∉ fields → b !! k = a !! k.

(** [new] holds the records of [old] at their places, each of them up to
    the fields listed, and possibly more records after them. *)
Definition edited (fields : list string) (old new : list Account) : Prop :=
  length old ≤ length new
  ∧ ∀ i a, old !! i = Some a → ∃ b, new !! i = Some b ∧ same_but fields a b.

(** The same, with the records of other logins left as they are. *)
Definition edited_for (login : option JVal) (fields : list string)
    (old new : list Account) : Prop :=
  edited fields old new
  ∧ ∀ i a, old !! i = Some a →
      JS.strict_eq (a !! "login") login = false → new !! i = Some a.

(** The fields a cycle writes. *)
Definition cycle_fields : list string := ["commentCounter"; "lastComment"].

(** The fields a session writes. *)
Definition session_fields : list string :=
  ["refreshToken"; "commentCounter"; "lastComment"].

(** The invariant of a cycle on the store: the records loaded at [old],
    edited for the login of the account; the file holds the array; if
    [old] has a record for the login, nothing was appended. *)
Definition cycle_store (login : option JVal) (old : list Account) (st : State) : Prop :=
  edited_for login cycle_fields old (accounts st)
  ∧ synced st
  ∧ (is_Some (getAccount old login) →
     length (accounts st) = length old ∧ is_Some (getAccount (accounts st) login)).

(** ** When the cool-down starts *)

(** The counter of the account is reset on disk and its [lastComment] is
    still [before]. *)
Definition not_stamped (login : option JVal) (before : option JVal) (st : State) : Prop :=
  synced st
  ∧ (primitive login = true →
     stored st login "commentCounter" = Some (JNum 0)
     ∧ stored st login "lastComment" = before).

(** ** The two scripts side by side *)

(** No post is answered by an error that the callbacks let pass. *)
Definition no_transient_answer (env : Env) : Prop :=
  ∀ n userID text msg,
    postUserComment env n userID text = Ok (Some msg) → rate_limited msg = true.

(** What the client hands over for a profile listing is never an object
    in which the second script finds the list under [profiles] or
    [steamProfiles] (or under [data] beside it). *)
Definition plain_listing (env : Env) : Prop :=
  ∀ n json response items,
    fetch_steamprofiles env n = Ok json →
    api.unwrap_data json = Ok response →
    RootIndex.extract response = Ok (Some items) →
    response = JArr items.

(** Stamping [lastComment] now changes nothing: it has just been stamped. *)
Definition stamped_now (env : Env) (login : option JVal) (st : State) : Prop :=
  stamp_lastComment env login st = (Ok tt, st).

(** ** Sessions and the file *)

Definition is_logOff (e : Effect) : bool :=
  match e with
  | ELogOff => true
  | _ => false
  end.




(** The file holds the array of the running call, which satisfies [F]. *)
Definition holds (F : list Account → Prop) (st : State) : Prop :=
  synced st ∧ F (accounts st).

(** [F] survives every update whose fields are among [fields]. *)
Definition survives (fields : list string) (F : list Account → Prop) : Prop :=
  ∀ accounts login updates fs,
    (∀ k, is_Some (updates !! k) → k ∈ fields) →
    F accounts → F (updateAccount accounts login updates fs).1.

(** The accounts [startWork] may log on: those with a [steamID]. *)
Definition identified (account : Account) : bool := JS.truthy (account !! "steamID").

(** ** Adding an account *)

(** A text without colon. *)
Fixpoint plain (s : string) : bool :=
  match s with
  | EmptyString => true
  | String c rest => negb (Ascii.eqb c ":") && plain rest
  end.

(** The identity given by the last [loggedOn] event, and the token given
    by the last [refreshToken] event. *)
Definition last_login (events : list Event) : option string :=
  last (omap (λ ev, match ev with loggedOn steamID64 => Some steamID64 | _ => None end)
          events).

Definition last_token (events : list Event) : option string :=
  last (omap (λ ev, match ev with refreshToken newToken => Some newToken | _ => None end)
          events).

(** [new] is [old], possibly followed by one record, whose login is
    [username] and is new to [old]. *)
Definition grown_by (username : string) (old new : list Account) : Prop :=
  new = old
  ∨ ∃ record, new = old ++ [record]
              ∧ record !! "login" = Some (JStr username)
              ∧ getAccount old (Some (JStr username)) = None.

(** How the loops and the body of [src/index.js] leave the store: a
    [return] from the loop is the rate-limit path, which has stamped
    [lastComment]; an exception has not. *)
Definition src_left (env : Env) (login before : option JVal)
    (r : Res Ctl) (st : State) : Prop :=
  match r with
  | Ok Return => cooled env login st
  | _ => not_stamped login before st
  end.

Definition src_ended (env : Env) (login before : option JVal)
    (r : Res unit) (st : State) : Prop :=
  match r with
  | Ok _ => cooled env login st
  | Throw _ => not_stamped login before st
  end.

(** The state from which a cycle that is not skipped starts. *)
Definition due (login before : option JVal) (st : State) : Prop :=
  synced st ∧ before = stored st login "lastComment".

(** The same for the second script, whose loop is left by [break]. *)
Definition root_left (env : Env) (login before : option JVal)
    (r : Res unit) (st : State) : Prop :=
  match r with
  | Ok _ => not_stamped login before st ∨ cooled env login st
  | Throw _ => not_stamped login before st
  end.

(** The profile list has just been fetched. *)
Definition listed (login before : option JVal) (st : State) : Prop :=
  not_stamped login before st ∧ last (trace st) = Some EGetSteamProfiles.

Definition root_ended (env : Env) (login before : option JVal)
    (r : Res unit) (st : State) : Prop :=
  match r with
  | Ok _ => cooled env login st ∨ listed login before st
  | Throw _ => not_stamped login before st
  end.

(** The outcome of a post in the two scripts. *)
Definition same_post (env : Env) (login : option JVal)
    (r1 : Res SrcIndex.Result * State) (r2 : Res RootIndex.Result * State) : Prop :=
  r1.2 = r2.2
  ∧ match r1.1, r2.1 with
    | Ok SrcIndex.result_true, Ok RootIndex.result_true => True
    | Ok SrcIndex.result_false, Ok RootIndex.result_stop => stamped_now env login r1.2
    | Throw e, Throw e' => e = e'
    | _, _ => False
    end.

(** The outcome of the task loop in the two scripts. *)
Definition same_loop (env : Env) (login : option JVal)
    (r1 : Res Ctl * State) (r2 : Res unit * State) : Prop :=
  r1.2 = r2.2
  ∧ match r1.1, r2.1 with
    | Ok Next, Ok _ => True
    | Ok Return, Ok _ => stamped_now env login r1.2
    | Throw e, Throw e' => e = e'
    | _, _ => False
    end.

(** An update made by [addAccount]: it names no login, or [username]. *)
Definition by_name (username : string) (updates : Account) : Prop :=
  updates !! "login" = None ∨ updates !! "login" = Some (JStr username).

(** The variables and the store of [addAccount] after [events] without
    errors, for a login that is new to the records [a]. *)
Definition joined (username password : string) (a : list Account)
    (events : list Event) (ss : Adding * State) : Prop :=
  add_steamID ss.1 = last_login events
  ∧ add_refreshToken ss.1 = last_token events
  ∧ synced ss.2
  ∧ match last_login events, last_token events with
    | Some _, Some _ =>
        add_promise ss.1 = Resolved
        ∧ accounts ss.2 = a ++ [accountData username password ss.1]
    | _, _ => add_promise ss.1 = Pending ∧ accounts ss.2 = a
    end.

(** ** The token on disk *)


(** * Proofs *)

(** ** Rules for pre- and postconditions *)

Lemma hoare_conseq {A} (P P' : State → Prop) (m : M A) (Q Q' : Res A → State → Prop) :
  hoare P' m Q' → (∀ st, P st → P' st) → (∀ r st, Q' r st → Q r st) → hoare P m Q.
Proof. intros H HP HQ st Hst. apply HQ, H, HP, Hst. Qed.

Lemma hoare_ret {A} (P : State → Prop) (a : A) (Q : Res A → State → Prop) :
  (∀ st, P st → Q (Ok a) st) → hoare P (ret a) Q.
Proof. intros H st Hst. by apply H. Qed.

Lemma hoare_lift {A} (P : State → Prop) (r : Res A) (Q : Res A → State → Prop) :
  (∀ st, P st → Q r st) → hoare P (lift r) Q.
Proof. intros H st Hst. by apply H. Qed.

Lemma hoare_bind {A B} (P : State → Prop) (m : M A) (k : A → M B)
    (R : Res A → State → Prop) (Q : Res B → State → Prop) :
  hoare P m R →
  (∀ a, hoare (R (Ok a)) (k a) Q) →
  (∀ e st, R (Throw e) st → Q (Throw e) st) →
  hoare P (bind m k) Q.
Proof.
  intros Hm Hk He st Hst. unfold bind. specialize (Hm st Hst).
  destruct (m st) as [[a|e] st']; simpl in *; [by apply Hk | by apply He].
Qed.

Lemma hoare_try_catch {A} (P : State → Prop) (m : M A) (h : string → M A)
    (R : Res A → State → Prop) (Q : Res A → State → Prop) :
  hoare P m R →
  (∀ a st, R (Ok a) st → Q (Ok a) st) →
  (∀ e, hoare (R (Throw e)) (h e) Q) →
  hoare P (try_catch m h) Q.
Proof.
  intros Hm Hok Hh st Hst. unfold try_catch. specialize (Hm st Hst).
  destruct (m st) as [[a|e] st']; simpl in *; [by apply Hok | by apply Hh].
Qed.

Lemma keeps_bind {A B} (I : State → Prop) (m : M A) (k : A → M B) :
  keeps I m → (∀ a, keeps I (k a)) → keeps I (bind m k).
Proof. intros Hm Hk. eapply hoare_bind; [exact Hm | exact Hk | done]. Qed.

Lemma hoare_guard {A} (P : State → Prop) (c : State → bool) (m1 m2 : M A)
    (Q : Res A → State → Prop) :
  hoare (λ st, P st ∧ c st = true) m1 Q →
  hoare (λ st, P st ∧ c st = false) m2 Q →
  hoare P (λ st, if c st then m1 st else m2 st) Q.
Proof. intros H1 H2 st Hst. destruct (c st) eqn:E; [by apply H1 | by apply H2]. Qed.

Lemma keeps_ret {A} (I : State → Prop) (a : A) : keeps I (ret a).
Proof. by intros st H. Qed.

Lemma keeps_lift {A} (I : State → Prop) (r : Res A) : keeps I (lift r).
Proof. by intros st H. Qed.

Lemma keeps_throw {A} (I : State → Prop) e : keeps I (throw (A:=A) e).
Proof. by intros st H. Qed.

Lemma keeps_try_catch {A} (I : State → Prop) (m : M A) (h : string → M A) :
  keeps I m → (∀ e, keeps I (h e)) → keeps I (try_catch m h).
Proof. intros Hm Hh. eapply hoare_try_catch; [exact Hm | done | exact Hh]. Qed.

Section Stable.
Variable I : State → Prop.
Variable ok : Effect → bool.
Hypothesis HI : stable I ok.
Variable env : Env.

Lemma keeps_sleep millis : ok (ESleep millis) = true → keeps I (sleep millis).
Proof.
  intros He st H. apply (stable_advance I ok HI). by apply (stable_emit I ok HI).
Qed.

Lemma keeps_getSteamProfiles :
  ok EGetSteamProfiles = true → keeps I (api.getSteamProfiles env).
Proof.
  intros He st H. unfold api.getSteamProfiles.
  assert (I (answered env (emit EGetSteamProfiles st)))
    by (apply (stable_answered I ok HI); by apply (stable_emit I ok HI)).
  by destruct (fetch_steamprofiles env _).
Qed.

Lemma keeps_addSteamProfile steamId :
  ok (EAddSteamProfile steamId) = true → keeps I (api.addSteamProfile env steamId).
Proof.
  intros He st H. apply (stable_answered I ok HI). by apply (stable_emit I ok HI).
Qed.

Lemma keeps_getTasks profile :
  ok (EGetTasks profile) = true → keeps I (api.getTasks env profile).
Proof.
  intros He st H. apply (stable_answered I ok HI). by apply (stable_emit I ok HI).
Qed.

Lemma keeps_completeTask a b c :
  ok (ECompleteTask a b c) = true → keeps I (api.completeTask env a b c).
Proof.
  intros He st H. apply (stable_answered I ok HI). by apply (stable_emit I ok HI).
Qed.

Lemma keeps_updateAccount login updates :
  ignores_store I → keeps I (do_updateAccount login updates).
Proof. intros Hs st H. apply Hs, H. Qed.

Lemma keeps_stamp_lastComment login :
  ignores_store I → keeps I (stamp_lastComment env login).
Proof. intros Hs st H. apply Hs, H. Qed.

Lemma keeps_stop_account login :
  ignores_store I → keeps I (stop_account env login).
Proof. intros Hs st H. apply Hs, H. Qed.

Lemma keeps_src_forEach steamProfiles m : keeps I (SrcIndex.forEach steamProfiles m).
Proof. destruct steamProfiles; first [apply keeps_throw | apply keeps_lift]. Qed.
End Stable.

(** ** The accounts store *)

Lemma getAccount_Some (accounts : list Account) login i acc :
  getAccount accounts login = Some (i, acc) →
  accounts !! i = Some acc
  ∧ JS.strict_eq (acc !! "login") login = true
  ∧ ∀ j a, j < i → accounts !! j = Some a → JS.strict_eq (a !! "login") login = false.
Proof.
  revert i. induction accounts as [|a0 rest IH]; intros i H; simpl in H; [done|].
  destruct (JS.strict_eq (a0 !! "login") login) eqn:E.
  - injection H as <- <-. repeat split; [done|]. intros j a Hj. lia.
  - destruct (getAccount rest login) as [[i' found]|] eqn:G; [|done].
    injection H as <- <-. destruct (IH i' eq_refl) as (H1 & H2 & H3).
    repeat split; [done..|]. intros [|j] a Hj Ha; simpl in Ha.
    + by injection Ha as <-.
    + apply (H3 j); [lia|done].
Qed.

Lemma getAccount_None (accounts : list Account) login :
  getAccount accounts login = None →
  ∀ a, a ∈ accounts → JS.strict_eq (a !! "login") login = false.
Proof.
  induction accounts as [|a0 rest IH]; intros H a Ha; [by apply elem_of_nil in Ha|].
  simpl in H. destruct (JS.strict_eq (a0 !! "login") login) eqn:E; [done|].
  destruct (getAccount rest login) as [[i' found]|] eqn:G; [done|].
  apply elem_of_cons in Ha as [->|Ha]; [done|]. by apply IH.
Qed.

Lemma newRecord_named login (updates : Account) k :
  is_Some (updates !! k) → newRecord login updates !! k = updates !! k.
Proof. intros H. unfold newRecord. by apply lookup_union_l'. Qed.

Lemma newRecord_login login (updates : Account) :
  updates !! "login" = None → newRecord login updates !! "login" = login.
Proof.
  intros H. unfold newRecord. rewrite lookup_union_r; [|done].
  destruct login; [apply lookup_singleton_eq | apply lookup_empty].
Qed.

Lemma newRecord_other login (updates : Account) k :
  updates !! k = None → k ≠ "login" → newRecord login updates !! k = None.
Proof.
  intros H Hk. unfold newRecord. rewrite lookup_union_r; [|done].
  destruct login; [by apply lookup_singleton_ne | apply lookup_empty].
Qed.

(** C9, as amended.  [updateAccount] is an upsert: the file holds exactly
    the array as it is after the call; when no record has the login, one
    record is appended, which has every given field, has the login unless
    the given fields name a [login] of their own, and has nothing else;
    when a record has the login, the first such record gets the given
    fields and keeps every field they do not name, and every other record
    is untouched. *)
Theorem updateAccount_upsert (accounts : list Account) login (updates : Account) (fs : Disk) :
  let '(accounts', fs') := updateAccount accounts login updates fs in
  fs' = Some accounts'
  ∧ match getAccount accounts login with
    | None =>
        ∃ record,
          accounts' = accounts ++ [record]
          ∧ (∀ k, is_Some (updates !! k) → record !! k = updates !! k)
          ∧ (updates !! "login" = None → record !! "login" = login)
          ∧ (∀ k, updates !! k = None → k ≠ "login" → record !! k = None)
    | Some (i, account) =>
        accounts !! i = Some account
        ∧ length accounts' = length accounts
        ∧ (∀ j, j ≠ i → accounts' !! j = accounts !! j)
        ∧ ∃ record,
            accounts' !! i = Some record
            ∧ (∀ k, is_Some (updates !! k) → record !! k = updates !! k)
            ∧ (∀ k, updates !! k = None → record !! k = account !! k)
    end.
Proof.
  unfold updateAccount, saveAccounts.
  destruct (getAccount accounts login) as [[i account]|] eqn:G.
  - split; [done|]. apply getAccount_Some in G as (Hi & _ & _).
    split; [done|]. split; [apply length_insert|].
    split; [intros j Hj; by apply list_lookup_insert_ne|].
    exists (updates ∪ account). split.
    + apply list_lookup_insert_eq. by eapply lookup_lt_Some.
    + split; intros k Hk; [by apply lookup_union_l' | by apply lookup_union_r].
  - split; [done|]. exists (newRecord login updates).
    split; [done|]. split; [apply newRecord_named|].
    split; [apply newRecord_login | apply newRecord_other].
Qed.

(** C9 as stated fails: an update that names [login] decides the login of
    the appended record, not the [login] argument. *)
Lemma updateAccount_login_overridden :
  getAccount [] (Some (JStr "alice")) = None
  ∧ ∃ record,
      fst (updateAccount [] (Some (JStr "alice")) {[ "login" := JStr "bob" ]} None) = [record]
      ∧ record !! "login" ≠ Some (JStr "alice").
Proof.
  split; [reflexivity|]. eexists. split; [reflexivity|]. vm_compute. discriminate.
Qed.

Lemma strict_eq_refl v : primitive v = true → JS.strict_eq v v = true.
Proof.
  destruct v as [[| b | z | s | |]|]; simpl; try done; intros _.
  - by destruct b.
  - apply Z.eqb_refl.
  - apply String.eqb_refl.
Qed.

Lemma getAccount_insert (accounts : list Account) login i acc (record : Account) :
  getAccount accounts login = Some (i, acc) →
  record !! "login" = acc !! "login" →
  getAccount (<[ i := record ]> accounts) login = Some (i, record).
Proof.
  revert i. induction accounts as [|a0 rest IH]; intros i H Hl; simpl in H; [done|].
  destruct (JS.strict_eq (a0 !! "login") login) eqn:E.
  - injection H as <- <-. simpl. by rewrite Hl, E.
  - destruct (getAccount rest login) as [[i' found]|] eqn:G; [|done].
    injection H as <- <-. simpl. rewrite E. by rewrite (IH i' eq_refl Hl).
Qed.

Lemma getAccount_app (accounts : list Account) login (record : Account) :
  getAccount accounts login = None →
  JS.strict_eq (record !! "login") login = true →
  getAccount (accounts ++ [record]) login = Some (length accounts, record).
Proof.
  induction accounts as [|a0 rest IH]; intros H Hl; simpl.
  - by rewrite Hl.
  - simpl in H. destruct (JS.strict_eq (a0 !! "login") login) eqn:E; [done|].
    destruct (getAccount rest login) as [[i' found]|] eqn:G; [done|].
    by rewrite (IH eq_refl Hl).
Qed.

(** What an update that does not name [login] leaves on disk. *)
Lemma do_updateAccount_stored login (updates : Account) st :
  updates !! "login" = None →
  let st' := (do_updateAccount login updates st).2 in
  synced st'
  ∧ (primitive login = true →
     (∀ k v, updates !! k = Some v → stored st' login k = Some v)
     ∧ (synced st → ∀ k, updates !! k = None → k ≠ "login" →
        stored st' login k = stored st login k)).
Proof.
  intros Hu. unfold do_updateAccount, updateAccount, saveAccounts, synced, stored. simpl.
  split; [done|]. intros Hp.
  destruct (getAccount (accounts st) login) as [[i acc]|] eqn:G.
  - rewrite (getAccount_insert _ _ _ _ (updates ∪ acc) G) by (by apply lookup_union_r).
    split.
    + intros k v Hk. by apply lookup_union_Some_l.
    + intros -> k Hk _. rewrite G. by apply lookup_union_r.
  - rewrite (getAccount_app _ _ (newRecord login updates) G).
    2:{ rewrite newRecord_login by done. by apply strict_eq_refl. }
    split.
    + intros k v Hk. rewrite newRecord_named by (by eexists). done.
    + intros -> k Hk Hne. rewrite G. by apply newRecord_other.
Qed.

(** ** A rate-limit answer ends the cycle *)

Section Rate_limit.
Variable env : Env.
Variable account : Account.
Variable base : nat.

Lemma clean_emit e st : clean base st → is_stop e = false → clean base (emit e st).
Proof.
  intros Hc He i e' Hi. simpl. intros [H|[_ H]]%lookup_app_Some; [by eapply Hc|].
  apply list_lookup_singleton_Some in H as [_ <-]. done.
Qed.

Lemma halted_emit e st : clean base st → is_stop e = true → halted base (emit e st).
Proof. intros Hc He. exists (trace st), e. split; [done|]. split; [done|]. exact Hc. Qed.

Lemma clean_same_trace st st' : trace st' = trace st → clean base st → clean base st'.
Proof. unfold clean. by intros ->. Qed.

Lemma halted_same_trace st st' : trace st' = trace st → halted base st → halted base st'.
Proof. unfold halted. by intros ->. Qed.

Lemma stop_account_cooled login st :
  cooled env login (stop_account env login st).2.
Proof.
  unfold stop_account, cooled.
  destruct (do_updateAccount_stored login (cooldown_update env st) st) as [Hs Hp].
  { unfold cooldown_update. by simplify_map_eq. }
  split; [done|]. intros Hl. destruct (Hp Hl) as [Hn _]. split.
  - apply Hn. unfold cooldown_update. by simplify_map_eq.
  - apply Hn. unfold cooldown_update. by simplify_map_eq.
Qed.

Lemma stamp_lastComment_cooled login st :
  cooled env login st → cooled env login (stamp_lastComment env login st).2.
Proof.
  intros [Hs Hc]. unfold stamp_lastComment, cooled.
  destruct (do_updateAccount_stored login {[ "lastComment" := stamp env st ]} st) as [Hs' Hp].
  { by simplify_map_eq. }
  split; [done|]. intros Hl. destruct (Hp Hl) as [Hn Ho]. destruct (Hc Hl) as [Hcc _]. split.
  - rewrite Ho; [done..| by simplify_map_eq | done].
  - apply Hn. by simplify_map_eq.
Qed.

(** [src/index.js] *)

Lemma src_post_stop task :
  hoare (clean base) (SrcIndex.post env account task)
    (λ r st, match r with
             | Ok SrcIndex.result_false => halted base st ∧ cooled env (account !! "login") st
             | _ => clean base st
             end).
Proof.
  intros st Hc. unfold SrcIndex.post, bind, lift, do_postUserComment.
  destruct (JS.getProp (Some task) "targetSteamProfileId") as [u|?]; [|done].
  destruct (JS.getProp (Some task) "requiredCommentText") as [t|?]; [|done].
  destruct (postUserComment env (calls st) u t) as [[msg|]|e] eqn:Ho.
  - destruct (JS.includes msg settings_message) eqn:Hs.
    { apply (clean_emit (EPostUserComment u t (Ok (Some msg))) st Hc).
      simpl. unfold rate_limited. by rewrite Hs. }
    destruct (JS.includes msg frequency_message) eqn:Hf.
    + split.
      * apply (halted_emit (EPostUserComment u t (Ok (Some msg))) st Hc).
        simpl. unfold rate_limited. by rewrite Hs, Hf.
      * apply stop_account_cooled.
    + apply (clean_emit (EPostUserComment u t (Ok (Some msg))) st Hc).
      simpl. unfold rate_limited. by rewrite Hs, Hf.
  - by apply (clean_emit (EPostUserComment u t (Ok None)) st Hc).
  - by apply (clean_emit (EPostUserComment u t (Throw e)) st Hc).
Qed.

Lemma stable_clean : stable (clean base) (λ e, negb (is_stop e)).
Proof.
  split.
  - intros e st He. intros Hc. apply clean_emit; [done|]. by destruct (is_stop e).
  - intros env' st. by apply clean_same_trace.
  - intros ms st. by apply clean_same_trace.
Qed.

Lemma clean_ignores_store : ignores_store (clean base).
Proof. intros a d st. by apply clean_same_trace. Qed.

Lemma clean_ignores_count : ignores_count (clean base).
Proof. intros n st. by apply clean_same_trace. Qed.

Lemma src_complete_clean task profile :
  keeps (clean base) (SrcIndex.complete env task profile).
Proof.
  unfold SrcIndex.complete.
  apply keeps_bind; [apply keeps_lift|intros taskId].
  apply keeps_bind; [apply keeps_lift|intros commentId].
  apply keeps_bind; [by apply (keeps_completeTask _ _ stable_clean)|intros ?].
  intros st. apply clean_ignores_count.
Qed.

Lemma src_attempts_stop profile task remaining :
  hoare (clean base) (SrcIndex.attempts env account profile task remaining)
    (src_stop env account base).
Proof.
  induction remaining as [|n IH]; cbn [SrcIndex.attempts].
  - by apply hoare_ret.
  - eapply hoare_bind; [apply src_post_stop| |done].
    intros [| |].
    + eapply hoare_bind; [apply src_complete_clean| |done].
      intros ?. by apply hoare_ret.
    + by apply hoare_ret.
    + eapply hoare_bind; [by apply (keeps_sleep _ _ stable_clean)| |done].
      intros ?. apply IH.
Qed.

Lemma src_forTasks_stop profile tasks :
  hoare (clean base) (SrcIndex.forTasks env account profile tasks)
    (src_stop env account base).
Proof.
  induction tasks as [|task rest IH]; cbn [SrcIndex.forTasks].
  - by apply hoare_ret.
  - apply (hoare_guard _ (λ st, (maxComments <=? successfulComments st)%nat) (ret Next)).
    + apply hoare_ret. by intros st [H _].
    + eapply hoare_conseq with (P' := clean base) (Q' := src_stop env account base);
        [|by intros st [H _]|done].
      eapply hoare_bind; [apply src_attempts_stop| |done].
      intros [|].
      * eapply hoare_bind; [by apply (keeps_sleep _ _ stable_clean)| |done].
        intros ?. apply IH.
      * by apply hoare_ret.
Qed.

Let stop_end := stop_end env account base.

Lemma src_body_stop steamID :
  hoare (clean base) (SrcIndex.body env steamID account) (λ _, stop_end).
Proof.
  unfold SrcIndex.body.
  apply (hoare_guard _ (λ st, coolingDown env account (now st)) (ret tt)).
  { apply hoare_ret. intros st [H _]. by left. }
  eapply hoare_conseq with (P' := clean base) (Q' := λ _, stop_end);
    [|by intros st [H _]|done].
  assert (Hleft : ∀ (e : string) st, clean base st → stop_end st) by (intros; by left).
  eapply hoare_bind; [apply keeps_updateAccount, clean_ignores_store| |exact Hleft].
  intros ?.
  eapply hoare_bind; [by apply (keeps_getSteamProfiles _ _ stable_clean)| |exact Hleft].
  intros steamProfiles.
  eapply hoare_bind; [apply keeps_src_forEach| |exact Hleft].
  intros m.
  eapply hoare_bind with (R := λ _, clean base); [| |exact Hleft].
  { destruct (registered m steamID); [apply keeps_ret|].
    apply keeps_bind; [by apply (keeps_addSteamProfile _ _ stable_clean)|intros ?].
    apply keeps_bind; [by apply (keeps_getSteamProfiles _ _ stable_clean)|intros ?].
    apply keeps_src_forEach. }
  intros m'.
  eapply hoare_bind; [by apply (keeps_getTasks _ _ stable_clean)| |exact Hleft].
  intros tasks.
  eapply hoare_bind with (R := λ _, clean base); [| |exact Hleft].
  { intros st. apply clean_ignores_count. }
  intros ?.
  eapply hoare_bind; [apply keeps_lift| |exact Hleft].
  intros items.
  eapply hoare_bind; [apply src_forTasks_stop| |exact Hleft].
  intros [|].
  - eapply hoare_conseq; [apply keeps_stamp_lastComment, clean_ignores_store| |].
    + done.
    + intros r st H. by left.
  - apply hoare_ret. intros st H. by right.
Qed.

(** The second script *)

Lemma root_post_stop task :
  hoare (clean base) (RootIndex.post env account task)
    (λ r st, match r with
             | Ok RootIndex.result_stop => halted base st ∧ cooled env (account !! "login") st
             | _ => clean base st
             end).
Proof.
  intros st Hc. unfold RootIndex.post, bind, lift, do_postUserComment.
  destruct (JS.getProp (Some task) "targetSteamProfileId") as [u|?]; [|done].
  destruct (JS.getProp (Some task) "requiredCommentText") as [t|?]; [|done].
  destruct (postUserComment env (calls st) u t) as [[msg|]|e] eqn:Ho.
  - destruct (JS.includes msg settings_message) eqn:Hs.
    { apply (clean_emit (EPostUserComment u t (Ok (Some msg))) st Hc).
      simpl. unfold rate_limited. by rewrite Hs. }
    destruct (JS.includes msg frequency_message) eqn:Hf.
    + split.
      * apply (halted_emit (EPostUserComment u t (Ok (Some msg))) st Hc).
        simpl. unfold rate_limited. by rewrite Hs, Hf.
      * apply stop_account_cooled.
    + apply (clean_emit (EPostUserComment u t (Ok (Some msg))) st Hc).
      simpl. unfold rate_limited. by rewrite Hs, Hf.
  - by apply (clean_emit (EPostUserComment u t (Ok None)) st Hc).
  - by apply (clean_emit (EPostUserComment u t (Throw e)) st Hc).
Qed.

Lemma root_complete_clean task profile :
  keeps (clean base) (RootIndex.complete env task profile).
Proof.
  unfold RootIndex.complete.
  apply keeps_bind; [apply keeps_lift|intros taskId].
  apply keeps_bind; [apply keeps_lift|intros commentId].
  apply keeps_bind; [by apply (keeps_completeTask _ _ stable_clean)|intros ?].
  intros st. apply clean_ignores_count.
Qed.

Lemma root_forTasks_stop profile tasks :
  hoare (clean base) (RootIndex.forTasks env account profile tasks) (λ _, stop_end).
Proof.
  assert (Hleft : ∀ (e : string) st, clean base st → stop_end st) by (intros; by left).
  induction tasks as [|task rest IH]; cbn [RootIndex.forTasks].
  - apply hoare_ret. intros st H. by left.
  - apply (hoare_guard _ (λ st, (maxComments <=? successfulComments st)%nat) (ret tt)).
    + apply hoare_ret. intros st [H _]. by left.
    + eapply hoare_conseq with (P' := clean base) (Q' := λ _, stop_end);
        [|by intros st [H _]|done].
      eapply hoare_bind; [apply root_post_stop| |exact Hleft].
      intros [| |].
      * eapply hoare_bind; [apply root_complete_clean| |exact Hleft]. intros ?.
        eapply hoare_bind; [by apply (keeps_sleep _ _ stable_clean)| |exact Hleft].
        intros ?. apply IH.
      * eapply hoare_bind; [by apply (keeps_sleep _ _ stable_clean)| |exact Hleft].
        intros ?. apply IH.
      * apply hoare_ret. intros st H. by right.
Qed.

Lemma stamp_lastComment_stop_end :
  keeps stop_end (stamp_lastComment env (account !! "login")).
Proof.
  intros st [H|[H1 H2]].
  - left. by apply clean_ignores_store.
  - right. split; [by eapply halted_same_trace|]. by apply stamp_lastComment_cooled.
Qed.

Lemma root_dispatch_stop steamID m :
  hoare (clean base) (RootIndex.dispatch env steamID account m) (λ _, stop_end).
Proof.
  assert (Hleft : ∀ (e : string) st, clean base st → stop_end st) by (intros; by left).
  unfold RootIndex.dispatch.
  eapply hoare_bind; [by apply (keeps_getTasks _ _ stable_clean)| |exact Hleft].
  intros tasks.
  eapply hoare_bind with (R := λ _, clean base); [| |exact Hleft].
  { intros st. apply clean_ignores_count. }
  intros ?.
  eapply hoare_bind; [apply keeps_lift| |exact Hleft].
  intros items.
  eapply hoare_bind; [apply root_forTasks_stop| |done].
  intros ?. apply stamp_lastComment_stop_end.
Qed.

Lemma root_body_stop steamID :
  hoare (clean base) (RootIndex.body env steamID account) (λ _, stop_end).
Proof.
  assert (Hleft : ∀ (e : string) st, clean base st → stop_end st) by (intros; by left).
  unfold RootIndex.body.
  apply (hoare_guard _ (λ st, coolingDown env account (now st)) (ret tt)).
  { apply hoare_ret. intros st [H _]. by left. }
  eapply hoare_conseq with (P' := clean base) (Q' := λ _, stop_end);
    [|by intros st [H _]|done].
  eapply hoare_bind; [apply keeps_updateAccount, clean_ignores_store| |exact Hleft].
  intros ?.
  eapply hoare_bind; [by apply (keeps_getSteamProfiles _ _ stable_clean)| |exact Hleft].
  intros response.
  eapply hoare_bind; [apply keeps_lift| |exact Hleft].
  intros [items|]; [|apply hoare_ret; intros st H; by left].
  eapply hoare_bind; [apply keeps_lift| |exact Hleft].
  intros m.
  destruct (registered m steamID); [apply root_dispatch_stop|].
  eapply hoare_bind; [by apply (keeps_addSteamProfile _ _ stable_clean)| |exact Hleft].
  intros ?.
  eapply hoare_bind; [by apply (keeps_getSteamProfiles _ _ stable_clean)| |exact Hleft].
  intros response'.
  eapply hoare_bind; [apply keeps_lift| |exact Hleft].
  intros [items'|]; [|apply hoare_ret; intros st H; by left].
  eapply hoare_bind; [apply keeps_lift| |exact Hleft].
  intros m'. apply root_dispatch_stop.
Qed.

Lemma autoComment_stop dispatcher steamID :
  dispatcher = SrcIndex.autoComment ∨ dispatcher = RootIndex.autoComment →
  hoare (clean base) (dispatcher env steamID account) (λ _, stop_end).
Proof.
  intros [-> | ->].
  - eapply hoare_try_catch; [apply src_body_stop|done|].
    intros e. by apply hoare_ret.
  - eapply hoare_try_catch; [apply root_body_stop|done|].
    intros e. by apply hoare_ret.
Qed.
End Rate_limit.

(** C3, as amended.  In both scripts, when a post of the cycle fails with
    a message that contains the posting-frequency text and not the
    comment-settings text (which the callback tests first), that post is
    the last thing the cycle does: no further task is attempted; and the
    record of the account on disk has [commentCounter] 0 and
    [lastComment] set to the time at which the cycle ends. *)
Theorem rate_limit_ends_cycle env dispatcher steamID account st pre userID text msg post :
  dispatcher = SrcIndex.autoComment ∨ dispatcher = RootIndex.autoComment →
  JS.includes msg frequency_message = true →
  JS.includes msg settings_message = false →
  let st' := (dispatcher env steamID account st).2 in
  trace st' = trace st ++ pre ++ EPostUserComment userID text (Ok (Some msg)) :: post →
  post = []
  ∧ (primitive (account !! "login") = true →
     stored st' (account !! "login") "commentCounter" = Some (JNum 0)
     ∧ stored st' (account !! "login") "lastComment" = Some (stamp env st')).
Proof.
  intros Hd Hf Hs st' Ht.
  assert (Hc : clean (length (trace st)) st).
  { intros i e Hi He. apply lookup_lt_Some in He. lia. }
  pose proof (autoComment_stop env account _ dispatcher steamID Hd st Hc) as He.
  fold st' in He. simpl in He.
  assert (Hat : trace st' !! (length (trace st) + length pre)
                = Some (EPostUserComment userID text (Ok (Some msg)))).
  { rewrite Ht, lookup_app_r by lia. rewrite lookup_app_r by lia.
    by replace (length (trace st) + length pre - length (trace st) - length pre) with 0 by lia. }
  assert (Hstop : is_stop (EPostUserComment userID text (Ok (Some msg))) = true).
  { simpl. unfold rate_limited. by rewrite Hs, Hf. }
  destruct He as [He | [(tr & e & Htr & _ & Hbefore) [_ Hcool]]].
  - specialize (He _ _ (Nat.le_add_r _ _) Hat). congruence.
  - split; [|exact Hcool].
    destruct (decide (length (trace st) + length pre < length tr)) as [Hlt|Hge].
    + rewrite Htr, lookup_app_l in Hat by done.
      specialize (Hbefore _ _ (Nat.le_add_r _ _) Hat). congruence.
    + apply (f_equal length) in Ht. rewrite Htr in Ht.
      rewrite !length_app in Ht. simpl in Ht.
      apply nil_length_inv. lia.
Qed.

(** ** Posted comments, reports and the success count *)









Section Success_count.
Variable env : Env.
Variable account : Account.
Variable profile : option JVal.
Variable tr0 : list Effect.
Variable sc0 : nat.










End Success_count.

Section Cycle_count.
Variable env : Env.
Variable account : Account.
Variable tr0 : list Effect.






End Cycle_count.


(** ** Retries *)

Lemma src_post_transient env account task userID text msg st :
  JS.getProp (Some task) "targetSteamProfileId" = Ok userID →
  JS.getProp (Some task) "requiredCommentText" = Ok text →
  postUserComment env (calls st) userID text = Ok (Some msg) →
  transient msg = true →
  SrcIndex.post env account task st
  = (Ok SrcIndex.result_null, failed_post env userID text msg st).
Proof.
  intros Hu Ht Hp Hm. unfold SrcIndex.post, bind, lift, do_postUserComment, failed_post.
  rewrite Hu, Ht, Hp. unfold transient in Hm.
  destruct (JS.includes msg settings_message); [done|].
  by destruct (JS.includes msg frequency_message).
Qed.

Lemma src_attempts_retry env account profile task userID text msg remaining st :
  JS.getProp (Some task) "targetSteamProfileId" = Ok userID →
  JS.getProp (Some task) "requiredCommentText" = Ok text →
  postUserComment env (calls st) userID text = Ok (Some msg) →
  transient msg = true →
  SrcIndex.attempts env account profile task (S remaining) st
  = SrcIndex.attempts env account profile task remaining
      (slept 5000 (failed_post env userID text msg st)).
Proof.
  intros Hu Ht Hp Hm. cbn [SrcIndex.attempts]. unfold bind at 1.
  by rewrite (src_post_transient _ _ _ _ _ _ _ Hu Ht Hp Hm).
Qed.

Lemma root_post_transient env account task userID text msg st :
  JS.getProp (Some task) "targetSteamProfileId" = Ok userID →
  JS.getProp (Some task) "requiredCommentText" = Ok text →
  postUserComment env (calls st) userID text = Ok (Some msg) →
  transient msg = true →
  RootIndex.post env account task st
  = (Ok RootIndex.result_false, failed_post env userID text msg st).
Proof.
  intros Hu Ht Hp Hm. unfold RootIndex.post, bind, lift, do_postUserComment, failed_post.
  rewrite Hu, Ht, Hp. unfold transient in Hm.
  destruct (JS.includes msg settings_message); [done|].
  by destruct (JS.includes msg frequency_message).
Qed.

(** C4, as amended.  In [src/index.js] a post that fails with a passing
    error (comment settings, or an unrecognised message) is tried again
    after [sleep(5000)], and after three such failures the task is given
    up with three posts, no completion report and the success count
    unchanged, and the loop moves on after [sleep(15000)].  In the second
    script there is no retry: after one such failure the loop moves on to
    the next task after [sleep(15000)]. *)
Theorem transient_failures_retry_policy env account profile task rest userID text m1 m2 m3 st :
  JS.getProp (Some task) "targetSteamProfileId" = Ok userID →
  JS.getProp (Some task) "requiredCommentText" = Ok text →
  (successfulComments st < maxComments)%nat →
  let st1 := slept 5000 (failed_post env userID text m1 st) in
  let st2 := slept 5000 (failed_post env userID text m2 st1) in
  let st3 := slept 5000 (failed_post env userID text m3 st2) in
  postUserComment env (calls st) userID text = Ok (Some m1) → transient m1 = true →
  (* [src/index.js]: a retry after 5 s, whatever the second answer is *)
  (∀ remaining,
     SrcIndex.attempts env account profile task (S remaining) st
     = SrcIndex.attempts env account profile task remaining st1)
  (* [src/index.js]: three failures in a row, and the task is given up *)
  ∧ (postUserComment env (calls st1) userID text = Ok (Some m2) → transient m2 = true →
     postUserComment env (calls st2) userID text = Ok (Some m3) → transient m3 = true →
     SrcIndex.attempts env account profile task SrcIndex.maxAttempts st = (Ok Next, st3)
     ∧ trace st3 = trace st ++ [EPostUserComment userID text (Ok (Some m1)); ESleep 5000;
                                EPostUserComment userID text (Ok (Some m2)); ESleep 5000;
                                EPostUserComment userID text (Ok (Some m3)); ESleep 5000]
     ∧ successfulComments st3 = successfulComments st
     ∧ SrcIndex.forTasks env account profile (task :: rest) st
       = SrcIndex.forTasks env account profile rest (slept 15000 st3))
  (* the second script: one attempt, then the next task *)
  ∧ RootIndex.forTasks env account profile (task :: rest) st
    = RootIndex.forTasks env account profile rest
        (slept 15000 (failed_post env userID text m1 st)).
Proof.
  intros Hu Ht Hsc st1 st2 st3 H1 T1.
  assert (Hcap : (maxComments <=? successfulComments st)%nat = false)
    by (apply Nat.leb_gt; lia).
  split; [|split].
  - intros remaining. by apply src_attempts_retry.
  - intros H2 T2 H3 T3.
    assert (Ha : SrcIndex.attempts env account profile task SrcIndex.maxAttempts st
                 = (Ok Next, st3)).
    { unfold SrcIndex.maxAttempts.
      rewrite (src_attempts_retry _ _ _ _ _ _ _ _ _ Hu Ht H1 T1). fold st1.
      rewrite (src_attempts_retry _ _ _ _ _ _ _ _ _ Hu Ht H2 T2). fold st2.
      rewrite (src_attempts_retry _ _ _ _ _ _ _ _ _ Hu Ht H3 T3). done. }
    split; [done|]. split; [|split; [done|]].
    + subst st3 st2 st1. unfold slept, failed_post. simpl. by rewrite <- !app_assoc.
    + cbn [SrcIndex.forTasks]. rewrite Hcap. unfold bind at 1. by rewrite Ha.
  - cbn [RootIndex.forTasks]. rewrite Hcap. unfold bind at 1.
    by rewrite (root_post_transient _ _ _ _ _ _ _ Hu Ht H1 T1).
Qed.

(** ** The cool-down guard *)

Lemma coolingDown_true env (account : Account) lastCommentTime currentTime :
  JS.truthy (account !! "lastComment") = true →
  Date_getTime env (account !! "lastComment") = Some lastCommentTime →
  (currentTime - lastCommentTime < twentyFourHours)%Z →
  coolingDown env account currentTime = true.
Proof.
  intros H1 H2 H3. unfold coolingDown. rewrite H1, H2. simpl. by apply Z.ltb_lt.
Qed.

(** C6.  For an account whose [lastComment] is set and less than 24 hours
    before the current time, [autoComment] (of either script) returns at
    once and leaves the state as it is (no call, no post, no write), and
    [startWork] steps over the account without calling [processAccount]. *)
Theorem cooling_account_is_left_alone env steamID (account : Account) lastCommentTime st :
  JS.truthy (account !! "lastComment") = true →
  Date_getTime env (account !! "lastComment") = Some lastCommentTime →
  (now st - lastCommentTime < twentyFourHours)%Z →
  SrcIndex.autoComment env steamID account st = (Ok tt, st)
  ∧ RootIndex.autoComment env steamID account st = (Ok tt, st)
  ∧ ∀ dispatcher events i rest,
      forAccounts env dispatcher events i (account :: rest) st
      = forAccounts env dispatcher events (S i) rest st.
Proof.
  intros H1 H2 H3. pose proof (coolingDown_true env account _ _ H1 H2 H3) as Hc.
  split; [|split].
  - unfold SrcIndex.autoComment, try_catch, SrcIndex.body. by rewrite Hc.
  - unfold RootIndex.autoComment, try_catch, RootIndex.body. by rewrite Hc.
  - intros dispatcher events i rest. cbn [forAccounts]. rewrite Hc.
    by destruct (negb (JS.truthy (account !! "steamID"))).
Qed.

(** ** The shape of the profile listing *)

Lemma extract_array items : RootIndex.extract (JArr items) = Ok (Some items).
Proof. done. Qed.

Lemma unwrap_data_object fields :
  api.unwrap_data (JObj fields)
  = Ok match JS.assoc "data" fields with
       | Some (JArr items) => JArr items
       | _ => JObj fields
       end.
Proof.
  unfold api.unwrap_data. simpl.
  destruct (JS.assoc "data" fields) as [[|b|z|s| |]|]; simpl; try done.
  - by rewrite andb_false_r.
  - by rewrite andb_false_r.
  - by rewrite andb_false_r.
Qed.

Lemma unwrap_data_other json :
  (∀ fields, json ≠ JObj fields) → api.unwrap_data json = Ok json.
Proof.
  intros H. destruct json as [|b|z|s|items|fields]; try done.
  - unfold api.unwrap_data. simpl. by destruct b.
  - unfold api.unwrap_data. simpl. by destruct (negb (z =? 0)%Z).
  - unfold api.unwrap_data. simpl. by destruct (negb (String.eqb s "")).
  - by destruct (H fields).
Qed.

Lemma normalize_cases json :
  match json with
  | JArr items => normalize json = Ok (Some items)
  | JObj fields =>
      match JS.assoc "data" fields with
      | Some (JArr items) => normalize json = Ok (Some items)
      | _ =>
          match JS.assoc "profiles" fields with
          | Some (JArr items) => normalize json = Ok (Some items)
          | _ =>
              match JS.assoc "steamProfiles" fields with
              | Some (JArr items) => normalize json = Ok (Some items)
              | _ => normalize json = Ok None
              end
          end
      end
  | JNull => normalize json = Throw JS.TypeError
  | _ => normalize json = Ok None
  end.
Proof.
  destruct json as [|b|z|s|items|fields];
    try (unfold normalize; by rewrite unwrap_data_other).
  unfold normalize. rewrite unwrap_data_object.
  destruct (JS.assoc "data" fields) as [[| | | | |]|] eqn:D; try done;
    unfold RootIndex.extract; simpl; rewrite D;
    destruct (JS.assoc "profiles" fields) as [[| | | | |]|] eqn:P; try done;
    destruct (JS.assoc "steamProfiles" fields) as [[| | | | |]|] eqn:S; done.
Qed.

(** ** Invariants of a whole cycle *)

Section Cycle_invariant.
Variable env : Env.
Variable account : Account.
Variables I0 I : State → Prop.
Hypothesis HS : stable I dispatch_effect.
Hypothesis HC : ignores_count I.
Hypothesis Hreset :
  hoare I0 (do_updateAccount (account !! "login") {[ "commentCounter" := JNum 0 ]})
    (λ _, I).
Hypothesis Hstamp : keeps I (stamp_lastComment env (account !! "login")).
Hypothesis Hstop : keeps I (stop_account env (account !! "login")).

Lemma keeps_postUserComment userID text :
  keeps I (do_postUserComment env userID text).
Proof.
  intros st H. apply (stable_answered I _ HS). by apply (stable_emit I _ HS).
Qed.

Lemma keeps_src_post task : keeps I (SrcIndex.post env account task).
Proof.
  unfold SrcIndex.post.
  apply keeps_bind; [apply keeps_lift|intros userID].
  apply keeps_bind; [apply keeps_lift|intros text].
  apply keeps_bind; [apply keeps_postUserComment|intros [msg|]]; [|apply keeps_ret].
  destruct (JS.includes msg settings_message); [apply keeps_ret|].
  destruct (JS.includes msg frequency_message); [|apply keeps_ret].
  apply keeps_bind; [exact Hstop|intros ?; apply keeps_ret].
Qed.

Lemma keeps_src_complete task profile : keeps I (SrcIndex.complete env task profile).
Proof.
  unfold SrcIndex.complete.
  apply keeps_bind; [apply keeps_lift|intros taskId].
  apply keeps_bind; [apply keeps_lift|intros commentId].
  apply keeps_bind; [by apply (keeps_completeTask _ _ HS)|intros ?].
  intros st. apply HC.
Qed.

Lemma keeps_src_attempts profile task remaining :
  keeps I (SrcIndex.attempts env account profile task remaining).
Proof.
  induction remaining as [|n IH]; cbn [SrcIndex.attempts]; [apply keeps_ret|].
  apply keeps_bind; [apply keeps_src_post|intros [| |]].
  - apply keeps_bind; [apply keeps_src_complete|intros ?; apply keeps_ret].
  - apply keeps_ret.
  - apply keeps_bind; [by apply (keeps_sleep _ _ HS)|intros ?; apply IH].
Qed.

Lemma keeps_src_forTasks profile tasks :
  keeps I (SrcIndex.forTasks env account profile tasks).
Proof.
  induction tasks as [|task rest IH]; cbn [SrcIndex.forTasks]; [apply keeps_ret|].
  apply (hoare_guard _ (λ st, (maxComments <=? successfulComments st)%nat) (ret Next)).
  { apply hoare_ret. by intros st [H _]. }
  eapply hoare_conseq with (P' := I) (Q' := λ _, I); [|by intros st [H _]|done].
  apply keeps_bind; [apply keeps_src_attempts|intros [|]]; [|apply keeps_ret].
  apply keeps_bind; [by apply (keeps_sleep _ _ HS)|intros ?; apply IH].
Qed.

Let cycle_end := cycle_end env account I0 I.

Lemma src_body_invariant steamID :
  hoare I0 (SrcIndex.body env steamID account) (λ _, cycle_end).
Proof.
  assert (Hright : ∀ (e : string) st, I st → cycle_end st) by (intros; by right).
  unfold SrcIndex.body.
  apply (hoare_guard _ (λ st, coolingDown env account (now st)) (ret tt)).
  { apply hoare_ret. intros st H. by left. }
  eapply hoare_conseq with (P' := I0) (Q' := λ _, cycle_end);
    [|by intros st [H _]|done].
  eapply hoare_bind; [exact Hreset| |exact Hright]. intros ?.
  eapply hoare_conseq with (P' := I) (Q' := λ _, I); [|done|intros r st H; by right].
  apply keeps_bind; [by apply (keeps_getSteamProfiles _ _ HS)|intros steamProfiles].
  apply keeps_bind; [apply keeps_src_forEach|intros m].
  apply keeps_bind.
  { destruct (registered m steamID); [apply keeps_ret|].
    apply keeps_bind; [by apply (keeps_addSteamProfile _ _ HS)|intros ?].
    apply keeps_bind; [by apply (keeps_getSteamProfiles _ _ HS)|intros ?].
    apply keeps_src_forEach. }
  intros m'.
  apply keeps_bind; [by apply (keeps_getTasks _ _ HS)|intros tasks].
  apply keeps_bind; [intros st; apply HC|intros ?].
  apply keeps_bind; [apply keeps_lift|intros items].
  apply keeps_bind; [apply keeps_src_forTasks|intros [|]]; [exact Hstamp|apply keeps_ret].
Qed.

Lemma keeps_root_post task : keeps I (RootIndex.post env account task).
Proof.
  unfold RootIndex.post.
  apply keeps_bind; [apply keeps_lift|intros userID].
  apply keeps_bind; [apply keeps_lift|intros text].
  apply keeps_bind; [apply keeps_postUserComment|intros [msg|]]; [|apply keeps_ret].
  destruct (JS.includes msg settings_message); [apply keeps_ret|].
  destruct (JS.includes msg frequency_message); [|apply keeps_ret].
  apply keeps_bind; [exact Hstop|intros ?; apply keeps_ret].
Qed.

Lemma keeps_root_complete task profile : keeps I (RootIndex.complete env task profile).
Proof.
  unfold RootIndex.complete.
  apply keeps_bind; [apply keeps_lift|intros taskId].
  apply keeps_bind; [apply keeps_lift|intros commentId].
  apply keeps_bind; [by apply (keeps_completeTask _ _ HS)|intros ?].
  intros st. apply HC.
Qed.

Lemma keeps_root_forTasks profile tasks :
  keeps I (RootIndex.forTasks env account profile tasks).
Proof.
  induction tasks as [|task rest IH]; cbn [RootIndex.forTasks]; [apply keeps_ret|].
  apply (hoare_guard _ (λ st, (maxComments <=? successfulComments st)%nat) (ret tt)).
  { apply hoare_ret. by intros st [H _]. }
  eapply hoare_conseq with (P' := I) (Q' := λ _, I); [|by intros st [H _]|done].
  apply keeps_bind; [apply keeps_root_post|intros [| |]].
  - apply keeps_bind; [apply keeps_root_complete|intros ?].
    apply keeps_bind; [by apply (keeps_sleep _ _ HS)|intros ?; apply IH].
  - apply keeps_bind; [by apply (keeps_sleep _ _ HS)|intros ?; apply IH].
  - apply keeps_ret.
Qed.

Lemma keeps_root_dispatch steamID m : keeps I (RootIndex.dispatch env steamID account m).
Proof.
  unfold RootIndex.dispatch.
  apply keeps_bind; [by apply (keeps_getTasks _ _ HS)|intros tasks].
  apply keeps_bind; [intros st; apply HC|intros ?].
  apply keeps_bind; [apply keeps_lift|intros items].
  apply keeps_bind; [apply keeps_root_forTasks|intros ?]. exact Hstamp.
Qed.

Lemma root_body_invariant steamID :
  hoare I0 (RootIndex.body env steamID account) (λ _, cycle_end).
Proof.
  assert (Hright : ∀ (e : string) st, I st → cycle_end st) by (intros; by right).
  unfold RootIndex.body.
  apply (hoare_guard _ (λ st, coolingDown env account (now st)) (ret tt)).
  { apply hoare_ret. intros st H. by left. }
  eapply hoare_conseq with (P' := I0) (Q' := λ _, cycle_end);
    [|by intros st [H _]|done].
  eapply hoare_bind; [exact Hreset| |exact Hright]. intros ?.
  eapply hoare_conseq with (P' := I) (Q' := λ _, I); [|done|intros r st H; by right].
  apply keeps_bind; [by apply (keeps_getSteamProfiles _ _ HS)|intros response].
  apply keeps_bind; [apply keeps_lift|intros [items|]]; [|apply keeps_ret].
  apply keeps_bind; [apply keeps_lift|intros m].
  destruct (registered m steamID); [apply keeps_root_dispatch|].
  apply keeps_bind; [by apply (keeps_addSteamProfile _ _ HS)|intros ?].
  apply keeps_bind; [by apply (keeps_getSteamProfiles _ _ HS)|intros response'].
  apply keeps_bind; [apply keeps_lift|intros [items'|]]; [|apply keeps_ret].
  apply keeps_bind; [apply keeps_lift|intros m']. apply keeps_root_dispatch.
Qed.

Lemma autoComment_invariant dispatcher steamID :
  dispatcher = SrcIndex.autoComment ∨ dispatcher = RootIndex.autoComment →
  hoare I0 (dispatcher env steamID account) (λ _, cycle_end).
Proof.
  intros [-> | ->].
  - eapply hoare_try_catch; [apply src_body_invariant|done|].
    intros e. by apply hoare_ret.
  - eapply hoare_try_catch; [apply root_body_invariant|done|].
    intros e. by apply hoare_ret.
Qed.
End Cycle_invariant.

(** [autoComment] catches whatever its body throws. *)
Lemma autoComment_returns env dispatcher steamID account st :
  dispatcher = SrcIndex.autoComment ∨ dispatcher = RootIndex.autoComment →
  (dispatcher env steamID account st).1 = Ok tt.
Proof.
  intros [-> | ->].
  - unfold SrcIndex.autoComment, try_catch.
    by destruct (SrcIndex.body env steamID account st) as [[[]|e] st'].
  - unfold RootIndex.autoComment, try_catch.
    by destruct (RootIndex.body env steamID account st) as [[[]|e] st'].
Qed.

(** ** The event loop of [processAccount] *)

Section Event_loop.
Variable env : Env.
Variable autoComment : Env → string → Account → M unit.
Variable account : Account.

Lemma session_snoc events ev st :
  session env autoComment account (events ++ [ev]) st
  = deliver env autoComment account (session env autoComment account events st) ev.
Proof. unfold session. by rewrite fold_left_app. Qed.

Lemma webSession_listener_flags ss :
  same_flags ss.1 (webSession_listener env autoComment account ss).1.
Proof.
  destruct ss as [s st]. unfold webSession_listener, same_flags. simpl.
  destruct (steamID s); [|done].
  by destruct (autoComment env _ account _) as [[?|?] ?].
Qed.

Lemma listeners_flags n ss :
  same_flags ss.1 (Nat.iter n (webSession_listener env autoComment account) ss).1.
Proof.
  induction n as [|n IH]; simpl; [done|].
  destruct (webSession_listener_flags
              (Nat.iter n (webSession_listener env autoComment account) ss))
    as (H1 & H2 & H3 & H4).
  destruct IH as (I1 & I2 & I3 & I4). unfold same_flags. by rewrite H1, H2, H3, H4.
Qed.

Lemma webSession_listener_pending ss :
  0 < disconnectedListeners (webSession_listener env autoComment account ss).1 →
  0 < disconnectedListeners ss.1 ∨ is_Some (steamID ss.1).
Proof.
  destruct ss as [s st]. unfold webSession_listener. simpl.
  destruct (steamID s); [by right; eexists|]. simpl. by left.
Qed.

Lemma listeners_pending n ss :
  0 < disconnectedListeners (Nat.iter n (webSession_listener env autoComment account) ss).1 →
  0 < disconnectedListeners ss.1 ∨ 0 < n.
Proof. destruct n; simpl; [by left | right; lia]. Qed.

Lemma session_inv_holds events st :
  session_inv account events (session env autoComment account events st).1.
Proof.
  induction events as [|ev events IH] using rev_ind.
  - unfold session, open; simpl. destruct (loadAccounts (disk st)) as [a d]; simpl.
    unfold session_inv; simpl. repeat split; try done; try lia.
    intros H; by left.
  - rewrite session_snoc.
    destruct (session env autoComment account events st) as [s st'] eqn:E.
    simpl in IH. destruct IH as (I1 & I2 & I3 & I4 & I5 & I6 & I7).
    assert (Hmono : ∀ x : Event, x ∈ events → x ∈ events ++ [ev])
      by (intros x Hx; apply elem_of_app; by left).
    assert (Hlast : ev ∈ events ++ [ev])
      by (apply elem_of_app; right; apply list_elem_of_singleton; done).
    assert (Hkeep : session_inv account (events ++ [ev]) s).
    { unfold session_inv. repeat split; try done.
      - intros H. destruct (I1 H) as [x Hx]. exists x. auto.
      - intros H. destruct (I5 H) as [[x Hx]|Hd]; [left; exists x|right]; auto.
      - intros H. destruct (I6 H) as [?|[x Hx]]; [by left|right; exists x; auto]. }
    unfold deliver. destruct (unhandled s); [done|].
    destruct ev as [sid| |tok|e| |ms].
    + unfold session_inv; simpl. repeat split; try done.
      * intros _. by exists sid.
      * intros H. destruct (I5 H) as [[x Hx]|Hd]; [left; exists x|right]; auto.
      * intros H. destruct (I6 H) as [?|[x Hx]]; [by left|right; exists x; auto].
    + unfold on_webSession.
      pose proof (listeners_flags (webSessionListeners s) (s, st')) as (F1 & F2 & F3 & F4).
      pose proof (listeners_pending (webSessionListeners s) (s, st')) as FP.
      simpl in *. destruct Hkeep as (K1 & K2 & K3 & K4 & K5 & K6 & K7).
      unfold session_inv. rewrite F1, F2, F3, F4. repeat split; try done.
      intros H. destruct (FP H) as [H'|H']; auto.
    + unfold on_refreshToken.
      destruct (do_updateAccount _ _ _) as [r st'']. simpl.
      unfold session_inv; simpl. destruct Hkeep as (K1 & K2 & K3 & K4 & K5 & K6 & K7).
      repeat split; try done.
      * destruct (isLoggedOn s) eqn:L; [done|]. exact K4.
      * intros _. left. by exists tok.
      * intros _. right. by exists tok.
    + unfold session_inv; simpl. destruct Hkeep as (K1 & K2 & K3 & K4 & K5 & K6 & K7).
      repeat split; try done.
      * intros H. apply K4. by destruct (promise s).
      * intros H. apply K5. by destruct (promise s).
    + unfold session_inv; simpl. destruct Hkeep as (K1 & K2 & K3 & K4 & K5 & K6 & K7).
      repeat split; try done; try lia.
      * intros H. destruct (disconnectedListeners s) eqn:D; [auto|].
        apply K3. lia.
      * intros _. by right.
    + done.
Qed.
End Event_loop.

(** C1, as amended.  Whatever the client emits and in whatever order, the
    promise awaited by [processAccount] is resolved only after login was
    confirmed; [isTokenRefreshed] is set only if the account came with a
    refresh token or a token was issued, and an account that came with a
    refresh token has it set from the start, so for such an account both
    conditions hold at every resolution. *)
Theorem resolved_only_after_login env autoComment (account : Account) events st :
  let s := (session env autoComment account events st).1 in
  promise s = Resolved →
  isLoggedOn s = true
  ∧ (∃ steamID64, loggedOn steamID64 ∈ events)
  ∧ (isTokenRefreshed s = true →
     JS.truthy (account !! "refreshToken") = true ∨ ∃ t, refreshToken t ∈ events)
  ∧ (JS.truthy (account !! "refreshToken") = true → isTokenRefreshed s = true).
Proof.
  intros s H.
  destruct (session_inv_holds env autoComment account events st)
    as (I1 & I2 & I3 & I4 & I5 & I6 & I7).
  fold s in I1, I4, I6, I7. auto.
Qed.

(** The two ways the promise gets resolved: the [refreshToken] listener,
    and the [disconnected] listener set up after [logOff]. *)
Lemma resolved_by_token_or_disconnect env autoComment (account : Account) events st :
  promise (session env autoComment account events st).1 = Resolved →
  (∃ t, refreshToken t ∈ events) ∨ disconnected ∈ events.
Proof.
  intros H.
  destruct (session_inv_holds env autoComment account events st)
    as (_ & _ & _ & _ & I5 & _). auto.
Qed.

(** ** The batch *)

Section Batch.
Variable env : Env.
Variable dispatcher : Env → string → Account → M unit.
Hypothesis Hdispatcher :
  dispatcher = SrcIndex.autoComment ∨ dispatcher = RootIndex.autoComment.

Lemma logons_snoc tr e :
  logons (tr ++ [e]) = logons tr ++ match e with ELogOn o => [o] | _ => [] end.
Proof. unfold logons. rewrite omap_app. by destruct e. Qed.

Lemma logged_emit made e st :
  match e with ELogOn _ => False | _ => True end →
  logged made st → logged made (emit e st).
Proof.
  unfold logged. simpl. intros He H. rewrite logons_snoc, H.
  destruct e; try done; apply app_nil_r.
Qed.

Lemma stable_logged made : stable (logged made) dispatch_effect.
Proof.
  split; [|done..]. intros e st He. apply logged_emit. by destruct e.
Qed.

Lemma logged_ignores_store made : ignores_store (logged made).
Proof. by intros a d st. Qed.

Lemma logged_ignores_count made : ignores_count (logged made).
Proof. by intros n st. Qed.

Lemma autoComment_logged made steamID account :
  keeps (logged made) (dispatcher env steamID account).
Proof.
  eapply hoare_conseq; [|done|].
  - apply (autoComment_invariant env account (logged made) (logged made)
             (stable_logged made) (logged_ignores_count made)).
    + apply keeps_updateAccount, logged_ignores_store.
    + apply keeps_stamp_lastComment, logged_ignores_store.
    + apply keeps_stop_account, logged_ignores_store.
    + exact Hdispatcher.
  - intros r st H. unfold cycle_end in H. by destruct H as [[H _]|H].
Qed.

Lemma listener_quiet made account ss :
  logged made ss.2 → unhandled ss.1 = None →
  logged made (webSession_listener env dispatcher account ss).2
  ∧ unhandled (webSession_listener env dispatcher account ss).1 = None.
Proof.
  destruct ss as [s st]. simpl. intros Hl Hu. unfold webSession_listener.
  destruct (steamID s) as [sid|]; [|done].
  pose proof (autoComment_returns env dispatcher sid account (emit ESetCookies st)
                Hdispatcher) as Hr.
  pose proof (autoComment_logged made sid account (emit ESetCookies st)
                (logged_emit made ESetCookies st I Hl)) as Hk.
  destruct (dispatcher env sid account (emit ESetCookies st)) as [[[]|e] st'];
    simpl in *; [|done].
  split; [|done]. by apply logged_emit.
Qed.

Lemma listeners_quiet made account n ss :
  logged made ss.2 → unhandled ss.1 = None →
  logged made (Nat.iter n (webSession_listener env dispatcher account) ss).2
  ∧ unhandled (Nat.iter n (webSession_listener env dispatcher account) ss).1 = None.
Proof.
  intros Hl Hu. induction n as [|n [IH1 IH2]]; simpl; [done|].
  by apply listener_quiet.
Qed.

Lemma deliver_quiet made account ss ev :
  logged made ss.2 → unhandled ss.1 = None →
  logged made (deliver env dispatcher account ss ev).2
  ∧ unhandled (deliver env dispatcher account ss ev).1 = None.
Proof.
  destruct ss as [s st]. simpl. intros Hl Hu. rewrite Hu.
  destruct ev as [sid| |tok|e| |ms]; simpl; try done.
  - split; [|done]. by apply logged_emit.
  - by apply (listeners_quiet made account _ (s, st)).
  - unfold on_error. simpl. split; [|done].
    destruct (eresult e =? 5)%Z; [done|]. destruct (eresult e =? 63)%Z; [done|].
    by destruct (JS.includes (message e) frequency_message).
Qed.

Lemma session_quiet account events st :
  logged (logons (trace st) ++ [logOnOptions account])
    (session env dispatcher account events st).2
  ∧ unhandled (session env dispatcher account events st).1 = None.
Proof.
  induction events as [|ev events [IH1 IH2]] using rev_ind.
  - unfold session, open. simpl. destruct (loadAccounts (disk st)) as [a d].
    split; [|done]. unfold logged. simpl. by rewrite logons_snoc.
  - rewrite session_snoc. by apply deliver_quiet.
Qed.

Lemma processAccount_outcome account events st :
  let '(outcome, st') := processAccount env dispatcher account events st in
  (outcome = returned ∨ outcome = waiting)
  ∧ (outcome = waiting ↔ promise (session env dispatcher account events st).1 = Pending)
  ∧ st' = (session env dispatcher account events st).2
  ∧ logons (trace st') = logons (trace st) ++ [logOnOptions account].
Proof.
  unfold processAccount.
  destruct (session_quiet account events st) as [Hl Hu].
  destruct (session env dispatcher account events st) as [s st'].
  simpl in *. rewrite Hu.
  destruct (promise s) as [| |e]; simpl; repeat split; auto; try done.
  all: intros [H|H]; done.
Qed.

Lemma coolingDown_needs_lastComment (account : Account) t :
  JS.truthy (account !! "lastComment") = false → coolingDown env account t = false.
Proof. intros H. unfold coolingDown. by rewrite H. Qed.

Lemma forAccounts_outcome events batch i st :
  let '(outcome, st') := forAccounts env dispatcher events i batch st in
  (outcome = returned ∨ outcome = waiting)
  ∧ ∃ processed,
      sublist processed batch
      ∧ logons (trace st') = logons (trace st) ++ (logOnOptions <$> processed)
      ∧ (outcome = returned →
         ∀ account, account ∈ batch →
           JS.truthy (account !! "steamID") = true →
           JS.truthy (account !! "lastComment") = false →
           account ∈ processed).
Proof.
  revert i st. induction batch as [|account rest IH]; intros i st; cbn [forAccounts].
  - split; [by left|]. exists []. rewrite app_nil_r. by repeat split.
  - destruct (JS.truthy (account !! "steamID")) eqn:Hs; simpl.
    2:{ specialize (IH (S i) st).
        destruct (forAccounts env dispatcher events (S i) rest st) as [outcome st'].
        destruct IH as (Ho & processed & Hsub & Hlog & Hall).
        split; [done|]. exists processed. split; [by apply sublist_cons|].
        split; [done|]. intros Hr a [->|Ha]%elem_of_cons H1 H2; [congruence|auto]. }
    destruct (coolingDown env account (now st)) eqn:Hc.
    { specialize (IH (S i) st).
      destruct (forAccounts env dispatcher events (S i) rest st) as [outcome st'].
      destruct IH as (Ho & processed & Hsub & Hlog & Hall).
      split; [done|]. exists processed. split; [by apply sublist_cons|].
      split; [done|]. intros Hr a [->|Ha]%elem_of_cons H1 H2; [|auto].
      rewrite coolingDown_needs_lastComment in Hc; done. }
    pose proof (processAccount_outcome account (events i) st) as Hp.
    destruct (processAccount env dispatcher account (events i) st) as [o st1].
    destruct Hp as ([-> | ->] & _ & _ & Hl1).
    + specialize (IH (S i) st1).
      destruct (forAccounts env dispatcher events (S i) rest st1) as [outcome st'].
      destruct IH as (Ho & processed & Hsub & Hlog & Hall).
      split; [done|]. exists (account :: processed). split; [by apply sublist_skip|].
      split.
      * rewrite Hlog, Hl1, <- app_assoc. done.
      * intros Hr a [->|Ha]%elem_of_cons H1 H2; [apply elem_of_cons; by left|].
        apply elem_of_cons; right. auto.
    + split; [by right|]. exists [account].
      split; [apply sublist_skip, sublist_nil_l|]. split; [done|]. done.
Qed.

End Batch.

Lemma startWork_outcome env dispatcher events st :
  dispatcher = SrcIndex.autoComment ∨ dispatcher = RootIndex.autoComment →
  let batch := (loadAccounts (disk st)).1 in
  let '(outcome, st') := startWork env dispatcher events st in
  (outcome = returned ∨ outcome = waiting)
  ∧ ∃ processed,
      sublist processed batch
      ∧ logons (trace st') = logons (trace st) ++ (logOnOptions <$> processed)
      ∧ (outcome = returned →
         ∀ account, account ∈ batch →
           JS.truthy (account !! "steamID") = true →
           JS.truthy (account !! "lastComment") = false →
           account ∈ processed).
Proof.
  intros Hd batch. unfold startWork. subst batch.
  destruct (loadAccounts (disk st)) as [batch d]. simpl.
  apply (forAccounts_outcome env dispatcher Hd events batch 0
           (set_store (accounts st) d st)).
Qed.


(** ** Two runs that differ in the stored counters *)

Lemma same_but_counter_lookup (a b : Account) k :
  same_but_counter a b → k ≠ "commentCounter" → a !! k = b !! k.
Proof.
  intros H Hk. rewrite <- (lookup_delete_ne a "commentCounter" k) by done.
  rewrite H. by apply lookup_delete_ne.
Qed.

Lemma same_but_counter_union (u a b : Account) :
  same_but_counter a b → same_but_counter (u ∪ a) (u ∪ b).
Proof. unfold same_but_counter. intros H. by rewrite !delete_union, H. Qed.

Lemma getAccount_sim (a1 a2 : list Account) login :
  Forall2 same_but_counter a1 a2 →
  match getAccount a1 login, getAccount a2 login with
  | Some (i, r1), Some (j, r2) => i = j ∧ same_but_counter r1 r2
  | None, None => True
  | _, _ => False
  end.
Proof.
  induction 1 as [|x y l k Hxy Hlk IH]; simpl; [done|].
  rewrite <- (same_but_counter_lookup x y "login" Hxy) by done.
  destruct (JS.strict_eq (x !! "login") login); [done|].
  destruct (getAccount l login) as [[i r1]|], (getAccount k login) as [[j r2]|]; try done.
  destruct IH as [-> IH]. done.
Qed.

Lemma updateAccount_sim (a1 a2 : list Account) login updates d1 d2 :
  Forall2 same_but_counter a1 a2 →
  Forall2 same_but_counter (updateAccount a1 login updates d1).1
                           (updateAccount a2 login updates d2).1.
Proof.
  intros H. unfold updateAccount. simpl. pose proof (getAccount_sim a1 a2 login H) as G.
  destruct (getAccount a1 login) as [[i r1]|], (getAccount a2 login) as [[j r2]|]; try done.
  - destruct G as [-> G]. apply Forall2_insert; [done|]. by apply same_but_counter_union.
  - apply Forall2_app; [done|]. by constructor.
Qed.

Lemma sim_refl st : sim st st.
Proof.
  unfold sim. repeat split; try done.
  - by apply Forall_Forall2_diag, Forall_forall.
  - destruct (disk st); constructor. by apply Forall_Forall2_diag, Forall_forall.
Qed.

Lemma agree_ret {A} (a : A) : agree (ret a) (ret a).
Proof. by intros st1 st2 H. Qed.

Lemma agree_lift {A} (r : Res A) : agree (lift r) (lift r).
Proof. by intros st1 st2 H. Qed.

Lemma agree_throw {A} e : agree (throw (A:=A) e) (throw e).
Proof. by intros st1 st2 H. Qed.

Lemma agree_bind {A B} (m1 m2 : M A) (k1 k2 : A → M B) :
  agree m1 m2 → (∀ a, agree (k1 a) (k2 a)) → agree (bind m1 k1) (bind m2 k2).
Proof.
  intros Hm Hk st1 st2 H. unfold bind. destruct (Hm st1 st2 H) as [Hr Hs].
  destruct (m1 st1) as [[a|e] st1'], (m2 st2) as [[a'|e'] st2']; simpl in *; try done.
  - injection Hr as <-. by apply Hk.
  - by injection Hr as <-.
Qed.

Lemma agree_try_catch {A} (m1 m2 : M A) (h1 h2 : string → M A) :
  agree m1 m2 → (∀ e, agree (h1 e) (h2 e)) → agree (try_catch m1 h1) (try_catch m2 h2).
Proof.
  intros Hm Hh st1 st2 H. unfold try_catch. destruct (Hm st1 st2 H) as [Hr Hs].
  destruct (m1 st1) as [[a|e] st1'], (m2 st2) as [[a'|e'] st2']; simpl in *; try done.
  injection Hr as <-. by apply Hh.
Qed.

Lemma agree_guard {A} (c1 c2 : State → bool) (m1 m2 n1 n2 : M A) :
  (∀ st1 st2, sim st1 st2 → c1 st1 = c2 st2) →
  agree m1 m2 → agree n1 n2 →
  agree (λ st, if c1 st then m1 st else n1 st) (λ st, if c2 st then m2 st else n2 st).
Proof.
  intros Hc Hm Hn st1 st2 H. rewrite (Hc st1 st2 H).
  destruct (c2 st2); [by apply Hm | by apply Hn].
Qed.

Section Agree_primitives.
Variable env : Env.

Lemma sim_emit e st1 st2 : sim st1 st2 → sim (emit e st1) (emit e st2).
Proof. intros (H1 & H2 & H3 & H4 & H5 & H6). unfold sim. simpl. by rewrite H2. Qed.

Lemma sim_answered st1 st2 : sim st1 st2 → sim (answered env st1) (answered env st2).
Proof. intros (H1 & H2 & H3 & H4 & H5 & H6). unfold sim. simpl. by rewrite H1, H3. Qed.

Lemma sim_advance ms st1 st2 : sim st1 st2 → sim (advance ms st1) (advance ms st2).
Proof. intros (H1 & H2 & H3 & H4 & H5 & H6). unfold sim. simpl. by rewrite H1. Qed.

Lemma agree_sleep ms : agree (sleep ms) (sleep ms).
Proof. intros st1 st2 H. split; [done|]. by apply sim_advance, sim_emit. Qed.

Lemma agree_set_count n :
  agree (λ st, (Ok tt, set_successfulComments n st))
        (λ st, (Ok tt, set_successfulComments n st)).
Proof. intros st1 st2 (H1 & H2 & H3 & H4 & H5 & H6). split; [done|]. by unfold sim. Qed.

Lemma agree_count_up :
  agree (λ st, (Ok tt, set_successfulComments (S (successfulComments st)) st))
        (λ st, (Ok tt, set_successfulComments (S (successfulComments st)) st)).
Proof.
  intros st1 st2 (H1 & H2 & H3 & H4 & H5 & H6). split; [done|].
  unfold sim. simpl. by rewrite H4.
Qed.

Lemma agree_getSteamProfiles : agree (api.getSteamProfiles env) (api.getSteamProfiles env).
Proof.
  intros st1 st2 H. unfold api.getSteamProfiles. simpl.
  destruct H as (H1 & H2 & H3 & H4 & H5 & H6). rewrite <- H3.
  assert (sim (answered env (emit EGetSteamProfiles st1))
              (answered env (emit EGetSteamProfiles st2)))
    by (apply sim_answered, sim_emit; by unfold sim).
  by destruct (fetch_steamprofiles env (calls st1)).
Qed.

Lemma agree_addSteamProfile steamId :
  agree (api.addSteamProfile env steamId) (api.addSteamProfile env steamId).
Proof.
  intros st1 st2 H. unfold api.addSteamProfile. simpl.
  split; [by rewrite (proj1 (proj2 (proj2 H)))|]. by apply sim_answered, sim_emit.
Qed.

Lemma agree_getTasks profile : agree (api.getTasks env profile) (api.getTasks env profile).
Proof.
  intros st1 st2 H. unfold api.getTasks. simpl.
  split; [by rewrite (proj1 (proj2 (proj2 H)))|]. by apply sim_answered, sim_emit.
Qed.

Lemma agree_completeTask a b c :
  agree (api.completeTask env a b c) (api.completeTask env a b c).
Proof.
  intros st1 st2 H. unfold api.completeTask. simpl.
  split; [by rewrite (proj1 (proj2 (proj2 H)))|]. by apply sim_answered, sim_emit.
Qed.

Lemma agree_postUserComment userID text :
  agree (do_postUserComment env userID text) (do_postUserComment env userID text).
Proof.
  intros st1 st2 H. unfold do_postUserComment. simpl.
  rewrite (proj1 (proj2 (proj2 H))). split; [done|]. by apply sim_answered, sim_emit.
Qed.

Lemma agree_updateAccount login updates :
  agree (do_updateAccount login updates) (do_updateAccount login updates).
Proof.
  intros st1 st2 (H1 & H2 & H3 & H4 & H5 & H6). split; [done|].
  pose proof (updateAccount_sim _ _ login updates (disk st1) (disk st2) H5) as Hu.
  unfold do_updateAccount, sim. simpl in *.
  repeat split; try done. by constructor.
Qed.

Lemma agree_stamp_lastComment login :
  agree (stamp_lastComment env login) (stamp_lastComment env login).
Proof.
  intros st1 st2 H. unfold stamp_lastComment, stamp.
  rewrite (proj1 H). by apply agree_updateAccount.
Qed.

Lemma agree_stop_account login : agree (stop_account env login) (stop_account env login).
Proof.
  intros st1 st2 H. unfold stop_account, cooldown_update, stamp.
  rewrite (proj1 H). by apply agree_updateAccount.
Qed.
End Agree_primitives.

Section Agree_cycle.
Variable env : Env.
Variables account1 account2 : Account.
Hypothesis Hsame : same_but_counter account1 account2.

Lemma same_login : account1 !! "login" = account2 !! "login".
Proof. by apply same_but_counter_lookup. Qed.

Lemma same_coolingDown t : coolingDown env account1 t = coolingDown env account2 t.
Proof.
  unfold coolingDown.
  by rewrite (same_but_counter_lookup account1 account2 "lastComment" Hsame).
Qed.

Lemma agree_forEach steamProfiles m :
  agree (SrcIndex.forEach steamProfiles m) (SrcIndex.forEach steamProfiles m).
Proof. destruct steamProfiles; first [apply agree_throw | apply agree_lift]. Qed.

Lemma agree_src_post task :
  agree (SrcIndex.post env account1 task) (SrcIndex.post env account2 task).
Proof.
  unfold SrcIndex.post. rewrite <- same_login.
  apply agree_bind; [apply agree_lift|intros userID].
  apply agree_bind; [apply agree_lift|intros text].
  apply agree_bind; [apply agree_postUserComment|intros [msg|]]; [|apply agree_ret].
  destruct (JS.includes msg settings_message); [apply agree_ret|].
  destruct (JS.includes msg frequency_message); [|apply agree_ret].
  apply agree_bind; [apply agree_stop_account|intros ?; apply agree_ret].
Qed.

Lemma agree_src_complete task profile :
  agree (SrcIndex.complete env task profile) (SrcIndex.complete env task profile).
Proof.
  unfold SrcIndex.complete.
  apply agree_bind; [apply agree_lift|intros taskId].
  apply agree_bind; [apply agree_lift|intros commentId].
  apply agree_bind; [apply agree_completeTask|intros ?]. apply agree_count_up.
Qed.

Lemma agree_src_attempts profile task remaining :
  agree (SrcIndex.attempts env account1 profile task remaining)
        (SrcIndex.attempts env account2 profile task remaining).
Proof.
  induction remaining as [|n IH]; cbn [SrcIndex.attempts]; [apply agree_ret|].
  apply agree_bind; [apply agree_src_post|intros [| |]].
  - apply agree_bind; [apply agree_src_complete|intros ?; apply agree_ret].
  - apply agree_ret.
  - apply agree_bind; [apply agree_sleep|intros ?; apply IH].
Qed.

Lemma agree_src_forTasks profile tasks :
  agree (SrcIndex.forTasks env account1 profile tasks)
        (SrcIndex.forTasks env account2 profile tasks).
Proof.
  induction tasks as [|task rest IH]; cbn [SrcIndex.forTasks]; [apply agree_ret|].
  apply (agree_guard (λ st, (maxComments <=? successfulComments st)%nat)
                     (λ st, (maxComments <=? successfulComments st)%nat)
                     (ret Next) (ret Next)).
  - intros st1 st2 H. by rewrite (proj1 (proj2 (proj2 (proj2 H)))).
  - apply agree_ret.
  - apply agree_bind; [apply agree_src_attempts|intros [|]]; [|apply agree_ret].
    apply agree_bind; [apply agree_sleep|intros ?; apply IH].
Qed.

Lemma agree_src_body steamID :
  agree (SrcIndex.body env steamID account1) (SrcIndex.body env steamID account2).
Proof.
  unfold SrcIndex.body.
  apply (agree_guard (λ st, coolingDown env account1 (now st))
                     (λ st, coolingDown env account2 (now st)) (ret tt) (ret tt)).
  - intros st1 st2 H. rewrite (proj1 H). apply same_coolingDown.
  - apply agree_ret.
  - rewrite <- same_login.
    apply agree_bind; [apply agree_updateAccount|intros ?].
    apply agree_bind; [apply agree_getSteamProfiles|intros steamProfiles].
    apply agree_bind; [apply agree_forEach|intros m].
    apply agree_bind.
    { destruct (registered m steamID); [apply agree_ret|].
      apply agree_bind; [apply agree_addSteamProfile|intros ?].
      apply agree_bind; [apply agree_getSteamProfiles|intros ?].
      apply agree_forEach. }
    intros m'.
    apply agree_bind; [apply agree_getTasks|intros tasks].
    apply agree_bind; [apply agree_set_count|intros ?].
    apply agree_bind; [apply agree_lift|intros items].
    apply agree_bind; [apply agree_src_forTasks|intros [|]];
      [apply agree_stamp_lastComment|apply agree_ret].
Qed.

Lemma agree_root_post task :
  agree (RootIndex.post env account1 task) (RootIndex.post env account2 task).
Proof.
  unfold RootIndex.post. rewrite <- same_login.
  apply agree_bind; [apply agree_lift|intros userID].
  apply agree_bind; [apply agree_lift|intros text].
  apply agree_bind; [apply agree_postUserComment|intros [msg|]]; [|apply agree_ret].
  destruct (JS.includes msg settings_message); [apply agree_ret|].
  destruct (JS.includes msg frequency_message); [|apply agree_ret].
  apply agree_bind; [apply agree_stop_account|intros ?; apply agree_ret].
Qed.

Lemma agree_root_complete task profile :
  agree (RootIndex.complete env task profile) (RootIndex.complete env task profile).
Proof.
  unfold RootIndex.complete.
  apply agree_bind; [apply agree_lift|intros taskId].
  apply agree_bind; [apply agree_lift|intros commentId].
  apply agree_bind; [apply agree_completeTask|intros ?]. apply agree_count_up.
Qed.

Lemma agree_root_forTasks profile tasks :
  agree (RootIndex.forTasks env account1 profile tasks)
        (RootIndex.forTasks env account2 profile tasks).
Proof.
  induction tasks as [|task rest IH]; cbn [RootIndex.forTasks]; [apply agree_ret|].
  apply (agree_guard (λ st, (maxComments <=? successfulComments st)%nat)
                     (λ st, (maxComments <=? successfulComments st)%nat)
                     (ret tt) (ret tt)).
  - intros st1 st2 H. by rewrite (proj1 (proj2 (proj2 (proj2 H)))).
  - apply agree_ret.
  - apply agree_bind; [apply agree_root_post|intros [| |]].
    + apply agree_bind; [apply agree_root_complete|intros ?].
      apply agree_bind; [apply agree_sleep|intros ?; apply IH].
    + apply agree_bind; [apply agree_sleep|intros ?; apply IH].
    + apply agree_ret.
Qed.

Lemma agree_root_dispatch steamID m :
  agree (RootIndex.dispatch env steamID account1 m)
        (RootIndex.dispatch env steamID account2 m).
Proof.
  unfold RootIndex.dispatch. rewrite <- same_login.
  apply agree_bind; [apply agree_getTasks|intros tasks].
  apply agree_bind; [apply agree_set_count|intros ?].
  apply agree_bind; [apply agree_lift|intros items].
  apply agree_bind; [apply agree_root_forTasks|intros ?].
  apply agree_stamp_lastComment.
Qed.

Lemma agree_root_body steamID :
  agree (RootIndex.body env steamID account1) (RootIndex.body env steamID account2).
Proof.
  unfold RootIndex.body.
  apply (agree_guard (λ st, coolingDown env account1 (now st))
                     (λ st, coolingDown env account2 (now st)) (ret tt) (ret tt)).
  - intros st1 st2 H. rewrite (proj1 H). apply same_coolingDown.
  - apply agree_ret.
  - rewrite <- same_login.
    apply agree_bind; [apply agree_updateAccount|intros ?].
    apply agree_bind; [apply agree_getSteamProfiles|intros response].
    apply agree_bind; [apply agree_lift|intros [items|]]; [|apply agree_ret].
    apply agree_bind; [apply agree_lift|intros m].
    destruct (registered m steamID); [apply agree_root_dispatch|].
    apply agree_bind; [apply agree_addSteamProfile|intros ?].
    apply agree_bind; [apply agree_getSteamProfiles|intros response'].
    apply agree_bind; [apply agree_lift|intros [items'|]]; [|apply agree_ret].
    apply agree_bind; [apply agree_lift|intros m']. apply agree_root_dispatch.
Qed.

Lemma agree_autoComment dispatcher steamID :
  dispatcher = SrcIndex.autoComment ∨ dispatcher = RootIndex.autoComment →
  agree (dispatcher env steamID account1) (dispatcher env steamID account2).
Proof.
  intros [-> | ->].
  - apply agree_try_catch; [apply agree_src_body|intros e; apply agree_ret].
  - apply agree_try_catch; [apply agree_root_body|intros e; apply agree_ret].
Qed.
End Agree_cycle.

(** ** The counter on disk after a cycle *)

Section Counter_reset.
Variable env : Env.
Variable account : Account.

Let login := account !! "login".

Lemma stable_counter_reset : stable (counter_reset login) dispatch_effect.
Proof. by split. Qed.

Lemma counter_reset_ignores_count : ignores_count (counter_reset login).
Proof. by intros n st. Qed.

Lemma reset_counter_reset (I0 : State → Prop) :
  hoare I0 (do_updateAccount login {[ "commentCounter" := JNum 0 ]})
    (λ _, counter_reset login).
Proof.
  intros st _.
  destruct (do_updateAccount_stored login {[ "commentCounter" := JNum 0 ]} st) as [Hs Hp].
  { by simplify_map_eq. }
  split; [done|]. intros Hl. destruct (Hp Hl) as [Hn _]. apply Hn. by simplify_map_eq.
Qed.

Lemma stamp_counter_reset : keeps (counter_reset login) (stamp_lastComment env login).
Proof.
  intros st [Hs Hc]. unfold stamp_lastComment.
  destruct (do_updateAccount_stored login {[ "lastComment" := stamp env st ]} st) as [Hs' Hp].
  { by simplify_map_eq. }
  split; [done|]. intros Hl. destruct (Hp Hl) as [_ Ho].
  rewrite Ho; [by apply Hc|done| by simplify_map_eq |done].
Qed.

Lemma stop_counter_reset : keeps (counter_reset login) (stop_account env login).
Proof.
  intros st _. unfold stop_account.
  destruct (do_updateAccount_stored login (cooldown_update env st) st) as [Hs' Hp].
  { unfold cooldown_update. by simplify_map_eq. }
  split; [done|]. intros Hl. destruct (Hp Hl) as [Hn _]. apply Hn.
  unfold cooldown_update. by simplify_map_eq.
Qed.

Lemma autoComment_resets dispatcher steamID st :
  dispatcher = SrcIndex.autoComment ∨ dispatcher = RootIndex.autoComment →
  coolingDown env account (now st) = false →
  counter_reset login (dispatcher env steamID account st).2.
Proof.
  intros Hd Hc.
  pose proof (autoComment_invariant env account (λ st', st' = st) (counter_reset login)
                stable_counter_reset counter_reset_ignores_count
                (reset_counter_reset _) stamp_counter_reset stop_counter_reset
                dispatcher steamID Hd st eq_refl) as H.
  simpl in H. destruct H as [[-> H]|H]; [congruence|done].
Qed.
End Counter_reset.

(** C10.  Two cycles (of either script) run in the same world on two
    accounts and two stores that differ at most in stored
    [commentCounter] values return alike and leave the same trace (the
    same posts, reports and calls in the same order) and the same success
    count, and their stores still differ at most in the counters; unless
    the account is cooling down, its counter on disk is 0 after the
    cycle. *)
Theorem counter_never_gates env dispatcher steamID account1 account2 st1 st2 :
  dispatcher = SrcIndex.autoComment ∨ dispatcher = RootIndex.autoComment →
  same_but_counter account1 account2 →
  sim st1 st2 →
  let '(r1, st1') := dispatcher env steamID account1 st1 in
  let '(r2, st2') := dispatcher env steamID account2 st2 in
  r1 = r2
  ∧ trace st1' = trace st2'
  ∧ successfulComments st1' = successfulComments st2'
  ∧ sim st1' st2'
  ∧ (coolingDown env account1 (now st1) = false →
     counter_reset (account1 !! "login") st1'
     ∧ counter_reset (account2 !! "login") st2').
Proof.
  intros Hd Hsame Hsim.
  pose proof (agree_autoComment env account1 account2 Hsame dispatcher steamID Hd
                st1 st2 Hsim) as [Hr Hs].
  pose proof (autoComment_resets env account1 dispatcher steamID st1 Hd) as H1.
  pose proof (autoComment_resets env account2 dispatcher steamID st2 Hd) as H2.
  rewrite <- (same_coolingDown env account1 account2 Hsame), <- (proj1 Hsim) in H2.
  destruct (dispatcher env steamID account1 st1) as [r1 st1'].
  destruct (dispatcher env steamID account2 st2) as [r2 st2'].
  simpl in *. split; [done|]. split; [apply Hs|]. split; [apply Hs|]. split; [done|].
  intros Hc. split; auto.
Qed.

Lemma root_abort env steamID (account : Account) st json :
  coolingDown env account (now st) = false →
  fetch_steamprofiles env (calls st) = Ok json →
  (∀ items, normalize json ≠ Ok (Some items)) →
  RootIndex.autoComment env steamID account st
  = (Ok tt,
     answered env
       (emit EGetSteamProfiles
          (do_updateAccount (account !! "login") {[ "commentCounter" := JNum 0 ]} st).2)).
Proof.
  intros Hc Hf Hn. unfold RootIndex.autoComment, try_catch, RootIndex.body.
  rewrite Hc. unfold bind at 1. unfold do_updateAccount at 1.
  destruct (updateAccount (accounts st) (account !! "login") _ (disk st)) as [a d] eqn:U.
  unfold bind at 1. unfold api.getSteamProfiles at 1. simpl calls. rewrite Hf.
  unfold do_updateAccount. rewrite U. simpl snd.
  specialize (Hn). unfold normalize in Hn.
  destruct (api.unwrap_data json) as [response|e]; [|done].
  unfold bind at 1, lift at 1.
  destruct (RootIndex.extract response) as [[items|]|e]; [by destruct (Hn items)|done..].
Qed.

Lemma root_abort_second env steamID (account : Account) st json items m added json' :
  coolingDown env account (now st) = false →
  fetch_steamprofiles env (calls st) = Ok json →
  normalize json = Ok (Some items) →
  collect items no_profiles = Ok m →
  registered m steamID = false →
  fetch_steamprofiles_add env (S (calls st)) steamID = Ok added →
  fetch_steamprofiles env (S (S (calls st))) = Ok json' →
  (∀ items', normalize json' ≠ Ok (Some items')) →
  ∃ st', RootIndex.autoComment env steamID account st = (Ok tt, st')
         ∧ trace st' = trace st ++ [EGetSteamProfiles; EAddSteamProfile steamID;
                                    EGetSteamProfiles].
Proof.
  intros Hc Hf Hn Hm Hr Ha Hf' Hn'. unfold RootIndex.autoComment, try_catch, RootIndex.body.
  rewrite Hc. unfold bind at 1. unfold do_updateAccount at 1.
  destruct (updateAccount (accounts st) (account !! "login") _ (disk st)) as [a d] eqn:U.
  unfold bind at 1. unfold api.getSteamProfiles at 1. simpl calls. rewrite Hf.
  unfold normalize in Hn, Hn'.
  destruct (api.unwrap_data json) as [response|e]; [|done].
  unfold bind at 1, lift at 1. rewrite Hn.
  unfold bind at 1, lift at 1. rewrite Hm, Hr.
  unfold bind at 1. unfold api.addSteamProfile at 1. simpl calls. rewrite Ha.
  unfold bind at 1. unfold api.getSteamProfiles at 1. simpl calls. rewrite Hf'.
  destruct (api.unwrap_data json') as [response'|e'].
  - unfold bind at 1, lift at 1.
    destruct (RootIndex.extract response') as [[items'|]|e']; [by destruct (Hn' items')|..].
    + eexists; split; [reflexivity|]. simpl. rewrite <- !app_assoc. reflexivity.
    + eexists; split; [reflexivity|]. simpl. rewrite <- !app_assoc. reflexivity.
  - eexists; split; [reflexivity|]. simpl. rewrite <- !app_assoc. reflexivity.
Qed.

(** C8.  The client's [getSteamProfiles] followed by the second script's
    envelope detection turns a bare array, or an object whose [data],
    [profiles] or [steamProfiles] field is an array (taken in that order),
    into that array; for any other answer (a string, a number, [null], an
    object without such a field) [autoComment] returns normally right after
    the listing call, with no further call or post; and neither
    [autoComment] nor [processAccount] nor [startWork] ends by an
    exception. *)
Theorem malformed_listing_aborts_cleanly env steamID (account : Account) st json :
  fetch_steamprofiles env (calls st) = Ok json →
  coolingDown env account (now st) = false →
  (* the shapes that are accepted *)
  match json with
  | JArr items => normalize json = Ok (Some items)
  | JObj fields =>
      match JS.assoc "data" fields with
      | Some (JArr items) => normalize json = Ok (Some items)
      | _ =>
          match JS.assoc "profiles" fields with
          | Some (JArr items) => normalize json = Ok (Some items)
          | _ =>
              match JS.assoc "steamProfiles" fields with
              | Some (JArr items) => normalize json = Ok (Some items)
              | _ => normalize json = Ok None
              end
          end
      end
  | JNull => normalize json = Throw JS.TypeError
  | _ => normalize json = Ok None
  end
  (* any other shape ends the cycle after the listing call *)
  ∧ ((∀ items, normalize json ≠ Ok (Some items)) →
     ∃ st', RootIndex.autoComment env steamID account st = (Ok tt, st')
            ∧ trace st' = trace st ++ [EGetSteamProfiles])
  (* the same for the listing fetched after the account was registered *)
  ∧ (∀ items m added json',
       normalize json = Ok (Some items) →
       collect items no_profiles = Ok m →
       registered m steamID = false →
       fetch_steamprofiles_add env (S (calls st)) steamID = Ok added →
       fetch_steamprofiles env (S (S (calls st))) = Ok json' →
       (∀ items', normalize json' ≠ Ok (Some items')) →
       ∃ st', RootIndex.autoComment env steamID account st = (Ok tt, st')
              ∧ trace st' = trace st ++ [EGetSteamProfiles; EAddSteamProfile steamID;
                                         EGetSteamProfiles])
  (* and nothing is thrown into the batch, whatever the listing is *)
  ∧ (RootIndex.autoComment env steamID account st).1 = Ok tt
  ∧ ∀ events e,
      (processAccount env RootIndex.autoComment account (events 0) st).1 ≠ crashed e
      ∧ (startWork env RootIndex.autoComment events st).1 ≠ crashed e.
Proof.
  intros Hf Hc. split; [apply normalize_cases|]. split; [|split; [|split]].
  - intros Hn. eexists. split; [exact (root_abort env steamID account st json Hc Hf Hn)|done].
  - intros items m added json' Hn Hm Hr Ha Hf' Hn'.
    by apply (root_abort_second env steamID account st json items m added json').
  - apply autoComment_returns. by right.
  - intros events e. split.
    + pose proof (processAccount_outcome env RootIndex.autoComment (or_intror eq_refl)
                    account (events 0) st) as H.
      destruct (processAccount env RootIndex.autoComment account (events 0) st) as [o st'].
      destruct H as ([-> | ->] & _); done.
    + pose proof (startWork_outcome env RootIndex.autoComment events st
                    (or_intror eq_refl)) as H.
      destruct (startWork env RootIndex.autoComment events st) as [o st'].
      simpl in H. destruct H as ([-> | ->] & _); done.
Qed.

(** [src/index.js] has no envelope detection of its own: only [data] is
    unwrapped (by the client), and an object with a [profiles] array ends
    the cycle through the [catch]. *)
Lemma src_script_unwraps_data_only :
  let json := JObj [("profiles", JArr [])] in
  let st := Demo.loaded [Demo.alice] in
  normalize json = Ok (Some [])
  ∧ SrcIndex.autoComment (Demo.env_listing (Ok json)) Demo.steamID64 Demo.alice st
    = (Ok tt,
       answered Demo.env
         (emit EGetSteamProfiles
            (do_updateAccount (Demo.alice !! "login") {[ "commentCounter" := JNum 0 ]} st).2)).
Proof. split; by vm_compute. Qed.

(** ** Concrete runs *)


(** C1 as stated fails: a password account whose session reaches the
    disconnect confirmation is resolved although no token was issued. *)
Lemma password_session_resolves_without_token :
  let events := [loggedOn Demo.steamID64; webSession; disconnected] in
  let s := (session Demo.env SrcIndex.autoComment Demo.alice events
              (Demo.start [Demo.alice])).1 in
  JS.truthy (Demo.alice !! "refreshToken") = false
  ∧ (∀ t, refreshToken t ∉ events)
  ∧ promise s = Resolved
  ∧ isTokenRefreshed s = false.
Proof.
  split; [by vm_compute|]. split; [|split; by vm_compute].
  intros t H. repeat (apply elem_of_cons in H as [H|H]; [discriminate H|]).
  by apply elem_of_nil in H.
Qed.

(** The theorem at work: a token renewal after login. *)
Lemma resolved_only_after_login_witness :
  let events := [loggedOn Demo.steamID64; refreshToken "eyJ.new"] in
  let s := (session Demo.env SrcIndex.autoComment Demo.bob events
              (Demo.start [Demo.bob])).1 in
  promise s = Resolved
  ∧ isLoggedOn s = true
  ∧ (∃ steamID64, loggedOn steamID64 ∈ events)
  ∧ (isTokenRefreshed s = true →
     JS.truthy (Demo.bob !! "refreshToken") = true ∨ ∃ t, refreshToken t ∈ events)
  ∧ (JS.truthy (Demo.bob !! "refreshToken") = true → isTokenRefreshed s = true).
Proof.
  intros events s. split; [by vm_compute|].
  apply (resolved_only_after_login Demo.env SrcIndex.autoComment Demo.bob events
           (Demo.start [Demo.bob])).
  by vm_compute.
Defined.

(** The two orders of the two events, for an account that logs on with a
    password: when the token comes second its listener resolves the
    promise; when it comes first nothing resolves on login, and the promise
    stays pending with both flags set. *)
Lemma both_orders_of_login_and_token :
  let st := Demo.start [Demo.alice] in
  let token_last :=
    (session Demo.env SrcIndex.autoComment Demo.alice
       [loggedOn Demo.steamID64; refreshToken "eyJ.new"] st).1 in
  let token_first :=
    (session Demo.env SrcIndex.autoComment Demo.alice
       [refreshToken "eyJ.new"; loggedOn Demo.steamID64] st).1 in
  promise token_last = Resolved
  ∧ promise token_first = Pending
  ∧ isLoggedOn token_first = true
  ∧ isTokenRefreshed token_first = true.
Proof. repeat split; by vm_compute. Qed.

(** C2: the code at the failing input.  For an account that logs on with
    a refresh token, a token renewal after login resolves the promise:
    [processAccount] returns before the dispatcher has run ([early]), or
    after [logOff] while the [disconnected] listener is still pending
    ([late]); no [disconnected] event was received in either run. *)
Theorem token_renewal_returns_before_disconnect :
  let st := Demo.start [Demo.bob] in
  let early := [loggedOn Demo.steamID64; refreshToken "eyJ.new"] in
  let late := [loggedOn Demo.steamID64; webSession; refreshToken "eyJ.new"] in
  (processAccount Demo.env SrcIndex.autoComment Demo.bob early st).1 = returned
  ∧ trace (processAccount Demo.env SrcIndex.autoComment Demo.bob early st).2
    = [ELogOn (logOnOptions Demo.bob); ESetPersona 7]
  ∧ (processAccount Demo.env SrcIndex.autoComment Demo.bob late st).1 = returned
  ∧ last (trace (processAccount Demo.env SrcIndex.autoComment Demo.bob late st).2)
    = Some ELogOff
  ∧ disconnectedListeners (session Demo.env SrcIndex.autoComment Demo.bob late st).1 = 1
  ∧ (disconnected ∉ early) ∧ (disconnected ∉ late).
Proof.
  repeat split; try (by vm_compute).
  - intros H. repeat (apply elem_of_cons in H as [H|H]; [discriminate H|]).
    by apply elem_of_nil in H.
  - intros H. repeat (apply elem_of_cons in H as [H|H]; [discriminate H|]).
    by apply elem_of_nil in H.
Qed.

(** C3 as stated fails: a message that contains the posting-frequency
    text after the comment-settings text is retried, and the second task
    is attempted as well. *)
Lemma mixed_message_is_retried :
  let env := Demo.env_posting (λ _, Ok (Some Demo.both_messages)) in
  let st' := (SrcIndex.autoComment env Demo.steamID64 Demo.alice
                (Demo.loaded [Demo.alice])).2 in
  let userID := Some (JStr "76561198000001") in
  let text := Some (JStr "+rep") in
  JS.includes Demo.both_messages frequency_message = true
  ∧ trace st' !! 2 = Some (EPostUserComment userID text (Ok (Some Demo.both_messages)))
  ∧ trace st' !! 4 = Some (EPostUserComment userID text (Ok (Some Demo.both_messages)))
  ∧ count is_post (trace st') = 6.
Proof. repeat split; by vm_compute. Qed.

(** The theorem at work: the first post is answered with the
    posting-frequency message. *)
Lemma rate_limit_ends_cycle_witness :
  let env := Demo.env_posting (λ _, Ok (Some frequency_message)) in
  let st := Demo.loaded [Demo.alice] in
  let st' := (SrcIndex.autoComment env Demo.steamID64 Demo.alice st).2 in
  let userID := Some (JStr "76561198000001") in
  let text := Some (JStr "+rep") in
  let pre := [EGetSteamProfiles; EGetTasks (Some (JNum 41))] in
  (JS.includes frequency_message frequency_message = true
   ∧ JS.includes frequency_message settings_message = false
   ∧ trace st' = trace st ++ pre ++ [EPostUserComment userID text (Ok (Some frequency_message))]
   ∧ primitive (Demo.alice !! "login") = true)
  ∧ stored st' (Demo.alice !! "login") "commentCounter" = Some (JNum 0)
  ∧ stored st' (Demo.alice !! "login") "lastComment" = Some (stamp env st').
Proof.
  intros env st st' userID text pre.
  assert (H1 : JS.includes frequency_message frequency_message = true) by (by vm_compute).
  assert (H2 : JS.includes frequency_message settings_message = false) by (by vm_compute).
  assert (H3 : trace st' = trace st ++ pre
                           ++ [EPostUserComment userID text (Ok (Some frequency_message))])
    by (by vm_compute).
  assert (H4 : primitive (Demo.alice !! "login") = true) by (by vm_compute).
  split; [done|].
  exact (proj2 (rate_limit_ends_cycle env SrcIndex.autoComment Demo.steamID64 Demo.alice st
                  pre userID text frequency_message [] (or_introl eq_refl) H1 H2 H3) H4).
Defined.

(** C4 as stated fails in the second script: each task is posted once. *)
Lemma second_script_does_not_retry :
  let msg := settings_message in
  let env := Demo.env_posting (λ _, Ok (Some msg)) in
  let st' := (RootIndex.autoComment env Demo.steamID64 Demo.alice
                (Demo.loaded [Demo.alice])).2 in
  transient msg = true
  ∧ trace st'
    = [EGetSteamProfiles; EGetTasks (Some (JNum 41));
       EPostUserComment (Some (JStr "76561198000001")) (Some (JStr "+rep")) (Ok (Some msg));
       ESleep 15000;
       EPostUserComment (Some (JStr "76561198000002")) (Some (JStr "+rep")) (Ok (Some msg));
       ESleep 15000].
Proof. split; by vm_compute. Qed.

(** The theorem at work: every post is refused by the comment settings. *)
Lemma transient_failures_retry_policy_witness :
  let msg := settings_message in
  let env := Demo.env_posting (λ _, Ok (Some msg)) in
  let st := Demo.loaded [Demo.alice] in
  let userID := Some (JStr "76561198000001") in
  let text := Some (JStr "+rep") in
  let st3 := slept 5000 (failed_post env userID text msg
              (slept 5000 (failed_post env userID text msg
                (slept 5000 (failed_post env userID text msg st))))) in
  (JS.getProp (Some (Demo.task 1)) "targetSteamProfileId" = Ok userID
   ∧ JS.getProp (Some (Demo.task 1)) "requiredCommentText" = Ok text
   ∧ successfulComments st < maxComments
   ∧ postUserComment env (calls st) userID text = Ok (Some msg)
   ∧ transient msg = true)
  ∧ SrcIndex.attempts env Demo.alice (Some (JNum 41)) (Demo.task 1) SrcIndex.maxAttempts st
    = (Ok Next, st3)
  ∧ successfulComments st3 = successfulComments st
  ∧ RootIndex.forTasks env Demo.alice (Some (JNum 41)) [Demo.task 1; Demo.task 2] st
    = RootIndex.forTasks env Demo.alice (Some (JNum 41)) [Demo.task 2]
        (slept 15000 (failed_post env userID text msg st)).
Proof.
  intros msg env st userID text st3.
  assert (H1 : JS.getProp (Some (Demo.task 1)) "targetSteamProfileId" = Ok userID)
    by (by vm_compute).
  assert (H2 : JS.getProp (Some (Demo.task 1)) "requiredCommentText" = Ok text)
    by (by vm_compute).
  assert (H3 : successfulComments st < maxComments) by (vm_compute; lia).
  assert (H4 : postUserComment env (calls st) userID text = Ok (Some msg)) by done.
  assert (H5 : transient msg = true) by (by vm_compute).
  split; [done|].
  destruct (transient_failures_retry_policy env Demo.alice (Some (JNum 41)) (Demo.task 1)
              [Demo.task 2] userID text msg msg msg st H1 H2 H3 H4 H5)
    as (_ & Hsrc & Hroot).
  destruct (Hsrc eq_refl H5 eq_refl H5) as (Ha & _ & Hc & _).
  done.
Defined.



(** Twelve tasks on offer: ten are posted and reported, two are left. *)
Lemma twelve_tasks_ten_comments :
  let tasks := JArr (Demo.task <$> [1; 2; 3; 4; 5; 6; 7; 8; 9; 10; 11; 12]%Z) in
  let st' := (SrcIndex.autoComment (Demo.env_tasks (Ok tasks)) Demo.steamID64 Demo.alice
                (Demo.loaded [Demo.alice])).2 in
  count is_post (trace st') = 10
  ∧ count accepted (trace st') = 10
  ∧ count is_report (trace st') = 10
  ∧ successfulComments st' = 10.
Proof. repeat split; by vm_compute. Qed.

(** The theorem at work: [carol] commented a second ago. *)
Lemma cooling_account_is_left_alone_witness :
  let st := Demo.loaded [Demo.carol] in
  (JS.truthy (Demo.carol !! "lastComment") = true
   ∧ Date_getTime Demo.env (Demo.carol !! "lastComment") = Some Demo.noon
   ∧ (now st - Demo.noon < twentyFourHours)%Z)
  ∧ SrcIndex.autoComment Demo.env "76561198000000003" Demo.carol st = (Ok tt, st)
  ∧ RootIndex.autoComment Demo.env "76561198000000003" Demo.carol st = (Ok tt, st)
  ∧ ∀ dispatcher events i rest,
      forAccounts Demo.env dispatcher events i (Demo.carol :: rest) st
      = forAccounts Demo.env dispatcher events (S i) rest st.
Proof.
  intros st.
  assert (H1 : JS.truthy (Demo.carol !! "lastComment") = true) by (by vm_compute).
  assert (H2 : Date_getTime Demo.env (Demo.carol !! "lastComment") = Some Demo.noon)
    by (by vm_compute).
  assert (H3 : (now st - Demo.noon < twentyFourHours)%Z) by (by vm_compute).
  split; [done|].
  exact (cooling_account_is_left_alone Demo.env "76561198000000003" Demo.carol Demo.noon st
           H1 H2 H3).
Defined.


(** The theorem at work: the listing call answers with a string. *)
Lemma malformed_listing_aborts_cleanly_witness :
  let json := JStr "Too many requests" in
  let env := Demo.env_listing (Ok json) in
  let st := Demo.loaded [Demo.alice] in
  (fetch_steamprofiles env (calls st) = Ok json
   ∧ coolingDown env Demo.alice (now st) = false)
  ∧ normalize json = Ok None
  ∧ (∃ st', RootIndex.autoComment env Demo.steamID64 Demo.alice st = (Ok tt, st')
            ∧ trace st' = trace st ++ [EGetSteamProfiles]).
Proof.
  intros json env st.
  assert (H1 : fetch_steamprofiles env (calls st) = Ok json) by done.
  assert (H2 : coolingDown env Demo.alice (now st) = false) by (by vm_compute).
  split; [done|].
  destruct (malformed_listing_aborts_cleanly env Demo.steamID64 Demo.alice st json H1 H2)
    as (Hn & Ha & _ & _).
  change (normalize json = Ok None) in Hn.
  split; [exact Hn|]. apply Ha. intros items. rewrite Hn. discriminate.
Defined.

(** The theorem at work: the stored counter is 4 in one run and 9 in the
    other. *)
Lemma counter_never_gates_witness :
  let st1 := Demo.loaded [Demo.alice] in
  let st2 := Demo.loaded [Demo.alice'] in
  let run1 := SrcIndex.autoComment Demo.env Demo.steamID64 Demo.alice st1 in
  let run2 := SrcIndex.autoComment Demo.env Demo.steamID64 Demo.alice' st2 in
  (same_but_counter Demo.alice Demo.alice'
   ∧ sim st1 st2
   ∧ Demo.alice !! "commentCounter" ≠ Demo.alice' !! "commentCounter")
  ∧ run1.1 = run2.1
  ∧ trace run1.2 = trace run2.2
  ∧ successfulComments run1.2 = successfulComments run2.2.
Proof.
  intros st1 st2 run1 run2.
  assert (H1 : same_but_counter Demo.alice Demo.alice') by (by vm_compute).
  assert (H2 : sim st1 st2).
  { unfold sim. repeat split; try done.
    - by repeat constructor.
    - by repeat constructor. }
  split; [split; [exact H1|split; [exact H2|by vm_compute]]|].
  pose proof (counter_never_gates Demo.env SrcIndex.autoComment Demo.steamID64
                Demo.alice Demo.alice' st1 st2 (or_introl eq_refl) H1 H2) as H.
  subst run1 run2.
  destruct (SrcIndex.autoComment Demo.env Demo.steamID64 Demo.alice st1) as [r1 st1'].
  destruct (SrcIndex.autoComment Demo.env Demo.steamID64 Demo.alice' st2) as [r2 st2'].
  destruct H as (Hr & Ht & Hc & _). done.
Defined.

(** ** The store: reading back, composing updates, unique logins *)

Lemma strict_eq_true a b : JS.strict_eq a b = true → a = b.
Proof.
  destruct a as [[| x | x | x | |]|], b as [[| y | y | y | |]|]; simpl; try done.
  - intros H. apply Bool.eqb_prop in H. by subst.
  - intros H. apply Z.eqb_eq in H. by subst.
  - intros H. apply String.eqb_eq in H. by subst.
Qed.

Lemma strict_eq_primitive a b : JS.strict_eq a b = true → primitive a = true.
Proof. by destruct a as [[| x | x | x | |]|], b as [[| y | y | y | |]|]. Qed.

Lemma updateAccount_found (accounts : list Account) login updates fs i acc :
  getAccount accounts login = Some (i, acc) →
  updateAccount accounts login updates fs
  = (<[ i := updates ∪ acc ]> accounts, Some (<[ i := updates ∪ acc ]> accounts)).
Proof. intros G. unfold updateAccount. by rewrite G. Qed.

Lemma updateAccount_missing (accounts : list Account) login updates fs :
  getAccount accounts login = None →
  updateAccount accounts login updates fs
  = (accounts ++ [newRecord login updates], Some (accounts ++ [newRecord login updates])).
Proof. intros G. unfold updateAccount. by rewrite G. Qed.

(** The login of the record an update leaves: the one looked for. *)
Lemma merged_login (updates acc : Account) login :
  keeps_login login updates →
  JS.strict_eq (acc !! "login") login = true →
  (updates ∪ acc) !! "login" = acc !! "login".
Proof.
  intros [Hu|Hu] Ha.
  - by apply lookup_union_r.
  - destruct (updates !! "login") as [v|] eqn:E; [|by apply lookup_union_r].
    apply strict_eq_true in Hu, Ha. rewrite Ha, <- Hu.
    by apply lookup_union_Some_l.
Qed.

Lemma newRecord_keeps_login (updates : Account) login :
  keeps_login login updates → primitive login = true →
  JS.strict_eq (newRecord login updates !! "login") login = true.
Proof.
  intros [Hu|Hu] Hp.
  - rewrite newRecord_login by done. by apply strict_eq_refl.
  - destruct (updates !! "login") as [v|] eqn:E.
    + rewrite newRecord_named by (by eexists). by rewrite E.
    + rewrite newRecord_login by done. by apply strict_eq_refl.
Qed.

Lemma getAccount_after_update (accounts : list Account) login updates fs :
  primitive login = true →
  keeps_login login updates →
  ∃ i record,
    getAccount (updateAccount accounts login updates fs).1 login = Some (i, record)
    ∧ (updateAccount accounts login updates fs).1 !! i = Some record
    ∧ (∀ k v, updates !! k = Some v → record !! k = Some v)
    ∧ match getAccount accounts login with
      | Some (j, acc) => i = j ∧ record = updates ∪ acc
      | None => i = length accounts ∧ record = newRecord login updates
      end.
Proof.
  intros Hp Hk. destruct (getAccount accounts login) as [[j acc]|] eqn:G.
  - rewrite (updateAccount_found _ _ _ _ _ _ G). simpl.
    destruct (getAccount_Some _ _ _ _ G) as (Hj & Hl & _).
    exists j, (updates ∪ acc). split; [|split; [|split]].
    + apply (getAccount_insert _ _ _ _ _ G). by apply (merged_login _ _ login).
    + apply list_lookup_insert_eq. by eapply lookup_lt_Some.
    + intros k v Hv. by apply lookup_union_Some_l.
    + done.
  - rewrite (updateAccount_missing _ _ _ _ G). simpl.
    exists (length accounts), (newRecord login updates). split; [|split; [|split]].
    + apply (getAccount_app _ _ _ G). by apply newRecord_keeps_login.
    + rewrite lookup_app_r by lia. by rewrite Nat.sub_diag.
    + intros k v Hv. rewrite newRecord_named by (by eexists). done.
    + done.
Qed.

(** X1.  Reading after writing.  After [updateAccount] for a login that
    [===] compares by value, with fields that do not give the record
    another login, loading the file returns the array as the call left it,
    and [getAccount] finds in it a record that has every field given; when
    a record was found before, it is found at the same place and keeps
    the fields that were not given; when none was, the record found is
    the last one. *)
Theorem updateAccount_read_after_write (accounts : list Account) login updates fs :
  primitive login = true →
  keeps_login login updates →
  let '(accounts', fs') := updateAccount accounts login updates fs in
  loadAccounts fs' = (accounts', fs')
  ∧ ∃ i record,
      getAccount accounts' login = Some (i, record)
      ∧ (∀ k v, updates !! k = Some v → record !! k = Some v)
      ∧ (∀ j acc, getAccount accounts login = Some (j, acc) →
         i = j ∧ ∀ k, updates !! k = None → record !! k = acc !! k)
      ∧ (getAccount accounts login = None → i = length accounts).
Proof.
  intros Hp Hk.
  destruct (getAccount_after_update accounts login updates fs Hp Hk)
    as (i & record & Hg & _ & Hu & Hm).
  destruct (updateAccount accounts login updates fs) as [accounts' fs'] eqn:E.
  assert (fs' = Some accounts') as ->.
  { unfold updateAccount, saveAccounts in E. by injection E as <- <-. }
  split; [done|]. exists i, record. simpl in Hg. split; [done|]. split; [done|].
  split.
  - intros j acc G. rewrite G in Hm. destruct Hm as [-> ->]. split; [done|].
    intros k Hn. by apply lookup_union_r.
  - intros G. rewrite G in Hm. by destruct Hm.
Qed.

Lemma newRecord_union login (u1 u2 : Account) :
  u2 ∪ newRecord login u1 = newRecord login (u2 ∪ u1).
Proof. unfold newRecord. by rewrite (assoc_L (∪)). Qed.

Lemma updateAccount_compose (accounts : list Account) login u1 u2 fs :
  primitive login = true →
  keeps_login login u1 →
  updateAccount (updateAccount accounts login u1 fs).1 login u2
    (updateAccount accounts login u1 fs).2
  = updateAccount accounts login (u2 ∪ u1) fs.
Proof.
  intros Hp Hk. destruct (getAccount accounts login) as [[j acc]|] eqn:G.
  - rewrite (updateAccount_found _ _ u1 _ _ _ G). simpl.
    destruct (getAccount_Some _ _ _ _ G) as (Hj & Hl & _).
    rewrite (updateAccount_found _ _ u2 _ j (u1 ∪ acc)).
    2:{ apply (getAccount_insert _ _ _ _ _ G). by apply (merged_login _ _ login). }
    rewrite (updateAccount_found _ _ (u2 ∪ u1) _ _ _ G).
    by rewrite list_insert_insert_eq, (assoc_L (∪)).
  - rewrite (updateAccount_missing _ _ u1 _ G). simpl.
    rewrite (updateAccount_found _ _ u2 _ (length accounts) (newRecord login u1)).
    2:{ apply (getAccount_app _ _ _ G). by apply newRecord_keeps_login. }
    rewrite (updateAccount_missing _ _ (u2 ∪ u1) _ G).
    rewrite insert_app_r_alt by lia. rewrite Nat.sub_diag. simpl.
    by rewrite newRecord_union.
Qed.


Lemma strict_eq_sym a b : JS.strict_eq a b = JS.strict_eq b a.
Proof.
  destruct a as [[| x | x | x | |]|], b as [[| y | y | y | |]|]; simpl; try done.
  - by destruct x, y.
  - apply Z.eqb_sym.
  - apply String.eqb_sym.
Qed.

Lemma unique_logins_app (l : list Account) (r : Account) :
  unique_logins (l ++ [r]) = true
  ↔ unique_logins l = true
    ∧ ∀ a, a ∈ l → JS.strict_eq (a !! "login") (r !! "login") = false.
Proof.
  induction l as [|a0 rest IH]; simpl.
  - split; [intros _; split; [done|]; intros a Ha; by apply elem_of_nil in Ha|done].
  - rewrite !andb_true_iff, !forallb_forall, IH. split.
    + intros [H1 [H2 H3]]. split; [split; [|done]|].
      * intros b Hb. apply H1, in_app_iff. by left.
      * intros a [->|Ha]%elem_of_cons; [|by apply H3].
        apply negb_true_iff, H1, in_app_iff. right. by left.
    + intros [[H1 H2] H3]. split; [|split; [done|]].
      * intros b [Hb|[<-|[]]]%in_app_iff; [by apply H1|].
        apply negb_true_iff, H3. by left.
      * intros a Ha. apply H3. by right.
Qed.

Lemma unique_logins_insert (l : list Account) i (acc record : Account) :
  l !! i = Some acc →
  record !! "login" = acc !! "login" →
  unique_logins (<[ i := record ]> l) = unique_logins l.
Proof.
  revert i. induction l as [|a0 rest IH]; intros i Hi Hl; [done|].
  destruct i as [|i]; simpl in *.
  - injection Hi as ->. by rewrite Hl.
  - rewrite (IH i Hi Hl). f_equal.
    clear IH. revert i Hi. induction rest as [|b rest' IH']; intros i Hi; [done|].
    destruct i as [|i]; simpl in *.
    + injection Hi as ->. by rewrite Hl.
    + by rewrite (IH' i Hi).
Qed.

Lemma updateAccount_unique (accounts : list Account) login updates fs :
  keeps_login login updates →
  unique_logins accounts = true →
  unique_logins (updateAccount accounts login updates fs).1 = true.
Proof.
  intros Hk Hu. destruct (getAccount accounts login) as [[j acc]|] eqn:G.
  - rewrite (updateAccount_found _ _ _ _ _ _ G). simpl.
    destruct (getAccount_Some _ _ _ _ G) as (Hj & Hl & _).
    rewrite (unique_logins_insert _ _ acc); [done..|]. by apply (merged_login _ _ login).
  - rewrite (updateAccount_missing _ _ _ _ G). simpl.
    apply unique_logins_app. split; [done|]. intros a Ha.
    pose proof (getAccount_None _ _ G a Ha) as Hne.
    destruct (JS.strict_eq (a !! "login") (newRecord login updates !! "login")) eqn:E;
      [|done].
    assert (primitive (a !! "login") = true) as Hpa by (by eapply strict_eq_primitive).
    apply strict_eq_true in E.
    destruct Hk as [Hn|Hs].
    + rewrite newRecord_login in E by done. rewrite <- E in Hne.
      by rewrite strict_eq_refl in Hne.
    + destruct (updates !! "login") as [v|] eqn:Ev.
      * rewrite newRecord_named in E by (by eexists). rewrite Ev in E.
        apply strict_eq_true in Hs. rewrite Hs in E. rewrite <- E in Hne.
        by rewrite strict_eq_refl in Hne.
      * rewrite newRecord_login in E by done. rewrite <- E in Hne.
        by rewrite strict_eq_refl in Hne.
Qed.

(** X3.  [updateAccount] keeps the logins of the store pairwise
    different, provided the fields given do not rename the record; the
    store keeps its length when a record has the login and grows by one
    record when none has. *)
Theorem updateAccount_keeps_unique_logins (accounts : list Account) login updates fs :
  keeps_login login updates →
  unique_logins accounts = true →
  let '(accounts', fs') := updateAccount accounts login updates fs in
  unique_logins accounts' = true
  ∧ (length accounts' = length accounts ∨ length accounts' = S (length accounts))
  ∧ (length accounts' = length accounts ↔ is_Some (getAccount accounts login)).
Proof.
  intros Hk Hu. pose proof (updateAccount_unique accounts login updates fs Hk Hu) as H.
  destruct (getAccount accounts login) as [[j acc]|] eqn:G.
  - rewrite (updateAccount_found _ _ _ _ _ _ G) in *. simpl in H.
    split; [done|]. rewrite length_insert. split; [by left|]. split; [by eexists|done].
  - rewrite (updateAccount_missing _ _ _ _ G) in *. simpl in H.
    split; [done|]. rewrite length_app. simpl. split; [right; lia|].
    split; [lia|]. by intros [? ?].
Qed.

(** ** The client's unwrapping and the profile mapping *)

(** X4.  The unwrapping done by [getSteamProfiles] never throws; applied
    to its own result it changes nothing; it returns the response itself
    or the array found under [data]; and the envelope detection of the
    second script finds the same list after it as without it. *)
Theorem unwrap_data_is_subsumed (json : JVal) :
  ∃ response,
    api.unwrap_data json = Ok response
    ∧ api.unwrap_data response = Ok response
    ∧ RootIndex.extract response = RootIndex.extract json
    ∧ normalize json = RootIndex.extract json
    ∧ (response = json
       ∨ ∃ items, response = JArr items
                  ∧ JS.getProp (Some json) "data" = Ok (Some (JArr items))).
Proof.
  unfold normalize.
  assert (Hother : ∀ json, (∀ fields, json ≠ JObj fields) →
            ∃ response,
              api.unwrap_data json = Ok response
              ∧ api.unwrap_data response = Ok response
              ∧ RootIndex.extract response = RootIndex.extract json
              ∧ match api.unwrap_data json with
                | Ok response => RootIndex.extract response
                | Throw e => Throw e
                end = RootIndex.extract json
              ∧ (response = json
                 ∨ ∃ items, response = JArr items
                            ∧ JS.getProp (Some json) "data" = Ok (Some (JArr items)))).
  { intros j Hj. exists j. rewrite (unwrap_data_other j Hj). repeat split; by left. }
  destruct json as [| b | z | s | items | fields]; try (by apply Hother).
  rewrite unwrap_data_object.
  destruct (JS.assoc "data" fields) as [[| b | z | s | items | fields']|] eqn:Ha;
    try (exists (JObj fields); rewrite unwrap_data_object, Ha; repeat split; by left).
  exists (JArr items). repeat split.
  - unfold RootIndex.extract. simpl. by rewrite Ha.
  - unfold RootIndex.extract. simpl. by rewrite Ha.
  - right. exists items. simpl. by rewrite Ha.
Qed.












(** ** Pacing: a delay between any two posts *)

Lemma heat_app hot a b :
  heat hot (a ++ b) = match heat hot a with
                      | Some hot' => heat hot' b
                      | None => None
                      end.
Proof.
  revert hot. induction a as [|e a IH]; intros hot; [done|].
  destruct e; simpl; try apply IH. destruct hot; [done|apply IH].
Qed.

(** Read from a hot start, a well-paced trace has a long delay before its
    first post. *)
Lemma heat_hot tr j e :
  is_Some (heat true tr) → tr !! j = Some e → is_post e = true →
  ∃ k millis, k < j ∧ tr !! k = Some (ESleep millis) ∧ (5000 ≤ millis)%Z.
Proof.
  revert j. induction tr as [|e0 tr IH]; intros j Hh Hj He; [done|].
  destruct j as [|j].
  { injection Hj as ->. destruct e; try done. simpl in Hh. by destruct Hh. }
  simpl in Hj.
  assert (Hnext : is_Some (heat true tr) → ∃ k millis,
            k < S j ∧ (e0 :: tr) !! k = Some (ESleep millis) ∧ (5000 ≤ millis)%Z).
  { intros H. destruct (IH j H Hj He) as (k & ms & Hk & Hs & Hms).
    exists (S k), ms. split; [lia|]. by split. }
  destruct e0; try (by apply Hnext).
  - simpl in Hh. by destruct Hh.
  - simpl in Hh. destruct (millis <? 5000)%Z eqn:E; [by apply Hnext|].
    exists 0, millis. split; [lia|]. split; [done|]. by apply Z.ltb_ge.
Qed.

Lemma heat_paced tr hot i j e1 e2 :
  is_Some (heat hot tr) → i < j →
  tr !! i = Some e1 → is_post e1 = true →
  tr !! j = Some e2 → is_post e2 = true →
  ∃ k millis, i < k < j ∧ tr !! k = Some (ESleep millis) ∧ (5000 ≤ millis)%Z.
Proof.
  revert hot i j. induction tr as [|e0 tr IH]; intros hot i j Hh Hij Hi H1 Hj H2; [done|].
  destruct j as [|j]; [lia|]. simpl in Hj. destruct i as [|i].
  - injection Hi as ->. destruct e1; try done. simpl in Hh.
    destruct hot; [by destruct Hh|].
    destruct (heat_hot tr j e2 Hh Hj H2) as (k & ms & Hk & Hs & Hms).
    exists (S k), ms. split; [lia|]. by split.
  - simpl in Hi.
    assert (∃ hot', is_Some (heat hot' tr)) as [hot' Hh'].
    { destruct e0; simpl in Hh; try (by exists hot).
      - destruct hot; [by destruct Hh|by exists true].
      - by eexists. }
    destruct (IH hot' i j Hh' ltac:(lia) Hi H1 Hj H2) as (k & ms & Hk & Hs & Hms).
    exists (S k), ms. split; [lia|]. by split.
Qed.

Section Pacing.
Variable env : Env.
Variable account : Account.
Variable tr0 : list Effect.

Lemma cold_warm st : cold tr0 st → warm tr0 st.
Proof. intros (new & H1 & H2). exists new. split; [done|]. by rewrite H2. Qed.

Lemma heat_snoc hot tr e :
  is_post e = false → (∀ millis, e ≠ ESleep millis) →
  heat hot (tr ++ [e]) = heat hot tr.
Proof.
  intros H1 H2. rewrite heat_app. destruct (heat hot tr) as [h|]; [|done].
  destruct e; try done. by destruct (H2 millis).
Qed.

Lemma stable_warm : stable (warm tr0) (λ e, negb (is_post e)).
Proof.
  split; [|by intros ? ? ?|by intros ? ? ?].
  intros e st He (new & H1 & H2). exists (new ++ [e]). simpl.
  rewrite H1, app_assoc. split; [done|]. rewrite heat_app.
  destruct H2 as [h H2]. rewrite H2. by destruct e.
Qed.

Lemma stable_cold : stable (cold tr0) (λ e, negb (is_post e)).
Proof.
  split; [|by intros ? ? ?|by intros ? ? ?].
  intros e st He (new & H1 & H2). exists (new ++ [e]). simpl.
  rewrite H1, app_assoc. split; [done|]. rewrite heat_app, H2. by destruct e.
Qed.

Lemma warm_ignores_store : ignores_store (warm tr0).
Proof. by intros a d st H. Qed.

Lemma cold_ignores_store : ignores_store (cold tr0).
Proof. by intros a d st H. Qed.

Lemma warm_ignores_count : ignores_count (warm tr0).
Proof. by intros n st H. Qed.

Lemma cold_ignores_count : ignores_count (cold tr0).
Proof. by intros n st H. Qed.

Lemma sleep_cools millis :
  (5000 ≤ millis)%Z → hoare (warm tr0) (sleep millis) (λ _, cold tr0).
Proof.
  intros Hms st (new & H1 & [h H2]). exists (new ++ [ESleep millis]). simpl.
  rewrite H1, app_assoc. split; [done|]. rewrite heat_app, H2. simpl.
  assert ((millis <? 5000)%Z = false) as -> by (by apply Z.ltb_ge).
  by rewrite andb_false_r.
Qed.

Lemma postUserComment_warms userID text :
  hoare (cold tr0) (do_postUserComment env userID text) (λ _, warm tr0).
Proof.
  intros st (new & H1 & H2). unfold do_postUserComment. simpl.
  exists (new ++ [EPostUserComment userID text (postUserComment env (calls st) userID text)]).
  simpl. rewrite H1, app_assoc. split; [done|]. rewrite heat_app, H2. by eexists.
Qed.

Lemma src_post_warms task :
  hoare (cold tr0) (SrcIndex.post env account task) (λ _, warm tr0).
Proof.
  unfold SrcIndex.post.
  eapply hoare_bind; [apply keeps_lift| |intros; by apply cold_warm]. intros userID.
  eapply hoare_bind; [apply keeps_lift| |intros; by apply cold_warm]. intros text.
  eapply hoare_bind; [apply postUserComment_warms| |done]. intros [msg|]; [|apply keeps_ret].
  destruct (JS.includes msg settings_message); [apply keeps_ret|].
  destruct (JS.includes msg frequency_message); [|apply keeps_ret].
  apply keeps_bind; [|intros ?; apply keeps_ret].
  apply keeps_stop_account, warm_ignores_store.
Qed.

Lemma src_complete_warm task profile :
  keeps (warm tr0) (SrcIndex.complete env task profile).
Proof.
  unfold SrcIndex.complete.
  apply keeps_bind; [apply keeps_lift|intros taskId].
  apply keeps_bind; [apply keeps_lift|intros commentId].
  apply keeps_bind; [by apply (keeps_completeTask _ _ stable_warm)|intros ?].
  intros st. apply warm_ignores_count.
Qed.

Lemma src_attempts_warm profile task remaining :
  hoare (cold tr0) (SrcIndex.attempts env account profile task remaining)
    (λ _, warm tr0).
Proof.
  induction remaining as [|n IH]; cbn [SrcIndex.attempts].
  - apply hoare_ret. intros st. apply cold_warm.
  - eapply hoare_bind; [apply src_post_warms| |done]. intros [| |].
    + apply keeps_bind; [apply src_complete_warm|intros ?; apply keeps_ret].
    + apply keeps_ret.
    + eapply hoare_bind; [apply sleep_cools; lia| |intros; by apply cold_warm]. intros ?. apply IH.
Qed.

Lemma src_forTasks_warm profile tasks :
  hoare (cold tr0) (SrcIndex.forTasks env account profile tasks) (λ _, warm tr0).
Proof.
  induction tasks as [|task rest IH]; cbn [SrcIndex.forTasks].
  - apply hoare_ret. intros st. apply cold_warm.
  - apply (hoare_guard _ (λ st, (maxComments <=? successfulComments st)%nat) (ret Next)).
    + apply hoare_ret. intros st [H _]. by apply cold_warm.
    + eapply hoare_conseq with (P' := cold tr0) (Q' := λ _, warm tr0);
        [|by intros st [H _]|done].
      eapply hoare_bind; [apply src_attempts_warm| |done]. intros [|].
      * eapply hoare_bind; [apply sleep_cools; lia| |intros; by apply cold_warm]. intros ?. apply IH.
      * apply keeps_ret.
Qed.

Lemma src_body_warm steamID :
  hoare (cold tr0) (SrcIndex.body env steamID account) (λ _, warm tr0).
Proof.
  assert (Hthrow : ∀ (e : string) st, cold tr0 st → warm tr0 st)
    by (intros; by apply cold_warm).
  unfold SrcIndex.body.
  apply (hoare_guard _ (λ st, coolingDown env account (now st)) (ret tt)).
  { apply hoare_ret. intros st [H _]. by apply cold_warm. }
  eapply hoare_conseq with (P' := cold tr0) (Q' := λ _, warm tr0);
    [|by intros st [H _]|done].
  eapply hoare_bind; [apply keeps_updateAccount, cold_ignores_store| |exact Hthrow].
  intros ?.
  eapply hoare_bind; [by apply (keeps_getSteamProfiles _ _ stable_cold)| |exact Hthrow].
  intros steamProfiles.
  eapply hoare_bind; [apply keeps_src_forEach| |exact Hthrow].
  intros m.
  eapply hoare_bind with (R := λ _, cold tr0); [| |exact Hthrow].
  { destruct (registered m steamID); [apply keeps_ret|].
    apply keeps_bind; [by apply (keeps_addSteamProfile _ _ stable_cold)|intros ?].
    apply keeps_bind; [by apply (keeps_getSteamProfiles _ _ stable_cold)|intros ?].
    apply keeps_src_forEach. }
  intros m'.
  eapply hoare_bind; [by apply (keeps_getTasks _ _ stable_cold)| |exact Hthrow].
  intros tasks.
  eapply hoare_bind with (R := λ _, cold tr0); [| |exact Hthrow].
  { intros st. apply cold_ignores_count. }
  intros ?.
  eapply hoare_bind; [apply keeps_lift| |exact Hthrow].
  intros items.
  eapply hoare_bind; [apply src_forTasks_warm| |done].
  intros [|]; [|apply keeps_ret].
  apply keeps_stamp_lastComment, warm_ignores_store.
Qed.

Lemma root_post_warms task :
  hoare (cold tr0) (RootIndex.post env account task) (λ _, warm tr0).
Proof.
  unfold RootIndex.post.
  eapply hoare_bind; [apply keeps_lift| |intros; by apply cold_warm]. intros userID.
  eapply hoare_bind; [apply keeps_lift| |intros; by apply cold_warm]. intros text.
  eapply hoare_bind; [apply postUserComment_warms| |done]. intros [msg|]; [|apply keeps_ret].
  destruct (JS.includes msg settings_message); [apply keeps_ret|].
  destruct (JS.includes msg frequency_message); [|apply keeps_ret].
  apply keeps_bind; [|intros ?; apply keeps_ret].
  apply keeps_stop_account, warm_ignores_store.
Qed.

Lemma root_complete_warm task profile :
  keeps (warm tr0) (RootIndex.complete env task profile).
Proof.
  unfold RootIndex.complete.
  apply keeps_bind; [apply keeps_lift|intros taskId].
  apply keeps_bind; [apply keeps_lift|intros commentId].
  apply keeps_bind; [by apply (keeps_completeTask _ _ stable_warm)|intros ?].
  intros st. apply warm_ignores_count.
Qed.

Lemma root_forTasks_warm profile tasks :
  hoare (cold tr0) (RootIndex.forTasks env account profile tasks) (λ _, warm tr0).
Proof.
  induction tasks as [|task rest IH]; cbn [RootIndex.forTasks].
  - apply hoare_ret. intros st. apply cold_warm.
  - apply (hoare_guard _ (λ st, (maxComments <=? successfulComments st)%nat) (ret tt)).
    + apply hoare_ret. intros st [H _]. by apply cold_warm.
    + eapply hoare_conseq with (P' := cold tr0) (Q' := λ _, warm tr0);
        [|by intros st [H _]|done].
      eapply hoare_bind; [apply root_post_warms| |done]. intros [| |].
      * eapply hoare_bind; [apply root_complete_warm| |done]. intros ?.
        eapply hoare_bind; [apply sleep_cools; lia| |intros; by apply cold_warm]. intros ?. apply IH.
      * eapply hoare_bind; [apply sleep_cools; lia| |intros; by apply cold_warm]. intros ?. apply IH.
      * apply keeps_ret.
Qed.

Lemma root_dispatch_warm steamID m :
  hoare (cold tr0) (RootIndex.dispatch env steamID account m) (λ _, warm tr0).
Proof.
  assert (Hthrow : ∀ (e : string) st, cold tr0 st → warm tr0 st)
    by (intros; by apply cold_warm).
  unfold RootIndex.dispatch.
  eapply hoare_bind; [by apply (keeps_getTasks _ _ stable_cold)| |exact Hthrow].
  intros tasks.
  eapply hoare_bind with (R := λ _, cold tr0); [| |exact Hthrow].
  { intros st. apply cold_ignores_count. }
  intros ?.
  eapply hoare_bind; [apply keeps_lift| |exact Hthrow].
  intros items.
  eapply hoare_bind; [apply root_forTasks_warm| |done].
  intros ?. apply keeps_stamp_lastComment, warm_ignores_store.
Qed.

Lemma root_body_warm steamID :
  hoare (cold tr0) (RootIndex.body env steamID account) (λ _, warm tr0).
Proof.
  assert (Hthrow : ∀ (e : string) st, cold tr0 st → warm tr0 st)
    by (intros; by apply cold_warm).
  unfold RootIndex.body.
  apply (hoare_guard _ (λ st, coolingDown env account (now st)) (ret tt)).
  { apply hoare_ret. intros st [H _]. by apply cold_warm. }
  eapply hoare_conseq with (P' := cold tr0) (Q' := λ _, warm tr0);
    [|by intros st [H _]|done].
  eapply hoare_bind; [apply keeps_updateAccount, cold_ignores_store| |exact Hthrow].
  intros ?.
  eapply hoare_bind; [by apply (keeps_getSteamProfiles _ _ stable_cold)| |exact Hthrow].
  intros response.
  eapply hoare_bind; [apply keeps_lift| |exact Hthrow].
  intros [items|]; [|apply hoare_ret; intros st H; by apply cold_warm].
  eapply hoare_bind; [apply keeps_lift| |exact Hthrow].
  intros m.
  destruct (registered m steamID); [apply root_dispatch_warm|].
  eapply hoare_bind; [by apply (keeps_addSteamProfile _ _ stable_cold)| |exact Hthrow].
  intros ?.
  eapply hoare_bind; [by apply (keeps_getSteamProfiles _ _ stable_cold)| |exact Hthrow].
  intros response'.
  eapply hoare_bind; [apply keeps_lift| |exact Hthrow].
  intros [items'|]; [|apply hoare_ret; intros st H; by apply cold_warm].
  eapply hoare_bind; [apply keeps_lift| |exact Hthrow].
  intros m'. apply root_dispatch_warm.
Qed.

Lemma autoComment_warm script steamID :
  hoare (cold tr0) (autoComment_of script env steamID account) (λ _, warm tr0).
Proof.
  destruct script; simpl.
  - eapply hoare_try_catch; [apply src_body_warm|done|].
    intros e. by apply hoare_ret.
  - eapply hoare_try_catch; [apply root_body_warm|done|].
    intros e. by apply hoare_ret.
Qed.
End Pacing.

(** X6.  In both scripts, between any two comments posted during one
    cycle the script sleeps at least five seconds. *)
Theorem posts_are_paced env script steamID (account : Account) st :
  ∃ new,
    trace (autoComment_of script env steamID account st).2 = trace st ++ new
    ∧ ∀ i j e1 e2,
        i < j →
        new !! i = Some e1 → is_post e1 = true →
        new !! j = Some e2 → is_post e2 = true →
        ∃ k millis, i < k < j ∧ new !! k = Some (ESleep millis) ∧ (5000 ≤ millis)%Z.
Proof.
  assert (cold (trace st) st) as Hc by (exists []; by rewrite app_nil_r).
  destruct (autoComment_warm env account (trace st) script steamID st Hc)
    as (new & H1 & H2).
  exists new. split; [done|]. intros i j e1 e2. by apply (heat_paced new false).
Qed.

(** ** What a cycle changes in the store *)

Lemma same_but_refl fields (a : Account) : same_but fields a a.
Proof. by intros k Hk. Qed.

Lemma same_but_trans fields (a b c : Account) :
  same_but fields a b → same_but fields b c → same_but fields a c.
Proof. intros H1 H2 k Hk. by rewrite H2, H1. Qed.

Lemma same_but_union fields (updates acc : Account) :
  (∀ k, is_Some (updates !! k) → k ∈ fields) → same_but fields acc (updates ∪ acc).
Proof.
  intros Hu k Hk. apply lookup_union_r.
  destruct (updates !! k) eqn:E; [|done]. destruct Hk. apply Hu. by eexists.
Qed.

Lemma edited_refl fields (l : list Account) : edited fields l l.
Proof. split; [done|]. intros i a Hi. exists a. split; [done|apply same_but_refl]. Qed.

Lemma edited_trans fields (l1 l2 l3 : list Account) :
  edited fields l1 l2 → edited fields l2 l3 → edited fields l1 l3.
Proof.
  intros [L1 H1] [L2 H2]. split; [lia|]. intros i a Hi.
  destruct (H1 i a Hi) as (b & Hb & Hab). destruct (H2 i b Hb) as (c & Hc & Hbc).
  exists c. split; [done|]. by eapply same_but_trans.
Qed.

Lemma edited_for_refl login fields (l : list Account) : edited_for login fields l l.
Proof. split; [apply edited_refl|]. by intros i a Hi _. Qed.

Lemma edited_for_trans login fields (l1 l2 l3 : list Account) :
  edited_for login fields l1 l2 → edited_for login fields l2 l3 →
  edited_for login fields l1 l3.
Proof.
  intros [E1 H1] [E2 H2]. split; [by eapply edited_trans|].
  intros i a Hi Hl. apply H2; [|done]. by apply H1.
Qed.

Lemma edited_for_weaken login fields (l1 l2 : list Account) :
  edited_for login fields l1 l2 → edited fields l1 l2.
Proof. by intros [H _]. Qed.

Lemma edited_more fields fields' (l1 l2 : list Account) :
  (∀ k, k ∈ fields → k ∈ fields') → edited fields l1 l2 → edited fields' l1 l2.
Proof.
  intros Hsub [L H]. split; [done|]. intros i a Hi.
  destruct (H i a Hi) as (b & Hb & Hab). exists b. split; [done|].
  intros k Hk. apply Hab. intros Hin. apply Hk, Hsub, Hin.
Qed.

(** One update, seen from the records it found before. *)
Lemma updateAccount_edits (accounts : list Account) login updates fs fields :
  (∀ k, is_Some (updates !! k) → k ∈ fields) →
  edited_for login fields accounts (updateAccount accounts login updates fs).1.
Proof.
  intros Hu. destruct (getAccount accounts login) as [[j acc]|] eqn:G.
  - rewrite (updateAccount_found _ _ _ _ _ _ G). simpl.
    destruct (getAccount_Some _ _ _ _ G) as (Hj & Hl & _).
    split; [split|].
    + by rewrite length_insert.
    + intros i a Hi. destruct (decide (i = j)) as [->|Hne].
      * exists (updates ∪ acc). rewrite Hj in Hi. injection Hi as <-.
        split; [|by apply same_but_union].
        apply list_lookup_insert_eq. by eapply lookup_lt_Some.
      * exists a. rewrite list_lookup_insert_ne by done.
        split; [done|apply same_but_refl].
    + intros i a Hi Hne. destruct (decide (i = j)) as [->|Hij].
      * rewrite Hj in Hi. injection Hi as <-. congruence.
      * by rewrite list_lookup_insert_ne.
  - rewrite (updateAccount_missing _ _ _ _ G). simpl. split; [split|].
    + rewrite length_app. lia.
    + intros i a Hi. exists a. split; [|apply same_but_refl].
      by apply lookup_app_l_Some.
    + intros i a Hi _. by apply lookup_app_l_Some.
Qed.

Lemma updateAccount_in_place (accounts : list Account) login updates fs :
  updates !! "login" = None →
  is_Some (getAccount accounts login) →
  length (updateAccount accounts login updates fs).1 = length accounts
  ∧ is_Some (getAccount (updateAccount accounts login updates fs).1 login).
Proof.
  intros Hu [[j acc] G]. rewrite (updateAccount_found _ _ _ _ _ _ G). simpl.
  split; [by rewrite length_insert|]. exists (j, updates ∪ acc).
  apply (getAccount_insert _ _ _ _ _ G). by apply lookup_union_r.
Qed.

Section Cycle_store.
Variable env : Env.
Variable account : Account.
Variable old : list Account.

Let login := account !! "login".

Lemma cycle_store_update updates st :
  (∀ k, is_Some (updates !! k) → k ∈ cycle_fields) →
  edited_for login cycle_fields old (accounts st)
  ∧ (is_Some (getAccount old login) →
     length (accounts st) = length old ∧ is_Some (getAccount (accounts st) login)) →
  cycle_store login old (do_updateAccount login updates st).2.
Proof.
  intros Hu [He Hl]. unfold do_updateAccount.
  pose proof (updateAccount_edits (accounts st) login updates (disk st) cycle_fields Hu)
    as Hnew.
  assert (updates !! "login" = None) as Hlogin.
  { destruct (updates !! "login") eqn:E; [|done].
    assert ("login" ∈ cycle_fields) as Hin by (apply Hu; by eexists).
    repeat (apply elem_of_cons in Hin as [Hin|Hin]; [discriminate Hin|]).
    by apply elem_of_nil in Hin. }
  pose proof (updateAccount_in_place (accounts st) login updates (disk st) Hlogin) as Hin.
  destruct (updateAccount (accounts st) login updates (disk st)) as [a d] eqn:E.
  assert (d = Some a) as ->.
  { unfold updateAccount, saveAccounts in E. by injection E as <- <-. }
  simpl in *. split; [by eapply edited_for_trans|]. split; [done|].
  intros Hs. destruct (Hl Hs) as [L G]. destruct (Hin G) as [L' G']. simpl. split; [lia|exact G'].
Qed.

Lemma keeps_cycle_store updates :
  (∀ k, is_Some (updates !! k) → k ∈ cycle_fields) →
  keeps (cycle_store login old) (do_updateAccount login updates).
Proof. intros Hu st (H1 & _ & H3). apply cycle_store_update; [done|by split]. Qed.

Lemma stable_cycle_store : stable (cycle_store login old) dispatch_effect.
Proof. split; by intros. Qed.

Lemma cycle_store_ignores_count : ignores_count (cycle_store login old).
Proof. by intros n st H. Qed.

Lemma counter_is_cycle_field :
  ∀ k, is_Some (({[ "commentCounter" := JNum 0 ]} : Account) !! k) → k ∈ cycle_fields.
Proof.
  intros k [v Hv]. apply lookup_singleton_Some in Hv as [<- _]. by left.
Qed.

Lemma lastComment_is_cycle_field v :
  ∀ k, is_Some (({[ "lastComment" := v ]} : Account) !! k) → k ∈ cycle_fields.
Proof.
  intros k [x Hx]. apply lookup_singleton_Some in Hx as [<- _]. right. by left.
Qed.

Lemma cooldown_is_cycle_fields st :
  ∀ k, is_Some (cooldown_update env st !! k) → k ∈ cycle_fields.
Proof.
  intros k [x Hx]. unfold cooldown_update in Hx.
  apply lookup_insert_Some in Hx as [[<- _]|[_ Hx]]; [by left|].
  apply lookup_singleton_Some in Hx as [<- _]. right. by left.
Qed.

Lemma autoComment_cycle_store script steamID st :
  accounts st = old →
  let st' := (autoComment_of script env steamID account st).2 in
  cycle_store login old st' ∨ st' = st.
Proof.
  intros Hst st'.
  assert (Hreset : hoare (λ st0, st0 = st)
            (do_updateAccount login {[ "commentCounter" := JNum 0 ]})
            (λ _, cycle_store login old)).
  { intros st0 ->. apply cycle_store_update; [apply counter_is_cycle_field|].
    rewrite Hst. split; [apply edited_for_refl|by intros ?]. }
  assert (Hstamp : keeps (cycle_store login old) (stamp_lastComment env login)).
  { intros st0 H0.
    by apply (keeps_cycle_store _ (lastComment_is_cycle_field (stamp env st0))). }
  assert (Hstop : keeps (cycle_store login old) (stop_account env login)).
  { intros st0 H0. by apply (keeps_cycle_store _ (cooldown_is_cycle_fields st0)). }
  assert (Hd : autoComment_of script = SrcIndex.autoComment
               ∨ autoComment_of script = RootIndex.autoComment)
    by (destruct script; by (left + right)).
  destruct (autoComment_invariant env account (λ st0, st0 = st) (cycle_store login old)
              stable_cycle_store cycle_store_ignores_count Hreset Hstamp Hstop
              (autoComment_of script) steamID Hd st eq_refl) as [[Heq _]|Hc];
    [by right|by left].
Qed.
End Cycle_store.

(** X7.  What a cycle does to the array of records, in both scripts: no
    record is removed or moved; records of other logins are left as they
    are; a record is changed in [commentCounter] and [lastComment] at
    most; when a record has the login of the account, none is appended;
    and the file is untouched, or holds the array. *)
Theorem cycle_edits_two_fields env script steamID (account : Account) st :
  let st' := (autoComment_of script env steamID account st).2 in
  let login := account !! "login" in
  edited_for login cycle_fields (accounts st) (accounts st')
  ∧ (is_Some (getAccount (accounts st) login) →
     length (accounts st') = length (accounts st))
  ∧ (disk st' = Some (accounts st') ∨ (accounts st' = accounts st ∧ disk st' = disk st)).
Proof.
  intros st' login.
  destruct (autoComment_cycle_store env account (accounts st) script steamID st eq_refl)
    as [(H1 & H2 & H3)|Heq].
  - split; [done|]. split; [|by left]. intros Hs. by destruct (H3 Hs).
  - fold st' in Heq. rewrite Heq.
    split; [apply edited_for_refl|]. split; [done|by right].
Qed.

(** ** When the cool-down starts *)

Section Cool_down.
Variable env : Env.
Variable account : Account.
Variable before : option JVal.

Let login := account !! "login".
Let fresh := not_stamped login before.
Let src_left := src_left env login before.
Let src_ended := src_ended env login before.
Let due := due login before.
Let root_left := root_left env login before.
Let listed := listed login before.
Let root_ended := root_ended env login before.

Lemma stable_not_stamped : stable fresh (λ _, true).
Proof. split; by intros. Qed.

Lemma not_stamped_ignores_count : ignores_count fresh.
Proof. by intros n st H. Qed.

Lemma reset_not_stamped st :
  synced st → before = stored st login "lastComment" →
  fresh (do_updateAccount login {[ "commentCounter" := JNum 0 ]} st).2.
Proof.
  intros Hs ->.
  destruct (do_updateAccount_stored login {[ "commentCounter" := JNum 0 ]} st)
    as [Hs' Hp]; [by simplify_map_eq|].
  split; [done|]. intros Hl. destruct (Hp Hl) as [Hn Ho]. split.
  - apply Hn. by simplify_map_eq.
  - apply Ho; [done|by simplify_map_eq|done].
Qed.

Lemma stamp_not_stamped st :
  fresh st → cooled env login (stamp_lastComment env login st).2.
Proof.
  intros [Hs Hc]. unfold stamp_lastComment, cooled.
  destruct (do_updateAccount_stored login {[ "lastComment" := stamp env st ]} st)
    as [Hs' Hp]; [by simplify_map_eq|].
  split; [done|]. intros Hl. destruct (Hp Hl) as [Hn Ho]. destruct (Hc Hl) as [Hcc _].
  split.
  - rewrite Ho; [done..| by simplify_map_eq | done].
  - apply Hn. by simplify_map_eq.
Qed.

Lemma keeps_fresh_postUserComment userID text :
  keeps fresh (do_postUserComment env userID text).
Proof. by intros st H. Qed.

Lemma stop_account_returns st : (stop_account env login st).1 = Ok tt.
Proof.
  unfold stop_account, do_updateAccount. by destruct (updateAccount _ _ _ _).
Qed.

(** [src/index.js] *)

Lemma src_post_fresh task :
  hoare fresh (SrcIndex.post env account task)
    (λ r st, match r with
             | Ok SrcIndex.result_false => cooled env login st
             | _ => fresh st
             end).
Proof.
  unfold SrcIndex.post.
  eapply hoare_bind; [apply keeps_lift| |done]. intros userID.
  eapply hoare_bind; [apply keeps_lift| |done]. intros text.
  eapply hoare_bind; [apply keeps_fresh_postUserComment| |done].
  intros [msg|]; [|by apply hoare_ret].
  destruct (JS.includes msg settings_message); [by apply hoare_ret|].
  destruct (JS.includes msg frequency_message); [|by apply hoare_ret].
  intros st _. unfold bind.
  pose proof (stop_account_returns st) as Hr.
  pose proof (stop_account_cooled env login st) as Hc.
  unfold login in Hr, Hc.
  destruct (stop_account env (account !! "login") st) as [[[]|e] st']; [done|].
  discriminate Hr.
Qed.

Lemma src_complete_fresh task profile :
  keeps fresh (SrcIndex.complete env task profile).
Proof.
  unfold SrcIndex.complete.
  apply keeps_bind; [apply keeps_lift|intros taskId].
  apply keeps_bind; [apply keeps_lift|intros commentId].
  apply keeps_bind; [by apply (keeps_completeTask _ _ stable_not_stamped)|intros ?].
  intros st. apply not_stamped_ignores_count.
Qed.

Lemma src_attempts_fresh profile task remaining :
  hoare fresh (SrcIndex.attempts env account profile task remaining) src_left.
Proof.
  induction remaining as [|n IH]; cbn [SrcIndex.attempts].
  - by apply hoare_ret.
  - eapply hoare_bind; [apply src_post_fresh| |done]. intros [| |].
    + eapply hoare_bind; [apply src_complete_fresh| |done].
      intros ?. by apply hoare_ret.
    + by apply hoare_ret.
    + eapply hoare_bind; [by apply (keeps_sleep _ _ stable_not_stamped)| |done].
      intros ?. apply IH.
Qed.

Lemma src_forTasks_fresh profile tasks :
  hoare fresh (SrcIndex.forTasks env account profile tasks) src_left.
Proof.
  induction tasks as [|task rest IH]; cbn [SrcIndex.forTasks].
  - by apply hoare_ret.
  - apply (hoare_guard _ (λ st, (maxComments <=? successfulComments st)%nat) (ret Next)).
    + apply hoare_ret. by intros st [H _].
    + eapply hoare_conseq with (P' := fresh) (Q' := src_left);
        [|by intros st [H _]|done].
      eapply hoare_bind; [apply src_attempts_fresh| |done]. intros [|].
      * eapply hoare_bind; [by apply (keeps_sleep _ _ stable_not_stamped)| |done].
        intros ?. apply IH.
      * by apply hoare_ret.
Qed.

Lemma reset_fresh :
  hoare due (do_updateAccount login {[ "commentCounter" := JNum 0 ]}) (λ _, fresh).
Proof. intros st [Hs Hb]. by apply reset_not_stamped. Qed.

Lemma src_body_fresh steamID :
  hoare (λ st, due st ∧ coolingDown env account (now st) = false)
    (SrcIndex.body env steamID account) src_ended.
Proof.
  unfold SrcIndex.body.
  apply (hoare_guard _ (λ st, coolingDown env account (now st)) (ret tt)).
  { intros st [[_ H1] H2]. congruence. }
  eapply hoare_conseq with (P' := due) (Q' := src_ended);
    [|by intros st [[H _] _]|done].
  eapply hoare_bind; [apply reset_fresh| |done]. intros ?.
  eapply hoare_bind; [by apply (keeps_getSteamProfiles _ _ stable_not_stamped)| |done].
  intros steamProfiles.
  eapply hoare_bind; [apply keeps_src_forEach| |done].
  intros m.
  eapply hoare_bind with (R := λ _, fresh); [| |done].
  { destruct (registered m steamID); [apply keeps_ret|].
    apply keeps_bind; [by apply (keeps_addSteamProfile _ _ stable_not_stamped)|intros ?].
    apply keeps_bind; [by apply (keeps_getSteamProfiles _ _ stable_not_stamped)|intros ?].
    apply keeps_src_forEach. }
  intros m'.
  eapply hoare_bind; [by apply (keeps_getTasks _ _ stable_not_stamped)| |done].
  intros tasks.
  eapply hoare_bind with (R := λ _, fresh); [| |done].
  { intros st. apply not_stamped_ignores_count. }
  intros ?.
  eapply hoare_bind; [apply keeps_lift| |done].
  intros items.
  eapply hoare_bind; [apply src_forTasks_fresh| |done].
  intros [|].
  - intros st H. unfold src_ended.
    assert ((stamp_lastComment env (account !! "login") st).1 = Ok tt) as ->.
    { unfold stamp_lastComment, do_updateAccount. by destruct (updateAccount _ _ _ _). }
    by apply stamp_not_stamped.
  - by apply hoare_ret.
Qed.

(** The second script *)

Lemma root_post_fresh task :
  hoare fresh (RootIndex.post env account task)
    (λ r st, match r with
             | Ok RootIndex.result_stop => cooled env login st
             | _ => fresh st
             end).
Proof.
  unfold RootIndex.post.
  eapply hoare_bind; [apply keeps_lift| |done]. intros userID.
  eapply hoare_bind; [apply keeps_lift| |done]. intros text.
  eapply hoare_bind; [apply keeps_fresh_postUserComment| |done].
  intros [msg|]; [|by apply hoare_ret].
  destruct (JS.includes msg settings_message); [by apply hoare_ret|].
  destruct (JS.includes msg frequency_message); [|by apply hoare_ret].
  intros st _. unfold bind.
  pose proof (stop_account_returns st) as Hr.
  pose proof (stop_account_cooled env login st) as Hc.
  unfold login in Hr, Hc.
  destruct (stop_account env (account !! "login") st) as [[[]|e] st']; [done|].
  discriminate Hr.
Qed.

Lemma root_complete_fresh task profile :
  keeps fresh (RootIndex.complete env task profile).
Proof.
  unfold RootIndex.complete.
  apply keeps_bind; [apply keeps_lift|intros taskId].
  apply keeps_bind; [apply keeps_lift|intros commentId].
  apply keeps_bind; [by apply (keeps_completeTask _ _ stable_not_stamped)|intros ?].
  intros st. apply not_stamped_ignores_count.
Qed.

Lemma root_forTasks_fresh profile tasks :
  hoare fresh (RootIndex.forTasks env account profile tasks) root_left.
Proof.
  induction tasks as [|task rest IH]; cbn [RootIndex.forTasks].
  - apply hoare_ret. intros st H. by left.
  - apply (hoare_guard _ (λ st, (maxComments <=? successfulComments st)%nat) (ret tt)).
    + apply hoare_ret. intros st [H _]. by left.
    + eapply hoare_conseq with (P' := fresh) (Q' := root_left);
        [|by intros st [H _]|done].
      eapply hoare_bind; [apply root_post_fresh| |done]. intros [| |].
      * eapply hoare_bind; [apply root_complete_fresh| |done]. intros ?.
        eapply hoare_bind; [by apply (keeps_sleep _ _ stable_not_stamped)| |done].
        intros ?. apply IH.
      * eapply hoare_bind; [by apply (keeps_sleep _ _ stable_not_stamped)| |done].
        intros ?. apply IH.
      * apply hoare_ret. intros st H. by right.
Qed.

Lemma root_dispatch_fresh steamID m :
  hoare fresh (RootIndex.dispatch env steamID account m) src_ended.
Proof.
  unfold RootIndex.dispatch.
  eapply hoare_bind; [by apply (keeps_getTasks _ _ stable_not_stamped)| |done].
  intros tasks.
  eapply hoare_bind with (R := λ _, fresh); [| |done].
  { intros st. apply not_stamped_ignores_count. }
  intros ?.
  eapply hoare_bind; [apply keeps_lift| |done].
  intros items.
  eapply hoare_bind; [apply root_forTasks_fresh| |done].
  intros ? st H. unfold src_ended.
  assert ((stamp_lastComment env (account !! "login") st).1 = Ok tt) as ->.
  { unfold stamp_lastComment, do_updateAccount. by destruct (updateAccount _ _ _ _). }
  destruct H as [H|H]; [by apply stamp_not_stamped|by apply stamp_lastComment_cooled].
Qed.

Lemma getSteamProfiles_listed :
  hoare fresh (api.getSteamProfiles env) (λ _, listed).
Proof.
  intros st H. unfold api.getSteamProfiles.
  assert (listed (answered env (emit EGetSteamProfiles st))) as Hl.
  { split; [done|]. simpl. apply last_snoc. }
  by destruct (fetch_steamprofiles env _).
Qed.

Lemma src_ended_root_ended r st : src_ended r st → root_ended r st.
Proof. destruct r; [by left|done]. Qed.

Lemma root_body_fresh steamID :
  hoare (λ st, due st ∧ coolingDown env account (now st) = false)
    (RootIndex.body env steamID account) root_ended.
Proof.
  assert (Hlisted : ∀ (e : string) st, listed st → root_ended (Throw e) st)
    by (by intros e st [H _]).
  unfold RootIndex.body.
  apply (hoare_guard _ (λ st, coolingDown env account (now st)) (ret tt)).
  { intros st [[_ H1] H2]. congruence. }
  eapply hoare_conseq with (P' := due) (Q' := root_ended);
    [|by intros st [[H _] _]|done].
  eapply hoare_bind; [apply reset_fresh| |done]. intros ?.
  eapply hoare_bind; [apply getSteamProfiles_listed| |done].
  intros response.
  eapply hoare_bind; [apply keeps_lift| |exact Hlisted].
  intros [items|]; [|apply hoare_ret; intros st H; by right].
  eapply hoare_bind with (R := λ _, fresh);
    [intros st [H _]; exact H| |done].
  intros m.
  destruct (registered m steamID).
  { eapply hoare_conseq; [apply root_dispatch_fresh|done|apply src_ended_root_ended]. }
  eapply hoare_bind; [by apply (keeps_addSteamProfile _ _ stable_not_stamped)| |done].
  intros ?.
  eapply hoare_bind; [apply getSteamProfiles_listed| |done].
  intros response'.
  eapply hoare_bind; [apply keeps_lift| |exact Hlisted].
  intros [items'|]; [|apply hoare_ret; intros st H; by right].
  eapply hoare_bind with (R := λ _, fresh);
    [intros st [H _]; exact H| |done].
  intros m'.
  eapply hoare_conseq; [apply root_dispatch_fresh|done|apply src_ended_root_ended].
Qed.
End Cool_down.

(** X8.  When the cool-down starts.  For a cycle that is not skipped,
    started with the file holding the array: if the body of [autoComment]
    in [src/index.js] ends without an exception (an empty task list
    included), the record on disk has [commentCounter] 0 and [lastComment]
    set to the time of the end; if it ends by an exception, the counter is
    0 and [lastComment] is what it was.  The same holds for the second
    script, which in addition returns with [lastComment] as it was right
    after fetching a profile list it does not recognise. *)
Theorem cool_down_starts_on_completion env steamID (account : Account) st :
  synced st →
  coolingDown env account (now st) = false →
  let login := account !! "login" in
  let before := stored st login "lastComment" in
  match SrcIndex.body env steamID account st with
  | (Ok _, st') => cooled env login st'
  | (Throw _, st') => not_stamped login before st'
  end
  ∧ match RootIndex.body env steamID account st with
    | (Ok _, st') =>
        cooled env login st'
        ∨ (not_stamped login before st' ∧ last (trace st') = Some EGetSteamProfiles)
    | (Throw _, st') => not_stamped login before st'
    end.
Proof.
  intros Hs Hc login before.
  pose proof (src_body_fresh env account before steamID st (conj (conj Hs eq_refl) Hc)) as H1.
  pose proof (root_body_fresh env account before steamID st (conj (conj Hs eq_refl) Hc)) as H2.
  split.
  - by destruct (SrcIndex.body env steamID account st) as [[[]|e] st'].
  - by destruct (RootIndex.body env steamID account st) as [[[]|e] st'].
Qed.

(** ** The two scripts side by side *)

Lemma bind_eq {A B} (m : M A) (k : A → M B) st :
  bind m k st = match m st with
                | (Ok a, st') => k a st'
                | (Throw e, st') => (Throw e, st')
                end.
Proof. done. Qed.

Section Side_by_side.
Variable env : Env.
Variable account : Account.
Hypothesis Hlogin : primitive (account !! "login") = true.
Hypothesis Hposts : no_transient_answer env.

Let login := account !! "login".
Let same_post := same_post env login.
Let same_loop := same_loop env login.

Lemma stop_account_stamped st :
  stamped_now env login (stop_account env login st).2.
Proof.
  unfold stamped_now, stop_account, stamp_lastComment, do_updateAccount.
  pose proof (updateAccount_compose (accounts st) login (cooldown_update env st)
                {[ "lastComment" := stamp env st ]} (disk st) Hlogin) as Hc.
  destruct (updateAccount (accounts st) login (cooldown_update env st) (disk st))
    as [a d] eqn:E. simpl in Hc. cbn [snd].
  change (stamp env (set_store a d st)) with (stamp env st).
  change (accounts (set_store a d st)) with a.
  change (disk (set_store a d st)) with d.
  rewrite Hc; [|left; unfold cooldown_update; by simplify_map_eq].
  assert (({[ "lastComment" := stamp env st ]} : Account) ∪ cooldown_update env st
          = cooldown_update env st) as ->.
  { apply map_eq. intros k. unfold cooldown_update.
    destruct (decide (k = "lastComment")) as [->|Hk]; [by simplify_map_eq|].
    rewrite lookup_union_r; [done|]. by simplify_map_eq. }
  by rewrite E.
Qed.

Lemma post_agree task st :
  same_post (SrcIndex.post env account task st) (RootIndex.post env account task st).
Proof.
  unfold SrcIndex.post, RootIndex.post, bind, lift, do_postUserComment.
  destruct (JS.getProp (Some task) "targetSteamProfileId") as [u|?]; [|done].
  destruct (JS.getProp (Some task) "requiredCommentText") as [t|?]; [|done].
  destruct (postUserComment env (calls st) u t) as [[msg|]|e] eqn:Ho; [|done..].
  pose proof (Hposts _ _ _ _ Ho) as Hr. unfold rate_limited in Hr.
  apply andb_true_iff in Hr as [Hs%negb_true_iff Hf]. rewrite Hs, Hf.
  pose proof (stop_account_stamped
                (answered env (emit (EPostUserComment u t (Ok (Some msg))) st))) as H.
  unfold login in H.
  by destruct (stop_account env (account !! "login") _) as [[[]|e] st'].
Qed.

Lemma forTasks_agree profile tasks st :
  same_loop (SrcIndex.forTasks env account profile tasks st)
    (RootIndex.forTasks env account profile tasks st).
Proof.
  revert st. induction tasks as [|task rest IH]; intros st; [by split|].
  cbn [SrcIndex.forTasks RootIndex.forTasks].
  destruct (maxComments <=? successfulComments st)%nat; [by split|].
  unfold SrcIndex.maxAttempts. cbn [SrcIndex.attempts].
  rewrite !bind_eq.
  destruct (post_agree task st) as [Hst Hres].
  destruct (SrcIndex.post env account task st) as [[[| |]|e] s1],
           (RootIndex.post env account task st) as [[[| |]|e'] s2];
    simpl in Hst, Hres; try done; subst s2.
  change (RootIndex.complete env task profile)
    with (SrcIndex.complete env task profile).
  rewrite !bind_eq.
  destruct (SrcIndex.complete env task profile s1) as [[[]|e] s3]; [|by split].
  cbn [ret]. rewrite !bind_eq. cbn [sleep]. apply IH.
Qed.

Hypothesis Hplain : plain_listing env.

Lemma getSteamProfiles_answer st response st' :
  api.getSteamProfiles env st = (Ok response, st') →
  ∃ n json, fetch_steamprofiles env n = Ok json ∧ api.unwrap_data json = Ok response.
Proof.
  unfold api.getSteamProfiles. intros H.
  destruct (fetch_steamprofiles env _) as [json|e] eqn:F; [|done].
  exists (calls (emit EGetSteamProfiles st)), json. split; [done|]. by injection H.
Qed.

(** What follows the profile mapping. *)
Lemma dispatch_agree steamID m st :
  ((tasks ←! api.getTasks env (repSteamProfilesObj m !! steamID);
    (fun st => (Ok tt, set_successfulComments 0 st)) ;!
    items ←! lift (JS.iterate tasks);
    left ←! SrcIndex.forTasks env account (repSteamProfilesObj m !! steamID) items;
    match left with
    | Return => ret tt
    | Next => stamp_lastComment env (account !! "login")
    end) st).2
  = (RootIndex.dispatch env steamID account m st).2.
Proof.
  unfold RootIndex.dispatch. rewrite !bind_eq.
  destruct (api.getTasks env (repSteamProfilesObj m !! steamID) st) as [[tasks|e] s1];
    [|done].
  rewrite !bind_eq. unfold lift.
  destruct (JS.iterate tasks) as [items|e]; [|done].
  rewrite !bind_eq.
  destruct (forTasks_agree (repSteamProfilesObj m !! steamID) items
              (set_successfulComments 0 s1)) as [Hst Hres].
  destruct (SrcIndex.forTasks env account _ items _) as [[[|]|e] s2],
           (RootIndex.forTasks env account _ items _) as [[[]|e'] s3];
    simpl in Hst, Hres; try done; subst s3.
  all: try (simpl; done).
  unfold stamped_now, login in Hres. by rewrite Hres.
Qed.

(** The profile listing, with what follows it. *)
Lemma listing_agree (response : JVal) m0 (Ksrc Kroot : Mapping → M unit) st :
  (∀ items, RootIndex.extract response = Ok (Some items) → response = JArr items) →
  (∀ m st', (Ksrc m st').2 = (Kroot m st').2) →
  ((m ←! SrcIndex.forEach response m0; Ksrc m) st).2
  = ((steamProfiles ←! lift (RootIndex.extract response);
      match steamProfiles with
      | None => ret tt
      | Some items => (m ←! lift (collect items m0); Kroot m)
      end) st).2.
Proof.
  intros Hone HK. rewrite !bind_eq. unfold lift.
  destruct (RootIndex.extract response) as [[items|]|e] eqn:E.
  - rewrite (Hone items eq_refl). simpl. rewrite bind_eq. unfold lift.
    destruct (collect items m0) as [m|e]; [apply HK|done].
  - destruct response; try done.
  - destruct response; try done.
Qed.

Lemma body_agree steamID st :
  (SrcIndex.body env steamID account st).2 = (RootIndex.body env steamID account st).2.
Proof.
  unfold SrcIndex.body, RootIndex.body.
  destruct (coolingDown env account (now st)); [done|].
  rewrite !bind_eq.
  destruct (do_updateAccount (account !! "login") _ st) as [[[]|e] s1]; [|done].
  rewrite !bind_eq.
  destruct (api.getSteamProfiles env s1) as [[response|e] s2] eqn:F; [|done].
  destruct (getSteamProfiles_answer _ _ _ F) as (n & json & Hf & Hu).
  apply listing_agree; [intros items; by apply (Hplain n json)|].
  intros m s3. destruct (registered m steamID).
  { rewrite bind_eq. apply dispatch_agree. }
  rewrite !bind_eq.
  destruct (api.addSteamProfile env steamID s3) as [[?|e] s4]; [|done].
  rewrite !bind_eq.
  destruct (api.getSteamProfiles env s4) as [[response'|e] s5] eqn:F'; [|done].
  destruct (getSteamProfiles_answer _ _ _ F') as (n' & json' & Hf' & Hu').
  pose proof (listing_agree response' m
                (λ m', (tasks ←! api.getTasks env (repSteamProfilesObj m' !! steamID);
                   (fun st => (Ok tt, set_successfulComments 0 st)) ;!
                   items ←! lift (JS.iterate tasks);
                   left ←! SrcIndex.forTasks env account
                             (repSteamProfilesObj m' !! steamID) items;
                   match left with
                   | Return => ret tt
                   | Next => stamp_lastComment env (account !! "login")
                   end))
                (RootIndex.dispatch env steamID account) s5
                ltac:(intros items; by apply (Hplain n' json'))
                ltac:(intros; apply dispatch_agree)) as H.
  rewrite <- H. rewrite !bind_eq.
  by destruct (SrcIndex.forEach response' m s5) as [[m'|e] s6].
Qed.
End Side_by_side.

Lemma autoComment_state script env steamID account st :
  autoComment_of script env steamID account st
  = (Ok tt, match script with
            | src_index => (SrcIndex.body env steamID account st).2
            | second_script => (RootIndex.body env steamID account st).2
            end).
Proof.
  destruct script; simpl.
  - unfold SrcIndex.autoComment, try_catch.
    by destruct (SrcIndex.body env steamID account st) as [[[]|e] st'].
  - unfold RootIndex.autoComment, try_catch.
    by destruct (RootIndex.body env steamID account st) as [[[]|e] st'].
Qed.

(** X9.  The two scripts side by side.  When no post is answered by an
    error the callbacks let pass, and no profile listing is one that only
    the second script recognises, [autoComment] of [src/index.js] and of
    the second script leave the same state, trace included (for a login
    that [===] compares by value). *)
Theorem scripts_agree env steamID (account : Account) st :
  primitive (account !! "login") = true →
  no_transient_answer env →
  plain_listing env →
  SrcIndex.autoComment env steamID account st
  = RootIndex.autoComment env steamID account st.
Proof.
  intros Hl Hp Hs.
  rewrite (autoComment_state src_index), (autoComment_state second_script).
  by rewrite (body_agree env account Hl Hp Hs).
Qed.

(** ** Sessions: login errors, listeners, and the file *)

Lemma autoComment_of_cases script :
  autoComment_of script = SrcIndex.autoComment
  ∨ autoComment_of script = RootIndex.autoComment.
Proof. destruct script; by (left + right). Qed.

(** X10.  A login error.  When the client emits [error] while the
    promise is pending, [processAccount] returns, the promise being
    rejected with that error; the state is left as it was when the result
    code is 5 or 63 or the message lacks the posting-frequency text, and
    otherwise the record on disk gets [commentCounter] 0 and
    [lastComment] set to now, with no other effect. *)
Theorem login_error_ends_session env script (account : Account) events e st :
  let ss := session env (autoComment_of script) account events st in
  promise ss.1 = Pending →
  let run := processAccount env (autoComment_of script) account (events ++ [error e]) st in
  run.1 = returned
  ∧ promise (session env (autoComment_of script) account (events ++ [error e]) st).1
    = Rejected e
  ∧ if (eresult e =? 5)%Z || (eresult e =? 63)%Z
       || negb (JS.includes (message e) frequency_message)
    then run.2 = ss.2
    else run.2 = (stop_account env (account !! "login") ss.2).2
         ∧ trace run.2 = trace ss.2
         ∧ cooled env (account !! "login") run.2.
Proof.
  intros ss Hp run. subst run. unfold processAccount.
  rewrite session_snoc. fold ss.
  destruct (session_quiet env (autoComment_of script) (autoComment_of_cases script)
              account events st) as [_ Hu]. fold ss in Hu.
  destruct ss as [s st']. cbn [fst snd] in Hu, Hp. unfold deliver. rewrite Hu.
  unfold on_error. cbn -[stop_account JS.includes frequency_message Z.eqb].
  rewrite Hu, Hp. cbn -[stop_account JS.includes frequency_message Z.eqb].
  split; [done|]. split; [done|].
  destruct (eresult e =? 5)%Z; [done|]. destruct (eresult e =? 63)%Z; [done|].
  destruct (JS.includes (message e) frequency_message); [|done].
  cbn -[stop_account]. split; [done|]. split; [|apply stop_account_cooled].
  unfold stop_account, do_updateAccount. by destruct (updateAccount _ _ _ _).
Qed.

(** *** Invariants of the file during a session *)

Section Session_file.
Variable env : Env.
Variable script : Script.
Variable F : list Account → Prop.
Hypothesis HF : survives session_fields F.

Lemma holds_update login updates :
  (∀ k, is_Some (updates !! k) → k ∈ session_fields) →
  hoare (holds F) (do_updateAccount login updates) (λ _, holds F).
Proof.
  intros Hu st [Hs Hf]. unfold do_updateAccount.
  pose proof (HF (accounts st) login updates (disk st) Hu Hf) as Hnew.
  destruct (updateAccount (accounts st) login updates (disk st)) as [a d] eqn:E.
  assert (d = Some a) as ->.
  { unfold updateAccount, saveAccounts in E. by injection E as <- <-. }
  by split.
Qed.

Lemma stable_holds ok : stable (holds F) ok.
Proof. split; by intros. Qed.

Lemma holds_ignores_count : ignores_count (holds F).
Proof. by intros n st H. Qed.

Lemma counter_is_session_field :
  ∀ k, is_Some (({[ "commentCounter" := JNum 0 ]} : Account) !! k) → k ∈ session_fields.
Proof.
  intros k [v Hv]. apply lookup_singleton_Some in Hv as [<- _]. right. by left.
Qed.

Lemma lastComment_is_session_field v :
  ∀ k, is_Some (({[ "lastComment" := v ]} : Account) !! k) → k ∈ session_fields.
Proof.
  intros k [x Hx]. apply lookup_singleton_Some in Hx as [<- _]. right. right. by left.
Qed.

Lemma cooldown_is_session_fields st :
  ∀ k, is_Some (cooldown_update env st !! k) → k ∈ session_fields.
Proof.
  intros k [x Hx]. unfold cooldown_update in Hx.
  apply lookup_insert_Some in Hx as [[<- _]|[_ Hx]]; [right; by left|].
  apply lookup_singleton_Some in Hx as [<- _]. right. right. by left.
Qed.

Lemma token_is_session_field v :
  ∀ k, is_Some (({[ "refreshToken" := v ]} : Account) !! k) → k ∈ session_fields.
Proof.
  intros k [x Hx]. apply lookup_singleton_Some in Hx as [<- _]. by left.
Qed.

Lemma holds_stop_account login : keeps (holds F) (stop_account env login).
Proof. intros st H. by apply (holds_update _ _ (cooldown_is_session_fields st)). Qed.

Lemma holds_autoComment steamID account :
  keeps (holds F) (autoComment_of script env steamID account).
Proof.
  eapply hoare_conseq; [|done|].
  - apply (autoComment_invariant env account (holds F) (holds F)
             (stable_holds _) holds_ignores_count).
    + apply holds_update, counter_is_session_field.
    + intros st H. by apply (holds_update _ _ (lastComment_is_session_field (stamp env st))).
    + apply holds_stop_account.
    + apply autoComment_of_cases.
  - intros r st H. unfold cycle_end in H. by destruct H as [[H _]|H].
Qed.

Lemma holds_listener account ss :
  holds F ss.2 → holds F (webSession_listener env (autoComment_of script) account ss).2.
Proof.
  destruct ss as [s st]. simpl. intros H. unfold webSession_listener.
  destruct (steamID s) as [sid|]; [|done].
  pose proof (holds_autoComment sid account (emit ESetCookies st) H) as Hk.
  by destruct (autoComment_of script env sid account (emit ESetCookies st))
    as [[[]|e] st'].
Qed.

Lemma holds_listeners account n ss :
  holds F ss.2 →
  holds F (Nat.iter n (webSession_listener env (autoComment_of script) account) ss).2.
Proof. intros H. induction n as [|n IH]; simpl; [done|]. by apply holds_listener. Qed.

Lemma holds_deliver account ss ev :
  holds F ss.2 → holds F (deliver env (autoComment_of script) account ss ev).2.
Proof.
  destruct ss as [s st]. simpl. intros H. destruct (unhandled s); [done|].
  destruct ev as [sid| |tok|e| |ms].
  - exact H.
  - by apply (holds_listeners account _ (s, st)).
  - unfold on_refreshToken.
    pose proof (holds_update (account !! "login") _ (token_is_session_field (JStr tok)) st H)
      as Hk.
    by destruct (do_updateAccount _ _ st).
  - unfold on_error. cbn [snd].
    destruct (eresult e =? 5)%Z; [done|]. destruct (eresult e =? 63)%Z; [done|].
    destruct (JS.includes (message e) frequency_message); [|done].
    by apply holds_stop_account.
  - exact H.
  - exact H.
Qed.

Lemma holds_session account events st :
  F (file st) → holds F (session env (autoComment_of script) account events st).2.
Proof.
  intros H. induction events as [|ev events IH] using rev_ind.
  - unfold session, open, file in *. simpl.
    by destruct (disk st) as [stored|].
  - rewrite session_snoc. by apply holds_deliver.
Qed.

Lemma holds_file st : holds F st → F (file st).
Proof. intros [Hs Hf]. unfold file. unfold synced in Hs. by rewrite Hs. Qed.

Lemma processAccount_file account events st :
  F (file st) →
  F (file (processAccount env (autoComment_of script) account events st).2).
Proof.
  intros H. apply holds_file.
  pose proof (holds_session account events st H) as Hh.
  unfold processAccount.
  destruct (session env (autoComment_of script) account events st) as [s st'].
  simpl in Hh. destruct (unhandled s); [done|].
  by destruct (await (promise s)) as [[?|?]|].
Qed.

Lemma forAccounts_file events i batch st :
  F (file st) →
  F (file (forAccounts env (autoComment_of script) events i batch st).2).
Proof.
  revert i st. induction batch as [|account rest IH]; intros i st H; cbn [forAccounts];
    [done|].
  destruct (negb (JS.truthy (account !! "steamID"))); [by apply IH|].
  destruct (coolingDown env account (now st)); [by apply IH|].
  pose proof (processAccount_file account (events i) st H) as Hp.
  destruct (processAccount env (autoComment_of script) account (events i) st)
    as [[| |e] st']; simpl in Hp; [by apply IH|done..].
Qed.

Lemma startWork_file events st :
  F (file st) →
  F (file (startWork env (autoComment_of script) events st).2).
Proof.
  intros H. unfold startWork.
  destruct (loadAccounts (disk st)) as [batch d] eqn:E.
  apply forAccounts_file. unfold file in *. simpl.
  unfold loadAccounts in E. destruct (disk st); by injection E as <- <-.
Qed.
End Session_file.

(** The two invariants used below. *)
Lemma edited_survives old : survives session_fields (edited session_fields old).
Proof.
  intros accounts login updates fs Hu H. eapply edited_trans; [exact H|].
  eapply edited_for_weaken, updateAccount_edits, Hu.
Qed.

Lemma session_fields_keep_login (updates : Account) login :
  (∀ k, is_Some (updates !! k) → k ∈ session_fields) → keeps_login login updates.
Proof.
  intros Hu. left. destruct (updates !! "login") eqn:E; [|done].
  assert ("login" ∈ session_fields) as Hin by (apply Hu; by eexists).
  repeat (apply elem_of_cons in Hin as [Hin|Hin]; [discriminate Hin|]).
  by apply elem_of_nil in Hin.
Qed.

Lemma unique_survives : survives session_fields (λ l, unique_logins l = true).
Proof.
  intros accounts login updates fs Hu H. apply updateAccount_unique; [|done].
  by apply session_fields_keep_login.
Qed.

(** *** One [webSession] listener per [loggedOn] event *)

Section Listeners.
Variable env : Env.
Variable script : Script.
Variable account : Account.

Let dispatcher := autoComment_of script.

(** Effects a cycle does not have. *)
Variable p : Effect → bool.
Hypothesis Hp : ∀ e, dispatch_effect e = true → p e = false.








End Listeners.


(** *** Who is logged on by a batch *)

Lemma forAccounts_identified env script events batch i st :
  ∃ processed,
    sublist processed (filter (λ a, identified a = true) batch)
    ∧ logons (trace (forAccounts env (autoComment_of script) events i batch st).2)
      = logons (trace st) ++ (logOnOptions <$> processed).
Proof.
  revert i st. induction batch as [|account rest IH]; intros i st; cbn [forAccounts].
  - exists []. by rewrite app_nil_r.
  - destruct (JS.truthy (account !! "steamID")) eqn:Hs; simpl.
    2:{ rewrite filter_cons_False by (unfold identified; by rewrite Hs). apply IH. }
    rewrite filter_cons_True by done.
    destruct (coolingDown env account (now st)).
    { destruct (IH (S i) st) as (processed & Hsub & Hlog).
      exists processed. split; [by apply sublist_cons|done]. }
    pose proof (processAccount_outcome env (autoComment_of script)
                  (autoComment_of_cases script) account (events i) st) as Hp.
    destruct (processAccount env (autoComment_of script) account (events i) st)
      as [o st1].
    destruct Hp as ([-> | ->] & _ & _ & Hl1).
    + destruct (IH (S i) st1) as (processed & Hsub & Hlog).
      exists (account :: processed). split; [by apply sublist_skip|].
      by rewrite Hlog, Hl1, <- app_assoc.
    + exists [account]. split; [apply sublist_skip, sublist_nil_l|done].
Qed.

(** X12.  [startWork] logs on only accounts that have a [steamID], in
    stored order, and gives no record a [steamID] or another one: an
    account stored without it is skipped by every batch. *)
Theorem startWork_skips_unidentified env script events st :
  let st' := (startWork env (autoComment_of script) events st).2 in
  (∃ processed,
     sublist processed (filter (λ a, identified a = true) (file st))
     ∧ logons (trace st') = logons (trace st) ++ (logOnOptions <$> processed))
  ∧ ∀ i a, file st !! i = Some a →
      ∃ b, file st' !! i = Some b ∧ b !! "steamID" = a !! "steamID".
Proof.
  intros st'. split.
  - subst st'. unfold startWork, file.
    destruct (loadAccounts (disk st)) as [batch d]. simpl.
    apply (forAccounts_identified env script events batch 0 (set_store (accounts st) d st)).
  - pose proof (startWork_file env script _ (edited_survives (file st)) events st
                  (edited_refl _ _)) as [_ H].
    fold st' in H. intros i a Hi. destruct (H i a Hi) as (b & Hb & Hab).
    exists b. split; [done|]. apply Hab.
    intros Hin. repeat (apply elem_of_cons in Hin as [Hin|Hin]; [discriminate Hin|]).
    by apply elem_of_nil in Hin.
Qed.

(** ** [addAccount] *)

(** *** What is typed at the prompt *)

Lemma split_nonempty sep s : Str.split sep s ≠ [].
Proof.
  destruct s as [|c rest]; simpl; [done|].
  destruct (Ascii.eqb c sep); [done|]. by destruct (Str.split sep rest).
Qed.

Lemma split_plain s : plain s = true → Str.split ":" s = [s].
Proof.
  induction s as [|c rest IH]; simpl; [done|].
  intros [Hc Hr]%andb_true_iff. apply negb_true_iff in Hc. by rewrite Hc, (IH Hr).
Qed.

Lemma split_colon u s :
  plain u = true → Str.split ":" (u +:+ String ":" s) = u :: Str.split ":" s.
Proof.
  induction u as [|c rest IH]; simpl; [done|].
  intros [Hc Hr]%andb_true_iff. apply negb_true_iff in Hc. by rewrite Hc, (IH Hr).
Qed.

Lemma split_parts_plain s x : x ∈ Str.split ":" s → plain x = true.
Proof.
  revert x. induction s as [|c rest IH]; simpl; intros x Hx.
  - by apply list_elem_of_singleton in Hx as ->.
  - destruct (Ascii.eqb c ":") eqn:E.
    + apply elem_of_cons in Hx as [->|Hx]; [done|by apply IH].
    + destruct (Str.split ":" rest) as [|first others] eqn:S.
      * apply list_elem_of_singleton in Hx as ->. simpl. by rewrite E.
      * apply elem_of_cons in Hx as [->|Hx].
        -- simpl. rewrite E. simpl. apply IH. by left.
        -- apply IH. by right.
Qed.

Lemma join_cons sep x y l :
  JS.join sep (x :: y :: l) = x +:+ sep +:+ JS.join sep (y :: l).
Proof. done. Qed.

Lemma split_join s : JS.join ":" (Str.split ":" s) = s.
Proof.
  induction s as [|c rest IH]; [done|]. cbn [Str.split].
  pose proof (split_nonempty ":" rest) as Hne.
  destruct (Str.split ":" rest) as [|first others]; [done|].
  destruct (Ascii.eqb c ":") eqn:E.
  - apply Ascii.eqb_eq in E as ->. by rewrite join_cons, IH.
  - destruct others as [|second others].
    + simpl in *. by rewrite IH.
    + rewrite join_cons in *. by rewrite <- IH.
Qed.

Lemma truthy_text (v : option string) :
  JS.truthy (JStr <$> v) = true ↔ ∃ s, v = Some s ∧ s ≠ "".
Proof.
  destruct v as [s|]; simpl.
  - rewrite negb_true_iff. split.
    + intros H. exists s. split; [done|]. intros ->. done.
    + intros (s' & [= <-] & Hs). by apply String.eqb_neq.
  - split; [done|]. by intros (s & H & _).
Qed.

Lemma parse_credentials_Some credentials u p :
  parse_credentials credentials = Some (u, p)
  ↔ Str.split ":" credentials !! 0 = Some u
    ∧ Str.split ":" credentials !! 1 = Some p
    ∧ u ≠ "" ∧ p ≠ "".
Proof.
  unfold parse_credentials.
  destruct (JS.truthy (JStr <$> Str.split ":" credentials !! 0)) eqn:T0; simpl.
  2:{ split; [done|]. intros (H0 & _ & Hu & _).
      assert (JS.truthy (JStr <$> Str.split ":" credentials !! 0) = true) as Ht
        by (apply truthy_text; by exists u).
      congruence. }
  destruct (JS.truthy (JStr <$> Str.split ":" credentials !! 1)) eqn:T1; simpl.
  2:{ split; [done|]. intros (_ & H1 & _ & Hp).
      assert (JS.truthy (JStr <$> Str.split ":" credentials !! 1) = true) as Ht
        by (apply truthy_text; by exists p).
      congruence. }
  apply truthy_text in T0 as (u' & H0 & Hu), T1 as (p' & H1 & Hp).
  rewrite H0, H1. split.
  - intros [= <- <-]. done.
  - intros ([= <-] & [= <-] & _). done.
Qed.

(** X13.  What [addAccount] accepts at the prompt: the login is the text
    before the first colon and the password the text between the first
    colon and the second (or the end), both non-empty; what follows a
    second colon is dropped. *)
Theorem credentials_are_cut_at_colons (credentials u p : string) :
  parse_credentials credentials = Some (u, p)
  ↔ u ≠ "" ∧ p ≠ "" ∧ plain u = true ∧ plain p = true
    ∧ (credentials = u +:+ ":" +:+ p
       ∨ ∃ rest, credentials = u +:+ ":" +:+ p +:+ ":" +:+ rest).
Proof.
  rewrite parse_credentials_Some. split.
  - intros (H0 & H1 & Hu & Hp).
    pose proof (split_join credentials) as Hj.
    pose proof (split_parts_plain credentials) as Hplain.
    destruct (Str.split ":" credentials) as [|first [|second others]]; try done.
    injection H0 as ->. injection H1 as ->.
    split; [done|]. split; [done|].
    split; [apply Hplain; by left|]. split; [apply Hplain; right; by left|].
    destruct others as [|third others].
    + left. by rewrite <- Hj.
    + right. exists (JS.join ":" (third :: others)). rewrite <- Hj.
      by rewrite !join_cons.
  - intros (Hu & Hp & Pu & Pp & [->| [rest ->]]).
    + change (u +:+ ":" +:+ p) with (u +:+ String ":" p).
      rewrite (split_colon u p Pu), (split_plain p Pp). done.
    + change (u +:+ ":" +:+ p +:+ ":" +:+ rest)
        with (u +:+ String ":" (p +:+ String ":" rest)).
      rewrite (split_colon u _ Pu), (split_colon p rest Pp). done.
Qed.

(** *** The record that is written *)

Lemma union_absorbs (a b : Account) : dom b ⊆ dom a → a ∪ b = a.
Proof.
  intros Hd. apply map_eq. intros k. rewrite lookup_union.
  destruct (a !! k) as [x|] eqn:Ea; [by destruct (b !! k)|].
  destruct (b !! k) as [y|] eqn:Eb; [|done].
  assert (k ∈ dom a) as Hin by (apply Hd, elem_of_dom; by eexists).
  apply elem_of_dom in Hin as [x Hx]. congruence.
Qed.

Lemma dom_accountData u p s :
  dom (accountData u p s)
  = ({[ "login"; "password"; "refreshToken"; "commentCounter"; "lastComment"; "steamID" ]}
       : gset string).
Proof. unfold accountData. rewrite !dom_insert_L, dom_singleton_L. set_solver. Qed.

Lemma accountData_absorbs u p s s' :
  accountData u p s ∪ accountData u p s' = accountData u p s.
Proof. apply union_absorbs. by rewrite !dom_accountData. Qed.

Lemma newRecord_accountData u p s :
  newRecord (Some (JStr u)) (accountData u p s) = accountData u p s.
Proof.
  unfold newRecord. apply union_absorbs.
  rewrite dom_accountData, dom_singleton_L. set_solver.
Qed.

Lemma accountData_login u p s : accountData u p s !! "login" = Some (JStr u).
Proof. unfold accountData. by simplify_map_eq. Qed.

(** *** The store while an account is added *)

Section Adding_store.
Variable env : Env.
Variables u p : string.
Variable a : list Account.
Hypothesis Hnew : getAccount a (Some (JStr u)) = None.

Let login : option JVal := Some (JStr u).
Let by_name := by_name u.

Lemma by_name_keeps_login updates : by_name updates → keeps_login login updates.
Proof.
  intros [H|H]; [by left|]. right. rewrite H. simpl. apply String.eqb_refl.
Qed.

Lemma grown_update updates st :
  by_name updates →
  synced st → grown_by u a (accounts st) →
  let st' := (do_updateAccount login updates st).2 in
  synced st'
  ∧ ∃ record, accounts st' = a ++ [record]
              ∧ record !! "login" = Some (JStr u)
              ∧ record = match getAccount (accounts st) login with
                         | Some (_, found) => updates ∪ found
                         | None => newRecord login updates
                         end.
Proof.
  intros Hu Hs Hg. unfold do_updateAccount, login.
  destruct Hg as [Ha|(r & Ha & Hr & _)].
  - rewrite Ha, (updateAccount_missing _ _ _ _ Hnew), Hnew. simpl.
    split; [done|]. exists (newRecord login updates). split; [done|]. split; [|done].
    destruct Hu as [Hu|Hu].
    + by rewrite newRecord_login.
    + rewrite newRecord_named by (by eexists). done.
  - assert (getAccount (a ++ [r]) (Some (JStr u)) = Some (length a, r)) as G.
    { apply (getAccount_app _ _ _ Hnew). rewrite Hr. simpl. apply String.eqb_refl. }
    rewrite Ha, (updateAccount_found _ _ _ _ _ _ G), G. simpl.
    rewrite insert_app_r_alt by lia. rewrite Nat.sub_diag. simpl.
    split; [done|]. exists (updates ∪ r). split; [done|]. split; [|done].
    destruct Hu as [Hu|Hu].
    + by rewrite lookup_union_r.
    + by apply lookup_union_Some_l.
Qed.

Lemma grown_update_weak updates st :
  by_name updates →
  synced st ∧ grown_by u a (accounts st) →
  let st' := (do_updateAccount login updates st).2 in
  synced st' ∧ grown_by u a (accounts st').
Proof.
  intros Hu [Hs Hg].
  destruct (grown_update updates st Hu Hs Hg) as (Hs' & r & Ha & Hr & _).
  split; [done|]. right. by exists r.
Qed.

Lemma by_name_accountData s : by_name (accountData u p s).
Proof. right. apply accountData_login. Qed.

Lemma by_name_cooldown st : by_name (cooldown_update env st).
Proof. left. unfold cooldown_update. by simplify_map_eq. Qed.

Lemma add_deliver_grown ss ev :
  synced ss.2 ∧ grown_by u a (accounts ss.2) →
  synced (add_deliver env u p ss ev).2
  ∧ grown_by u a (accounts (add_deliver env u p ss ev).2).
Proof.
  destruct ss as [s st]. cbn [snd]. intros H.
  destruct ev as [sid| |tok|e| |ms]; cbn [add_deliver]; try done.
  - unfold add_loggedOn. destruct (JS.truthy _); [|done].
    apply grown_update_weak; [apply by_name_accountData|done].
  - unfold add_refreshToken_event. destruct (JS.truthy _); [|done].
    apply grown_update_weak; [apply by_name_accountData|done].
  - unfold add_error. cbn [snd].
    destruct (eresult e =? 5)%Z; [done|]. destruct (eresult e =? 63)%Z; [done|].
    destruct (JS.includes (message e) frequency_message); [|done].
    apply grown_update_weak; [apply by_name_cooldown|done].
Qed.

Lemma adding_grown events st :
  synced st → accounts st = a →
  synced (adding env u p events st).2
  ∧ grown_by u a (accounts (adding env u p events st).2).
Proof.
  intros Hs Ha. induction events as [|ev events IH] using rev_ind.
  - split; [done|]. by left.
  - unfold adding in *. rewrite fold_left_app. simpl. by apply add_deliver_grown.
Qed.
End Adding_store.

Lemma loaded_synced st :
  synced (set_store (loadAccounts (disk st)).1 (loadAccounts (disk st)).2 st).
Proof. unfold synced. simpl. by destruct (disk st). Qed.

Lemma addAccount_unfold env script credentials events st :
  addAccount env script credentials events st
  = match parse_credentials credentials with
    | None => (returned, st)
    | Some (username, password) =>
        let st1 := set_store (file st) (Some (file st)) st in
        match getAccount (file st) (Some (JStr username)) with
        | Some _ => (returned, st1)
        | None =>
            let ss := adding env username password events st1 in
            (match add_promise ss.1 with
             | Pending => waiting
             | Resolved => returned
             | Rejected e =>
                 match script with
                 | src_index => returned
                 | second_script => crashed Str.ReferenceError
                 end
             end, ss.2)
        end
    end.
Proof.
  unfold addAccount, file.
  destruct (parse_credentials credentials) as [[username password]|]; [|done].
  assert (loadAccounts (disk st) = ((loadAccounts (disk st)).1, Some (loadAccounts (disk st)).1))
    as E by (by destruct (disk st)).
  rewrite E at 1. cbn [fst].
  destruct (getAccount _ _); [done|].
  destruct (adding env username password events _) as [s st2]. cbn [fst snd].
  destruct (add_promise s) as [| |e]; try done. by destruct script.
Qed.

(** What [addAccount] does to the file, whatever is typed and whatever
    the client emits. *)
Lemma addAccount_grows env script credentials events st :
  let st' := (addAccount env script credentials events st).2 in
  file st' = file st
  ∨ ∃ username password,
      parse_credentials credentials = Some (username, password)
      ∧ synced st'
      ∧ grown_by username (file st) (accounts st').
Proof.
  intros st'. subst st'. rewrite addAccount_unfold.
  destruct (parse_credentials credentials) as [[username password]|]; [|by left].
  cbn zeta.
  destruct (getAccount (file st) (Some (JStr username))) eqn:G; [by left|].
  right. exists username, password. split; [done|]. cbn [snd].
  by apply (adding_grown env username password (file st) G).
Qed.

(** *** The join of [addAccount] *)

Lemma last_login_snoc events ev :
  last_login (events ++ [ev])
  = match ev with
    | loggedOn steamID64 => Some steamID64
    | _ => last_login events
    end.
Proof.
  unfold last_login. rewrite omap_app.
  destruct ev; simpl; rewrite ?app_nil_r; try done. apply last_snoc.
Qed.

Lemma last_token_snoc events ev :
  last_token (events ++ [ev])
  = match ev with
    | refreshToken newToken => Some newToken
    | _ => last_token events
    end.
Proof.
  unfold last_token. rewrite omap_app.
  destruct ev; simpl; rewrite ?app_nil_r; try done. apply last_snoc.
Qed.

Lemma last_login_elem events steamID64 :
  last_login events = Some steamID64 → loggedOn steamID64 ∈ events.
Proof.
  induction events as [|ev events IH] using rev_ind; [done|].
  rewrite last_login_snoc. intros H. apply elem_of_app.
  destruct ev; try (left; by apply IH). injection H as ->. right. by left.
Qed.

Lemma last_token_elem events token :
  last_token events = Some token → refreshToken token ∈ events.
Proof.
  induction events as [|ev events IH] using rev_ind; [done|].
  rewrite last_token_snoc. intros H. apply elem_of_app.
  destruct ev; try (left; by apply IH). injection H as ->. right. by left.
Qed.

Lemma truthy_nullable (v : option string) :
  (∀ s, v = Some s → s ≠ "") →
  JS.truthy (Some (nullable v)) = match v with Some _ => true | None => false end.
Proof.
  intros H. destruct v as [s|]; [|done]. simpl. apply negb_true_iff, String.eqb_neq.
  by apply H.
Qed.

Section Adding_join.
Variable env : Env.
Variables u p : string.
Variable a : list Account.
Hypothesis Hnew : getAccount a (Some (JStr u)) = None.

Lemma joined_grown events ss : joined u p a events ss → grown_by u a (accounts ss.2).
Proof.
  intros (_ & _ & _ & H).
  destruct (last_login events), (last_token events);
    destruct H as [_ ->]; try (by left).
  right. eexists. split; [done|]. split; [apply accountData_login|done].
Qed.

(** The update made once both values are known. *)
Lemma add_account_joined events s st s' :
  joined u p a events (s, st) →
  let ss' := add_account u p s' st in
  synced ss'.2
  ∧ add_promise ss'.1 = resolve (add_promise s')
  ∧ accounts ss'.2 = a ++ [accountData u p s'].
Proof.
  intros Hj. unfold add_account. cbn [fst snd add_promise].
  pose proof (joined_grown events (s, st) Hj) as Hg.
  destruct Hj as (_ & _ & Hs & Hm). cbn [fst snd] in *.
  destruct (grown_update u a Hnew (accountData u p s') st
              (by_name_accountData u p s') Hs Hg) as (Hs' & r & Ha & _ & Hr).
  split; [done|]. split; [done|]. rewrite Ha. f_equal. f_equal. rewrite Hr.
  destruct (last_login events), (last_token events); destruct Hm as [_ Hm];
    rewrite Hm; rewrite ?Hnew; try apply newRecord_accountData.
  rewrite (getAccount_app _ _ _ Hnew)
    by (rewrite accountData_login; simpl; apply String.eqb_refl).
  apply accountData_absorbs.
Qed.

Lemma adding_joined events st :
  synced st → accounts st = a →
  (∀ e, error e ∉ events) →
  (∀ steamID64, loggedOn steamID64 ∈ events → steamID64 ≠ "") →
  (∀ token, refreshToken token ∈ events → token ≠ "") →
  joined u p a events (adding env u p events st).
Proof.
  intros Hs Ha. induction events as [|ev events IH] using rev_ind;
    intros Herr Hids Htokens.
  - by repeat split.
  - assert (Hin : ∀ x : Event, x ∈ events → x ∈ events ++ [ev])
      by (intros x Hx; apply elem_of_app; by left).
    assert (Hlast : ev ∈ events ++ [ev])
      by (apply elem_of_app; right; by left).
    specialize (IH ltac:(intros e He; by apply (Herr e), Hin)
                   ltac:(intros sid Hsid; by apply Hids, Hin)
                   ltac:(intros tok Htok; by apply Htokens, Hin)).
    unfold adding in *. rewrite fold_left_app. cbn [fold_left].
    destruct (fold_left (add_deliver env u p) events (add_open u p st)) as [s st'].
    pose proof IH as (I1 & I2 & I3 & I4). cbn [fst snd] in I1, I2, I3, I4.
    unfold joined. rewrite last_login_snoc, last_token_snoc.
    destruct ev as [sid| |tok|e| |ms]; cbn [add_deliver].
    + unfold add_loggedOn. cbn [add_refreshToken].
      rewrite truthy_nullable
        by (intros t Ht; rewrite I2 in Ht; by apply Htokens, Hin, last_token_elem).
      rewrite <- I2. destruct (add_refreshToken s) as [t|] eqn:Et.
      * match goal with
        | |- context [add_account u p ?x st'] =>
            destruct (add_account_joined events s st' x IH) as (J1 & J2 & J3)
        end.
        repeat split; try done.
        rewrite J2. cbn [add_promise].
        destruct (last_login events), (last_token events); by destruct I4 as [-> _].
      * repeat split; try done; cbn [fst snd add_promise];
          rewrite <- I2 in I4; by destruct (last_login events); destruct I4.
    + done.
    + unfold add_refreshToken_event. cbn [add_steamID].
      rewrite truthy_nullable
        by (intros t Ht; rewrite I1 in Ht; by apply Hids, Hin, last_login_elem).
      rewrite <- I1. destruct (add_steamID s) as [sid|] eqn:Es.
      * match goal with
        | |- context [add_account u p ?x st'] =>
            destruct (add_account_joined events s st' x IH) as (J1 & J2 & J3)
        end.
        repeat split; try done.
        rewrite J2. cbn [add_promise].
        destruct (last_login events), (last_token events); by destruct I4 as [-> _].
      * repeat split; try done; cbn [fst snd add_promise];
          rewrite <- I1 in I4; by destruct I4.
    + by destruct (Herr e).
    + done.
    + done.
Qed.
End Adding_join.

(** X14.  The join of [addAccount].  For a login that is new to the file
    and events without errors, with non-empty identities and tokens:
    [addAccount] returns exactly when the client has emitted both a
    [loggedOn] and a [refreshToken] event, in whatever order; the file
    then holds the records it held, followed by one record with the login,
    the password, the last token, the last identity, [commentCounter] 0
    and [lastComment] [null]; until then nothing is written. *)
Theorem addAccount_waits_for_both env script credentials u p events st :
  parse_credentials credentials = Some (u, p) →
  getAccount (file st) (Some (JStr u)) = None →
  (∀ e, error e ∉ events) →
  (∀ steamID64, loggedOn steamID64 ∈ events → steamID64 ≠ "") →
  (∀ token, refreshToken token ∈ events → token ≠ "") →
  let '(outcome, st') := addAccount env script credentials events st in
  disk st' = Some (accounts st')
  ∧ match last_login events, last_token events with
    | Some steamID64, Some token =>
        outcome = returned
        ∧ accounts st'
          = file st ++ [ {[ "login" := JStr u; "password" := JStr p;
                            "refreshToken" := JStr token; "commentCounter" := JNum 0;
                            "lastComment" := JNull; "steamID" := JStr steamID64 ]} ]
    | _, _ => outcome = waiting ∧ accounts st' = file st
    end.
Proof.
  intros Hc Hnew Herr Hids Htokens. rewrite addAccount_unfold, Hc, Hnew. cbn zeta.
  pose proof (adding_joined env u p (file st) Hnew events
                (set_store (file st) (Some (file st)) st) eq_refl eq_refl
                Herr Hids Htokens) as (I1 & I2 & I3 & I4).
  destruct (adding env u p events _) as [s st']. cbn [fst snd] in *.
  split; [done|].
  destruct (last_login events) as [sid|], (last_token events) as [tok|];
    destruct I4 as [-> ->]; try done.
  split; [done|]. unfold accountData. by rewrite I1, I2.
Qed.

(** *** A rate-limit error while an account is added *)

Lemma newRecord_insert (l : JVal) (updates : Account) :
  updates !! "login" = None → newRecord (Some l) updates = <[ "login" := l ]> updates.
Proof. intros H. unfold newRecord. by rewrite insert_union_singleton_r. Qed.

Lemma file_synced st : synced st → file st = accounts st.
Proof. unfold synced, file. by intros ->. Qed.

(** X15.  A posting-frequency error (result code other than 5 and 63)
    while an account is added leaves a record with the login, the counter
    and [lastComment] only: it has no [steamID], so every batch skips it,
    and adding the login again is refused.  [src/index.js] returns to the
    menu; the second script is left by the [ReferenceError] of its
    [catch] block. *)
Theorem addAccount_rate_limit_stub env script credentials u p e st :
  parse_credentials credentials = Some (u, p) →
  getAccount (file st) (Some (JStr u)) = None →
  eresult e ≠ 5%Z → eresult e ≠ 63%Z →
  JS.includes (message e) frequency_message = true →
  let '(outcome, st') := addAccount env script credentials [error e] st in
  let stub : Account :=
    {[ "login" := JStr u; "commentCounter" := JNum 0;
       "lastComment" := JStr (toISOString env (now st)) ]} in
  accounts st' = file st ++ [stub]
  ∧ disk st' = Some (accounts st')
  ∧ outcome = match script with
              | src_index => returned
              | second_script => crashed Str.ReferenceError
              end
  ∧ identified stub = false
  ∧ ∀ events', addAccount env script credentials events' st' = (returned, st').
Proof.
  intros Hc Hnew H5 H63 Hf.
  destruct (addAccount env script credentials [error e] st) as [outcome st'] eqn:E.
  rewrite addAccount_unfold, Hc, Hnew in E. cbn zeta in E.
  unfold adding, add_open in E. cbn [fold_left add_deliver] in E.
  unfold add_error in E.
  apply Z.eqb_neq in H5, H63. rewrite H5, H63, Hf in E.
  cbn [fst snd add_promise reject] in E.
  unfold stop_account, do_updateAccount in E.
  cbn [accounts disk emit set_store] in E.
  rewrite (updateAccount_missing _ _ _ _ Hnew) in E. cbn [snd] in E.
  rewrite newRecord_insert in E by (unfold cooldown_update; by simplify_map_eq).
  injection E as <- <-. cbn zeta.
  split; [done|]. split; [done|]. split; [by destruct script|]. split; [done|].
  intros events'. rewrite addAccount_unfold, Hc. cbn zeta.
  rewrite file_synced by done. cbn [accounts set_store].
  rewrite (getAccount_app _ _ _ Hnew); [done|].
  simplify_map_eq. simpl. apply String.eqb_refl.
Qed.

(** ** [viewAccounts] and [main] *)

(** X16.  The listing and the batch.  An account that [viewAccounts]
    shows as allowed to post is not held back by the cool-down test of
    [startWork] and [autoComment]; the two tests differ exactly when
    [lastComment] is set and is not a date, or lies exactly twenty-four
    hours back: the listing says [No] and the batch processes the
    account. *)
Theorem listing_and_batch_differ_at_the_boundary env (account : Account) currentTime :
  (canPostComments env account currentTime = true →
   coolingDown env account currentTime = false)
  ∧ (canPostComments env account currentTime = false
     ∧ coolingDown env account currentTime = false
     ↔ JS.truthy (account !! "lastComment") = true
       ∧ match Date_getTime env (account !! "lastComment") with
         | Some lastCommentTime => (currentTime - lastCommentTime = twentyFourHours)%Z
         | None => True
         end).
Proof.
  unfold canPostComments, coolingDown.
  destruct (JS.truthy (account !! "lastComment")); simpl.
  2:{ split; [done|]. split; [by intros [? _]|by intros [? _]]. }
  destruct (Date_getTime env (account !! "lastComment")) as [last|].
  2:{ split; [done|]. by split. }
  split.
  - intros H%Z.ltb_lt. apply Z.ltb_ge. lia.
  - split.
    + intros [H1%Z.ltb_ge H2%Z.ltb_ge]. split; [done|lia].
    + intros [_ H]. split; [apply Z.ltb_ge|apply Z.ltb_ge]; lia.
Qed.

(** *** Invariants of the file under the menu *)

Lemma viewAccounts_file env toLocaleString script st :
  file (viewAccounts env toLocaleString script st).2 = file st.
Proof. unfold viewAccounts, file. by destruct (disk st). Qed.

Section Menu_file.
Variable env : Env.
Variable toLocaleString : option Z → string.
Variable script : Script.
Variable F : list Account → Prop.
Hypothesis HF : survives session_fields F.
Hypothesis HG : ∀ username old new, grown_by username old new → F old → F new.

Lemma addAccount_file credentials events st :
  F (file st) → F (file (addAccount env script credentials events st).2).
Proof.
  intros H.
  destruct (addAccount_grows env script credentials events st)
    as [->|(u & p & _ & Hs & Hg)]; [done|].
  rewrite (file_synced _ Hs). by apply (HG u (file st)).
Qed.

Lemma main_file turns st :
  F (file st) → F (file (main env toLocaleString script turns st).2).
Proof.
  revert st. induction turns as [|turn rest IH]; intros st H; cbn [main]; [done|].
  destruct (String.eqb (choice turn) "1").
  { pose proof (startWork_file env script F HF (batch_events turn) st H) as Hw.
    destruct (startWork env (autoComment_of script) (batch_events turn) st)
      as [[| |e] st']; cbn [after snd] in *; [by apply IH|done..]. }
  destruct (String.eqb (choice turn) "2").
  { pose proof (addAccount_file (credentials turn) (add_events turn) st H) as Ha.
    destruct (addAccount env script (credentials turn) (add_events turn) st)
      as [[| |e] st']; cbn [after snd] in *; [by apply IH|done..]. }
  destruct (String.eqb (choice turn) "3").
  { apply IH. by rewrite viewAccounts_file. }
  destruct (String.eqb (choice turn) "0"); [done|]. by apply IH.
Qed.
End Menu_file.

Lemma edited_grown fields username (old0 old new : list Account) :
  grown_by username old new → edited fields old0 old → edited fields old0 new.
Proof.
  intros [->|(r & -> & _)] [L H]; [done|]. split; [rewrite length_app; lia|].
  intros i a Hi. destruct (H i a Hi) as (b & Hb & Hab). exists b.
  split; [by apply lookup_app_l_Some|done].
Qed.

Lemma unique_grown username (old new : list Account) :
  grown_by username old new → unique_logins old = true → unique_logins new = true.
Proof.
  intros [->|(r & -> & Hr & Hnew)] Hu; [done|]. apply unique_logins_app.
  split; [done|]. intros a Ha. rewrite Hr. by apply (getAccount_None _ _ Hnew).
Qed.

(** X17.  Whatever is typed at the menu and whatever the clients emit,
    in both scripts: no record of the file is removed or moved, and a
    record is changed in [refreshToken], [commentCounter] and
    [lastComment] at most (its login, password and [steamID] stay). *)
Theorem menu_keeps_the_records env toLocaleString script turns st :
  let st' := (main env toLocaleString script turns st).2 in
  length (file st) ≤ length (file st')
  ∧ ∀ i a, file st !! i = Some a →
      ∃ b, file st' !! i = Some b
           ∧ ∀ k, k ∉ ["refreshToken"; "commentCounter"; "lastComment"] → b !! k = a !! k.
Proof.
  apply (main_file env toLocaleString script (edited session_fields (file st))
           (edited_survives (file st))
           (λ u old new, edited_grown session_fields u (file st) old new)
           turns st (edited_refl _ _)).
Qed.

(** X18.  Whatever is typed at the menu and whatever the clients emit,
    the logins of the file stay pairwise different. *)
Theorem menu_keeps_logins_unique env toLocaleString script turns st :
  unique_logins (file st) = true →
  unique_logins (file (main env toLocaleString script turns st).2) = true.
Proof.
  apply (main_file env toLocaleString script (λ l, unique_logins l = true)
           unique_survives unique_grown turns st).
Qed.

(** *** Exceptions under the menu *)

Lemma adding_rejected env u p events st e :
  add_promise (adding env u p events st).1 = Rejected e → error e ∈ events.
Proof.
  induction events as [|ev events IH] using rev_ind; [done|].
  unfold adding in *. rewrite fold_left_app. cbn [fold_left].
  destruct (fold_left (add_deliver env u p) events (add_open u p st)) as [s st'].
  cbn [fst] in IH. intros H. apply elem_of_app.
  destruct ev as [sid| |tok|e'| |ms]; cbn [add_deliver] in H.
  - unfold add_loggedOn in H. destruct (JS.truthy _); cbn [fst add_account add_promise] in H.
    + destruct (add_promise s); try done. left. by apply IH.
    + left. by apply IH.
  - left. by apply IH.
  - unfold add_refreshToken_event in H.
    destruct (JS.truthy _); cbn [fst add_account add_promise] in H.
    + destruct (add_promise s); try done. left. by apply IH.
    + left. by apply IH.
  - unfold add_error in H. cbn [fst add_promise] in H.
    destruct (add_promise s) eqn:P; cbn [reject] in H.
    + injection H as ->. right. by left.
    + done.
    + left. by apply IH.
  - left. by apply IH.
  - left. by apply IH.
Qed.

Lemma addAccount_crashed env script credentials events st message :
  (addAccount env script credentials events st).1 = crashed message →
  script = second_script ∧ message = Str.ReferenceError ∧ ∃ e, error e ∈ events.
Proof.
  rewrite addAccount_unfold.
  destruct (parse_credentials credentials) as [[u p]|]; [|done]. cbn zeta.
  destruct (getAccount (file st) (Some (JStr u))); [done|]. cbn [fst].
  destruct (add_promise _) as [| |e] eqn:P; [done..|].
  destruct script; [done|]. intros [= <-]. split; [done|]. split; [done|].
  exists e. by eapply adding_rejected.
Qed.

Lemma main_uncaught env toLocaleString script turns st message :
  (main env toLocaleString script turns st).1 = uncaught message →
  script = second_script ∧ message = Str.ReferenceError
  ∧ ∃ turn e, turn ∈ turns ∧ choice turn = "2" ∧ error e ∈ add_events turn.
Proof.
  revert st. induction turns as [|turn rest IH]; intros st; cbn [main]; [done|].
  assert (Hrest : ∀ st', (main env toLocaleString script rest st').1 = uncaught message →
            script = second_script ∧ message = Str.ReferenceError
            ∧ ∃ turn' e, turn' ∈ turn :: rest ∧ choice turn' = "2"
                         ∧ error e ∈ add_events turn').
  { intros st' H. destruct (IH st' H) as (H1 & H2 & t & e & Ht & Hc & He).
    split; [done|]. split; [done|]. exists t, e. split; [by right|done]. }
  destruct (String.eqb (choice turn) "1").
  { pose proof (startWork_outcome env (autoComment_of script) (batch_events turn) st
                  (autoComment_of_cases script)) as Hw.
    destruct (startWork env (autoComment_of script) (batch_events turn) st)
      as [[| |e] st']; cbn [after fst]; [apply Hrest|done|].
    by destruct Hw as [[?|?] _]. }
  destruct (String.eqb (choice turn) "2") eqn:E2.
  { pose proof (addAccount_crashed env script (credentials turn) (add_events turn) st) as Ha.
    destruct (addAccount env script (credentials turn) (add_events turn) st)
      as [[| |m] st']; cbn [after fst] in *; [apply Hrest|done|].
    intros [= <-]. destruct (Ha m eq_refl) as (H1 & H2 & e & He).
    split; [done|]. split; [done|]. exists turn, e.
    split; [by left|]. split; [by apply String.eqb_eq|done]. }
  destruct (String.eqb (choice turn) "3"); [apply Hrest|].
  destruct (String.eqb (choice turn) "0"); [done|apply Hrest].
Qed.

(** X19.  Exceptions under the menu.  [main] of [src/index.js] is never
    left by an exception.  [main] of the second script is left by one
    only through its [addAccount]: by the [ReferenceError] of the [catch]
    block, after a login error of the account being added. *)
Theorem menu_exceptions env toLocaleString turns st :
  (∀ message, (main env toLocaleString src_index turns st).1 ≠ uncaught message)
  ∧ ∀ message,
      (main env toLocaleString second_script turns st).1 = uncaught message →
      message = Str.ReferenceError
      ∧ ∃ turn e, turn ∈ turns ∧ choice turn = "2" ∧ error e ∈ add_events turn.
Proof.
  split.
  - intros message H. by destruct (main_uncaught _ _ _ _ _ _ H) as [? _].
  - intros message H. by destruct (main_uncaught _ _ _ _ _ _ H) as (_ & ? & ?).
Qed.

(** ** The cool-down read back, and the token on disk *)

(** X20.  The cool-down read back.  Once the record of an account has
    been stamped at the time [T] (and [Date] reads the stamp back as
    [T]), the test of [startWork] and [autoComment] holds the record back
    at every time before [T] plus twenty-four hours and at no later time,
    and [viewAccounts] shows it as allowed to post at every time after
    [T] plus twenty-four hours and at no earlier time. *)
Theorem cool_down_lasts_a_day env login st :
  primitive login = true →
  cooled env login st →
  Date_parse env (toISOString env (now st)) = Some (now st) →
  toISOString env (now st) ≠ "" →
  ∃ i record,
    getAccount (file st) login = Some (i, record)
    ∧ ∀ t, (coolingDown env record t = true ↔ (t < now st + twentyFourHours)%Z)
           ∧ (canPostComments env record t = true ↔ (now st + twentyFourHours < t)%Z).
Proof.
  intros Hp [Hs Hc] Hd Hne. destruct (Hc Hp) as [_ Hl].
  unfold stored in Hl. rewrite (file_synced _ Hs). unfold synced in Hs. rewrite Hs in Hl.
  destruct (getAccount (accounts st) login) as [[i record]|]; [|done].
  exists i, record. split; [done|]. intros t.
  unfold coolingDown, canPostComments. rewrite Hl. unfold stamp. simpl.
  assert (String.eqb (toISOString env (now st)) "" = false) as -> by (by apply String.eqb_neq).
  simpl. rewrite Hd. split.
  - rewrite Z.ltb_lt. lia.
  - rewrite Z.ltb_lt. lia.
Qed.

Section Token.
Variable env : Env.
Variable script : Script.
Variable account : Account.
Hypothesis Hlogin : primitive (account !! "login") = true.

Let login := account !! "login".







End Token.


(** *** A client that stays silent *)

Lemma session_rejected env autoComment (account : Account) events st e :
  promise (session env autoComment account events st).1 = Rejected e → error e ∈ events.
Proof.
  induction events as [|ev events IH] using rev_ind.
  - unfold session, open. simpl. by destruct (loadAccounts (disk st)).
  - rewrite session_snoc.
    destruct (session env autoComment account events st) as [s st'].
    cbn [fst] in IH. intros H. apply elem_of_app. unfold deliver in H.
    destruct (unhandled s); [left; by apply IH|].
    destruct ev as [sid| |tok|e'| |ms].
    + left. by apply IH.
    + unfold on_webSession in H.
      pose proof (listeners_flags env autoComment account (webSessionListeners s) (s, st'))
        as (_ & _ & F3 & _).
      rewrite F3 in H. left. by apply IH.
    + unfold on_refreshToken in H. destruct (do_updateAccount _ _ st') as [r st''].
      cbn [fst promise] in H. left. apply IH.
      destruct (isLoggedOn s); [|done]. by destruct (promise s).
    + unfold on_error in H. cbn [fst promise] in H.
      destruct (promise s) eqn:P; cbn [reject] in H.
      * injection H as ->. right. by left.
      * done.
      * left. by apply IH.
    + unfold on_disconnected in H. cbn [fst promise] in H. left. apply IH.
      destruct (disconnectedListeners s); [done|]. by destruct (promise s).
    + left. by apply IH.
Qed.

(** X22.  No timeout.  When the client of an eligible account emits no
    [refreshToken], no [disconnected] and no [error] event, the promise of
    [processAccount] stays pending: the batch waits at this account, after
    its [logOn], and the accounts after it are not reached. *)
Theorem batch_waits_without_timeout env script events i (account : Account) rest st :
  identified account = true →
  coolingDown env account (now st) = false →
  (∀ newToken, refreshToken newToken ∉ events i) →
  disconnected ∉ events i →
  (∀ e, error e ∉ events i) →
  let ss := session env (autoComment_of script) account (events i) st in
  promise ss.1 = Pending
  ∧ forAccounts env (autoComment_of script) events i (account :: rest) st = (waiting, ss.2)
  ∧ logons (trace ss.2) = logons (trace st) ++ [logOnOptions account].
Proof.
  intros Hid Hc Htoken Hdisc Herr ss.
  assert (Hp : promise ss.1 = Pending).
  { destruct (promise ss.1) as [| |e] eqn:P; [done|..].
    - destruct (resolved_by_token_or_disconnect env (autoComment_of script) account
                  (events i) st P) as [[t Ht]|Hd]; [by destruct (Htoken t)|done].
    - destruct (Herr e).
      by apply (session_rejected env (autoComment_of script) account (events i) st). }
  split; [done|]. cbn [forAccounts]. unfold identified in Hid. rewrite Hid, Hc.
  cbn [negb].
  pose proof (processAccount_outcome env (autoComment_of script)
                (autoComment_of_cases script) account (events i) st) as Ho.
  destruct (processAccount env (autoComment_of script) account (events i) st) as [o st1].
  destruct Ho as (_ & Hw & -> & Hl). fold ss in Hw, Hl |- *.
  split; [|done]. destruct Hw as [_ Hw]. by rewrite (Hw Hp).
Qed.

(** ** More concrete runs *)

(** Stamping [lastComment] on the record of [bob]. *)
Lemma updateAccount_read_after_write_witness :
  let accounts := [Demo.alice; Demo.bob] in
  let login := Some (JStr "bob") in
  let updates : Account := {[ "lastComment" := JStr Demo.noon_iso ]} in
  (primitive login = true ∧ keeps_login login updates)
  ∧ let '(accounts', fs') := updateAccount accounts login updates None in
    loadAccounts fs' = (accounts', fs')
    ∧ ∃ i record,
        getAccount accounts' login = Some (i, record)
        ∧ (∀ k v, updates !! k = Some v → record !! k = Some v)
        ∧ (∀ j acc, getAccount accounts login = Some (j, acc) →
           i = j ∧ ∀ k, updates !! k = None → record !! k = acc !! k)
        ∧ (getAccount accounts login = None → i = length accounts).
Proof.
  intros accounts login updates.
  assert (H1 : primitive login = true) by reflexivity.
  assert (H2 : keeps_login login updates) by (left; by vm_compute).
  split; [by split|].
  exact (updateAccount_read_after_write accounts login updates None H1 H2).
Defined.


(** A new token for [bob] in a store of two. *)
Lemma updateAccount_keeps_unique_logins_witness :
  let accounts := [Demo.alice; Demo.bob] in
  let login := Some (JStr "bob") in
  let updates : Account := {[ "refreshToken" := JStr "eyJ.new" ]} in
  (keeps_login login updates ∧ unique_logins accounts = true)
  ∧ let '(accounts', fs') := updateAccount accounts login updates None in
    unique_logins accounts' = true
    ∧ (length accounts' = length accounts ∨ length accounts' = S (length accounts))
    ∧ (length accounts' = length accounts ↔ is_Some (getAccount accounts login)).
Proof.
  intros accounts login updates.
  assert (H1 : keeps_login login updates) by (left; by vm_compute).
  assert (H2 : unique_logins accounts = true) by (by vm_compute).
  split; [by split|].
  exact (updateAccount_keeps_unique_logins accounts login updates None H1 H2).
Defined.

(** A listing in which one identity appears twice: the later entry
    decides the profile id. *)
Lemma later_profile_wins :
  let items :=
    [JObj [("steamId", JStr "76561198000000001"); ("id", JNum 41)];
     JObj [("steamId", JStr "76561198000000002"); ("id", JNum 42)];
     JObj [("steamId", JStr "76561198000000001"); ("id", JNum 43)]] in
  ∃ m, collect items no_profiles = Ok m
       ∧ registered m "76561198000000001" = true
       ∧ repSteamProfilesObj m !! "76561198000000001" = Some (JNum 43)
       ∧ registered m "76561198000000003" = false.
Proof. eexists. split; [reflexivity|]. repeat split; by vm_compute. Qed.

(** A cycle with an empty task list posts nothing and starts the
    cool-down all the same. *)
Lemma cool_down_starts_on_completion_witness :
  let env := Demo.env_tasks (Ok (JArr [])) in
  let st := Demo.loaded [Demo.alice] in
  let login := Demo.alice !! "login" in
  let before := stored st login "lastComment" in
  (synced st ∧ coolingDown env Demo.alice (now st) = false)
  ∧ match SrcIndex.body env Demo.steamID64 Demo.alice st with
    | (Ok _, st') => cooled env login st'
    | (Throw _, st') => not_stamped login before st'
    end
    ∧ match RootIndex.body env Demo.steamID64 Demo.alice st with
      | (Ok _, st') =>
          cooled env login st'
          ∨ (not_stamped login before st' ∧ last (trace st') = Some EGetSteamProfiles)
      | (Throw _, st') => not_stamped login before st'
      end.
Proof.
  intros env st login before.
  assert (H1 : synced st) by reflexivity.
  assert (H2 : coolingDown env Demo.alice (now st) = false) by (by vm_compute).
  split; [by split|].
  exact (cool_down_starts_on_completion env Demo.steamID64 Demo.alice st H1 H2).
Defined.

Lemma empty_task_list_starts_cool_down :
  let env := Demo.env_tasks (Ok (JArr [])) in
  let st' := (SrcIndex.autoComment env Demo.steamID64 Demo.alice
                (Demo.loaded [Demo.alice])).2 in
  count is_post (trace st') = 0
  ∧ stored st' (Demo.alice !! "login") "lastComment" = Some (stamp env st').
Proof. split; by vm_compute. Qed.

(** A cycle whose task request fails leaves [lastComment] alone. *)
Lemma failed_cycle_starts_no_cool_down :
  let env := Demo.env_tasks (Throw "ECONNRESET") in
  let st := Demo.loaded [Demo.alice] in
  let st' := (SrcIndex.autoComment env Demo.steamID64 Demo.alice st).2 in
  (SrcIndex.body env Demo.steamID64 Demo.alice st).1 = Throw "ECONNRESET"
  ∧ stored st' (Demo.alice !! "login") "lastComment" = None
  ∧ stored st' (Demo.alice !! "login") "commentCounter" = Some (JNum 0).
Proof. repeat split; by vm_compute. Qed.

(** Every post is answered by the posting-frequency message. *)
Lemma scripts_agree_witness :
  let env := Demo.env_posting (λ _, Ok (Some frequency_message)) in
  let st := Demo.loaded [Demo.alice] in
  (primitive (Demo.alice !! "login") = true
   ∧ no_transient_answer env ∧ plain_listing env)
  ∧ SrcIndex.autoComment env Demo.steamID64 Demo.alice st
    = RootIndex.autoComment env Demo.steamID64 Demo.alice st.
Proof.
  intros env st.
  assert (H1 : primitive (Demo.alice !! "login") = true) by (by vm_compute).
  assert (H2 : no_transient_answer env).
  { intros n userID text msg H. injection H as <-. by vm_compute. }
  assert (H3 : plain_listing env).
  { intros n json response items Hf Hu He. injection Hf as <-.
    vm_compute in Hu. injection Hu as <-. vm_compute in He. by injection He as <-. }
  split; [by repeat split|].
  exact (scripts_agree env Demo.steamID64 Demo.alice st H1 H2 H3).
Defined.

(** A wrong password after the login was confirmed. *)
Lemma login_error_ends_session_witness :
  let events := [loggedOn Demo.steamID64] in
  let e := Demo.wrong_password in
  let st := Demo.start [Demo.alice] in
  let ss := session Demo.env (autoComment_of src_index) Demo.alice events st in
  promise ss.1 = Pending
  ∧ let run := processAccount Demo.env (autoComment_of src_index) Demo.alice
                 (events ++ [error e]) st in
    run.1 = returned
    ∧ promise (session Demo.env (autoComment_of src_index) Demo.alice
                 (events ++ [error e]) st).1 = Rejected e
    ∧ if (eresult e =? 5)%Z || (eresult e =? 63)%Z
         || negb (JS.includes (message e) frequency_message)
      then run.2 = ss.2
      else run.2 = (stop_account Demo.env (Demo.alice !! "login") ss.2).2
           ∧ trace run.2 = trace ss.2
           ∧ cooled Demo.env (Demo.alice !! "login") run.2.
Proof.
  intros events e st ss.
  assert (H : promise ss.1 = Pending) by (by vm_compute).
  split; [done|].
  exact (login_error_ends_session Demo.env src_index Demo.alice events e st H).
Defined.

(** After a reconnect the client has logged on twice: one [webSession]
    event runs the cycle twice, and the second run is not stopped by the
    cool-down the first one has written, since it reads the [lastComment]
    of the account object handed over by [startWork]. *)
Lemma reconnect_runs_the_cycle_twice :
  let events := [loggedOn Demo.steamID64; loggedOn Demo.steamID64; webSession] in
  let ss := session Demo.env SrcIndex.autoComment Demo.alice events
              (Demo.start [Demo.alice]) in
  count is_logOff (trace ss.2) = 2
  ∧ count accepted (trace ss.2) = 4
  ∧ disconnectedListeners ss.1 = 2.
Proof. repeat split; by vm_compute. Qed.

(** The token arrives before the login is confirmed. *)
Lemma addAccount_waits_for_both_witness :
  let events := [refreshToken "eyJ.new"; loggedOn Demo.steamID64] in
  let st := Demo.start [Demo.alice] in
  (parse_credentials "dave:pw" = Some ("dave", "pw")
   ∧ getAccount (file st) (Some (JStr "dave")) = None
   ∧ (∀ e, error e ∉ events)
   ∧ (∀ steamID64, loggedOn steamID64 ∈ events → steamID64 ≠ "")
   ∧ (∀ token, refreshToken token ∈ events → token ≠ ""))
  ∧ let '(outcome, st') := addAccount Demo.env src_index "dave:pw" events st in
    disk st' = Some (accounts st')
    ∧ match last_login events, last_token events with
      | Some steamID64, Some token =>
          outcome = returned
          ∧ accounts st'
            = file st ++ [ {[ "login" := JStr "dave"; "password" := JStr "pw";
                              "refreshToken" := JStr token; "commentCounter" := JNum 0;
                              "lastComment" := JNull; "steamID" := JStr steamID64 ]} ]
      | _, _ => outcome = waiting ∧ accounts st' = file st
      end.
Proof.
  intros events st.
  assert (H1 : parse_credentials "dave:pw" = Some ("dave", "pw")) by reflexivity.
  assert (H2 : getAccount (file st) (Some (JStr "dave")) = None) by (by vm_compute).
  assert (H3 : ∀ e, error e ∉ events).
  { intros e H. unfold events in H.
    repeat (apply elem_of_cons in H as [H|H]; [discriminate H|]).
    by apply elem_of_nil in H. }
  assert (H4 : ∀ steamID64, loggedOn steamID64 ∈ events → steamID64 ≠ "").
  { intros sid H. unfold events in H.
    repeat (apply elem_of_cons in H as [H|H]; [try discriminate H; by injection H as ->|]).
    by apply elem_of_nil in H. }
  assert (H5 : ∀ token, refreshToken token ∈ events → token ≠ "").
  { intros tok H. unfold events in H.
    repeat (apply elem_of_cons in H as [H|H]; [try discriminate H; by injection H as ->|]).
    by apply elem_of_nil in H. }
  split; [by repeat split|].
  exact (addAccount_waits_for_both Demo.env src_index "dave:pw" "dave" "pw" events st
           H1 H2 H3 H4 H5).
Defined.

(** A password with a colon in it is stored cut. *)
Lemma password_is_cut_at_the_colon :
  parse_credentials "dave:pa:ss" = Some ("dave", "pa")
  ∧ parse_credentials "dave" = None
  ∧ parse_credentials ":pw" = None
  ∧ parse_credentials "dave:" = None.
Proof. repeat split; by vm_compute. Qed.

(** A posting-frequency error while [dave] is added. *)
Lemma addAccount_rate_limit_stub_witness :
  let e := {| eresult := 84; message := frequency_message |} in
  let st := Demo.start [Demo.alice] in
  (parse_credentials "dave:pw" = Some ("dave", "pw")
   ∧ getAccount (file st) (Some (JStr "dave")) = None
   ∧ eresult e ≠ 5%Z ∧ eresult e ≠ 63%Z
   ∧ JS.includes (message e) frequency_message = true)
  ∧ let '(outcome, st') := addAccount Demo.env second_script "dave:pw" [error e] st in
    let stub : Account :=
      {[ "login" := JStr "dave"; "commentCounter" := JNum 0;
         "lastComment" := JStr (toISOString Demo.env (now st)) ]} in
    accounts st' = file st ++ [stub]
    ∧ disk st' = Some (accounts st')
    ∧ outcome = crashed Str.ReferenceError
    ∧ identified stub = false
    ∧ ∀ events', addAccount Demo.env second_script "dave:pw" events' st' = (returned, st').
Proof.
  intros e st.
  assert (H1 : parse_credentials "dave:pw" = Some ("dave", "pw")) by reflexivity.
  assert (H2 : getAccount (file st) (Some (JStr "dave")) = None) by (by vm_compute).
  assert (H3 : eresult e ≠ 5%Z) by (simpl; lia).
  assert (H4 : eresult e ≠ 63%Z) by (simpl; lia).
  assert (H5 : JS.includes (message e) frequency_message = true) by (by vm_compute).
  split; [by repeat split|].
  exact (addAccount_rate_limit_stub Demo.env second_script "dave:pw" "dave" "pw" e st
           H1 H2 H3 H4 H5).
Defined.

(** Exactly twenty-four hours after the last comment the listing says
    [No] and the batch processes the account. *)
Lemma a_day_later_to_the_millisecond :
  let t := (Demo.noon + twentyFourHours)%Z in
  canPostComments Demo.env Demo.carol t = false
  ∧ coolingDown Demo.env Demo.carol t = false
  ∧ canPostComments Demo.env Demo.carol (t + 1) = true
  ∧ coolingDown Demo.env Demo.carol (t - 1) = true.
Proof. repeat split; by vm_compute. Qed.

(** Adding [dave], running a batch and leaving. *)
Lemma menu_keeps_logins_unique_witness :
  let turns :=
    [ {| choice := "2"; credentials := "dave:pw"; batch_events := λ _, [];
         add_events := [loggedOn "76561198000000004"; refreshToken "eyJ.dave"] |};
      {| choice := "1"; credentials := "";
         batch_events := λ _, [loggedOn Demo.steamID64; webSession; disconnected];
         add_events := [] |};
      {| choice := "0"; credentials := ""; batch_events := λ _, []; add_events := [] |} ] in
  let st := Demo.start [Demo.alice; Demo.bob] in
  unique_logins (file st) = true
  ∧ unique_logins (file (main Demo.env (λ _, Demo.noon_iso) src_index turns st).2) = true.
Proof.
  intros turns st.
  assert (H : unique_logins (file st) = true) by (by vm_compute).
  split; [done|].
  exact (menu_keeps_logins_unique Demo.env (λ _, Demo.noon_iso) src_index turns st H).
Defined.

(** A wrong password while an account is added: [src/index.js] is back at
    the prompt, the second script is gone, and the choice typed next is
    not read. *)
Lemma add_error_ends_the_second_script :
  let turns :=
    [ {| choice := "2"; credentials := "dave:pw"; batch_events := λ _, [];
         add_events := [error Demo.wrong_password] |};
      {| choice := "0"; credentials := ""; batch_events := λ _, []; add_events := [] |} ] in
  let st := Demo.start [Demo.alice] in
  (main Demo.env (λ _, Demo.noon_iso) src_index turns st).1 = exited
  ∧ (main Demo.env (λ _, Demo.noon_iso) second_script turns st).1
    = uncaught Str.ReferenceError.
Proof. split; by vm_compute. Qed.

(** The record of [alice] after a cycle that ended at noon. *)
Lemma cool_down_lasts_a_day_witness :
  let env := Demo.env_tasks (Ok (JArr [])) in
  let login := Demo.alice !! "login" in
  let st := (SrcIndex.autoComment env Demo.steamID64 Demo.alice
               (advance (-1000) (Demo.loaded [Demo.alice]))).2 in
  (primitive login = true
   ∧ cooled env login st
   ∧ Date_parse env (toISOString env (now st)) = Some (now st)
   ∧ toISOString env (now st) ≠ "")
  ∧ ∃ i record,
      getAccount (file st) login = Some (i, record)
      ∧ ∀ t, (coolingDown env record t = true ↔ (t < now st + twentyFourHours)%Z)
             ∧ (canPostComments env record t = true ↔ (now st + twentyFourHours < t)%Z).
Proof.
  intros env login st.
  assert (H1 : primitive login = true) by (by vm_compute).
  assert (H2 : cooled env login st).
  { split; [by vm_compute|]. intros _. split; by vm_compute. }
  assert (H3 : Date_parse env (toISOString env (now st)) = Some (now st)) by (by vm_compute).
  assert (H4 : toISOString env (now st) ≠ "") by (by vm_compute).
  split; [by repeat split|].
  exact (cool_down_lasts_a_day env login st H1 H2 H3 H4).
Defined.


(** The cycle of [alice] has run and [logOff] was called, but the client
    never confirms the disconnection: the batch waits, and [bob] is not
    logged on. *)
Lemma batch_waits_without_timeout_witness :
  let events : nat → list Event := λ _, [loggedOn Demo.steamID64; webSession] in
  let st := Demo.start [Demo.alice; Demo.bob] in
  let ss := session Demo.env (autoComment_of src_index) Demo.alice (events 0) st in
  (identified Demo.alice = true
   ∧ coolingDown Demo.env Demo.alice (now st) = false
   ∧ (∀ newToken, refreshToken newToken ∉ events 0)
   ∧ (disconnected ∉ events 0)
   ∧ (∀ e, error e ∉ events 0))
  ∧ promise ss.1 = Pending
  ∧ forAccounts Demo.env (autoComment_of src_index) events 0 [Demo.alice; Demo.bob] st
    = (waiting, ss.2)
  ∧ logons (trace ss.2) = logons (trace st) ++ [logOnOptions Demo.alice].
Proof.
  intros events st ss.
  assert (H1 : identified Demo.alice = true) by (by vm_compute).
  assert (H2 : coolingDown Demo.env Demo.alice (now st) = false) by (by vm_compute).
  assert (H3 : ∀ newToken, refreshToken newToken ∉ events 0).
  { intros t H. unfold events in H.
    repeat (apply elem_of_cons in H as [H|H]; [discriminate H|]).
    by apply elem_of_nil in H. }
  assert (H4 : disconnected ∉ events 0).
  { intros H. unfold events in H.
    repeat (apply elem_of_cons in H as [H|H]; [discriminate H|]).
    by apply elem_of_nil in H. }
  assert (H5 : ∀ e, error e ∉ events 0).
  { intros e H. unfold events in H.
    repeat (apply elem_of_cons in H as [H|H]; [discriminate H|]).
    by apply elem_of_nil in H. }
  split; [by repeat split|].
  exact (batch_waits_without_timeout Demo.env src_index events 0 Demo.alice [Demo.bob] st
           H1 H2 H3 H4 H5).
Defined.

